(** * Inliner MCP server: URL canonicalisation, edit-source resolution and
    the generation poller of [src/index.ts], embedded in Rocq.

    Strings are ECMAScript strings, that is sequences of UTF-16 code units;
    a code unit is a number ([N]).  Promises are awaited strictly in
    sequence by the source, so an [await] is modelled as a plain call into
    the environment, and a rejected promise as a thrown exception. *)

From Stdlib Require Import Ascii String.
From Stdlib Require Import List NArith ZArith Bool Arith Lia.
From Stdlib Require DecimalN DecimalPos.
Import ListNotations.

(** ** ECMAScript strings *)

Module JS.

Definition codeUnit := N.
Definition jsstring := list codeUnit.

(** A string literal of the source. *)
Definition lit (s : String.string) : jsstring :=
  map N_of_ascii (String.list_ascii_of_string s).

Definition hyphen : codeUnit := 45%N.
Definition underscore : codeUnit := 95%N.
Definition dot : codeUnit := 46%N.
Definition slash : codeUnit := 47%N.
Definition comma : codeUnit := 44%N.
Definition letter_x : codeUnit := 120%N.

Definition isLower (c : codeUnit) : bool := ((97 <=? c) && (c <=? 122))%N.
Definition isUpper (c : codeUnit) : bool := ((65 <=? c) && (c <=? 90))%N.
Definition isDigit (c : codeUnit) : bool := ((48 <=? c) && (c <=? 57))%N.

(** The character class [[a-z0-9-]]. *)
Definition isSlugChar (c : codeUnit) : bool :=
  isLower c || isDigit c || (c =? hyphen)%N.

(** [String.prototype.toLowerCase], one code unit at a time.  The Unicode
    default case conversion sends a unit into ASCII in three cases only:
    [A-Z], U+212A KELVIN SIGN (to [k]) and U+0130 (to [i] followed by
    U+0307).  Every other unit is lowered to units outside ASCII, as many as
    it had; they are kept as they are here, since the replacement that
    follows in every sanitisation chain overwrites each of them with a
    hyphen. *)
Definition lowerUnit (c : codeUnit) : jsstring :=
  if isUpper c then [(c + 32)%N]
  else if (c =? 8490)%N then [107%N]
  else if (c =? 304)%N then [105%N; 775%N]
  else [c].

Definition toLowerCase (s : jsstring) : jsstring := flat_map lowerUnit s.

(** [s.startsWith(p)] *)
Fixpoint startsWith (s p : jsstring) : bool :=
  match p, s with
  | [], _ => true
  | _ :: _, [] => false
  | a :: p', b :: s' => (a =? b)%N && startsWith s' p'
  end.

(** [s.endsWith(p)] *)
Definition endsWith (s p : jsstring) : bool := startsWith (rev s) (rev p).

(** Strict equality of two strings. *)
Fixpoint streq (s t : jsstring) : bool :=
  match s, t with
  | [], [] => true
  | a :: s', b :: t' => (a =? b)%N && streq s' t'
  | _, _ => false
  end.

(** [s.split(sep)] for a separator of one code unit; the result is never
    empty. *)
Fixpoint split (sep : codeUnit) (s : jsstring) : list jsstring :=
  match s with
  | [] => [[]]
  | c :: rest =>
      if (c =? sep)%N then [] :: split sep rest
      else match split sep rest with
           | [] => [[c]]
           | seg :: segs => (c :: seg) :: segs
           end
  end.

(** No code unit of [s] is [sep]. *)
Definition avoids (sep : codeUnit) (s : jsstring) : bool :=
  forallb (fun c => negb (c =? sep)%N) s.

(** Template-literal rendering of a non-negative integer: its decimal
    digits. *)
Fixpoint digitsOfUint (u : Decimal.uint) : jsstring :=
  match u with
  | Decimal.Nil => []
  | Decimal.D0 u => 48%N :: digitsOfUint u
  | Decimal.D1 u => 49%N :: digitsOfUint u
  | Decimal.D2 u => 50%N :: digitsOfUint u
  | Decimal.D3 u => 51%N :: digitsOfUint u
  | Decimal.D4 u => 52%N :: digitsOfUint u
  | Decimal.D5 u => 53%N :: digitsOfUint u
  | Decimal.D6 u => 54%N :: digitsOfUint u
  | Decimal.D7 u => 55%N :: digitsOfUint u
  | Decimal.D8 u => 56%N :: digitsOfUint u
  | Decimal.D9 u => 57%N :: digitsOfUint u
  end.

Definition numberToString (n : N) : jsstring := digitsOfUint (N.to_uint n).

(** [parseInt(s, 10)] on a string of decimal digits, as the capture groups
    [(\d+)] deliver it.  The value is exact here; the source's is a double,
    which is the same value below 2^53.  Where a theorem depends on the
    value, the digits are those of a dimension in the range of the
    schema. *)
Fixpoint uintOfDigits (s : jsstring) : Decimal.uint :=
  match s with
  | [] => Decimal.Nil
  | c :: rest =>
      let u := uintOfDigits rest in
      match c with
      | 48 => Decimal.D0 u
      | 49 => Decimal.D1 u
      | 50 => Decimal.D2 u
      | 51 => Decimal.D3 u
      | 52 => Decimal.D4 u
      | 53 => Decimal.D5 u
      | 54 => Decimal.D6 u
      | 55 => Decimal.D7 u
      | 56 => Decimal.D8 u
      | _ => Decimal.D9 u
      end%N
  end.

Definition parseInt10 (s : jsstring) : N := N.of_uint (uintOfDigits s).

(** A [number] that a width, a height or a limit may hold.  The schemas are
    [z.number().min(..).max(..)] without [.int()], so that a width of
    [100.5] is accepted.  A number in such a range is not negative, and a
    template literal renders it without an exponent: as the digits of its
    integer part, followed for a number that is no integer by a point and
    the digits of its fraction.  A [number] is kept as these two runs of
    digits; [fraction] is [Nil] for an integer. *)
Record number := mkNumber {
  whole : N;
  fraction : Decimal.uint
}.

Definition integer (n : N) : number :=
  {| whole := n; fraction := Decimal.Nil |}.

Coercion integer : N >-> number.
Bind Scope N_scope with number.

Definition isInteger (n : number) : bool :=
  match fraction n with
  | Decimal.Nil => true
  | _ => false
  end.

(** No digit of the fraction differs from [0]. *)
Definition zeroFraction (n : number) : bool :=
  (N.of_uint (fraction n) =? 0)%N.

(** [n] is [0], the one number that is falsy. *)
Definition isZero (n : number) : bool :=
  (whole n =? 0)%N && zeroFraction n.

(** [`${n}`] *)
Definition renderNumber (n : number) : jsstring :=
  match fraction n with
  | Decimal.Nil => numberToString (whole n)
  | f => numberToString (whole n) ++ [dot] ++ digitsOfUint f
  end.

End JS.

Import JS.

(** ** URL canonicaliser: the sanitisation chains *)

Module Canon.

(** [.replace(/[^a-z0-9-]/g, "-")] *)
Definition replaceNonSlug (s : jsstring) : jsstring :=
  map (fun c => if isSlugChar c then c else hyphen) s.

(** [.replace(/-+/g, "-")]: of every maximal run of hyphens one is kept. *)
Fixpoint collapseHyphens (s : jsstring) : jsstring :=
  match s with
  | [] => []
  | c :: rest =>
      match rest with
      | d :: _ =>
          if ((c =? hyphen) && (d =? hyphen))%N then collapseHyphens rest
          else c :: collapseHyphens rest
      | [] => [c]
      end
  end.

(** [.replace(/^-|-$/g, "")]: the global replace removes a hyphen at index 0
    and a hyphen at the last index. *)
Definition stripLeading (s : jsstring) : jsstring :=
  match s with
  | c :: rest => if (c =? hyphen)%N then rest else s
  | [] => []
  end.

Fixpoint stripTrailing (s : jsstring) : jsstring :=
  match s with
  | [] => []
  | c :: rest =>
      match rest with
      | [] => if (c =? hyphen)%N then [] else [c]
      | _ :: _ => c :: stripTrailing rest
      end
  end.

Definition stripEnds (s : jsstring) : jsstring := stripTrailing (stripLeading s).

(** [.slice(0, 100)] *)
Definition slice0 (n : nat) (s : jsstring) : jsstring := firstn n s.

(** [sanitized] of generate_image_url, generate_image and create_image: the
    description slug. *)
Definition sanitized (description : jsstring) : jsstring :=
  slice0 100 (stripEnds (collapseHyphens (replaceNonSlug (toLowerCase description)))).

(** [sanitizedEdit] of generate_image_url: the chain stops after the
    collapse. *)
Definition sanitizedEdit_url (edit : jsstring) : jsstring :=
  collapseHyphens (replaceNonSlug (toLowerCase edit)).

(** [sanitizedPrompt] of edit_image (upload prompt). *)
Definition sanitizedPrompt (prompt : jsstring) : jsstring :=
  stripEnds (collapseHyphens (replaceNonSlug (toLowerCase prompt))).

(** [sanitizedEdit] of edit_image, before the dimensions are appended. *)
Definition sanitizedEdit (editInstruction : jsstring) : jsstring :=
  stripEnds (collapseHyphens (replaceNonSlug (toLowerCase editInstruction))).

(** Shape predicates on slugs, all decidable. *)
Definition charsetClosed (s : jsstring) : bool := forallb isSlugChar s.

Fixpoint hasDoubleHyphen (s : jsstring) : bool :=
  match s with
  | c :: rest =>
      match rest with
      | d :: _ => ((c =? hyphen) && (d =? hyphen))%N || hasDoubleHyphen rest
      | [] => false
      end
  | [] => false
  end.

Definition startsWithHyphen (s : jsstring) : bool :=
  match s with
  | c :: _ => (c =? hyphen)%N
  | [] => false
  end.

Fixpoint endsWithHyphen (s : jsstring) : bool :=
  match s with
  | [] => false
  | c :: rest =>
      match rest with
      | [] => (c =? hyphen)%N
      | _ :: _ => endsWithHyphen rest
      end
  end.

(** The slug invariant of the data model: only [[a-z0-9-]], single hyphens,
    no hyphen at either end. *)
Definition noHyphen (s : jsstring) : bool :=
  forallb (fun c => negb (c =? hyphen)%N) s.

Definition wellFormedSlug (s : jsstring) : bool :=
  charsetClosed s && negb (hasDoubleHyphen s)
  && negb (startsWithHyphen s) && negb (endsWithHyphen s).

End Canon.

Import Canon.

(** ** Resource paths and the edit-source resolver *)

Module Path.

Inductive Format := png | jpg.

Definition formatToString (f : Format) : jsstring :=
  match f with
  | png => lit "png"
  | jpg => lit "jpg"
  end.

Definition IMG_BASE : jsstring := lit "https://img.inliner.ai".

(** The data model's ImageSpec, with the width and the height as the tools
    accept them. *)
Record ImageSpec := mkImageSpec {
  spec_project : jsstring;
  spec_description : jsstring;
  spec_width : number;
  spec_height : number;
  spec_format : Format;
  spec_edit : option jsstring
}.

(** The schema's [.min(100).max(4096)], on an integer and on a number. *)
Definition inRange (n : N) : bool := ((100 <=? n) && (n <=? 4096))%N.

Definition numberInRange (n : number) : bool :=
  ((100 <=? whole n)
   && ((whole n <? 4096) || ((whole n =? 4096) && zeroFraction n)))%N.

Definition specInRange (sp : ImageSpec) : bool :=
  numberInRange (spec_width sp) && numberInRange (spec_height sp).

(** [pathPart] of generate_image and create_image (the specification's
    buildImagePath for a spec without an edit segment):
    [`${project}/${sanitized}_${width}x${height}.${format}`]. *)
Definition pathPart (project description : jsstring) (width height : number)
    (format : Format) : jsstring :=
  project ++ [slash] ++ sanitized description ++ [underscore]
    ++ renderNumber width ++ [letter_x] ++ renderNumber height
    ++ [dot] ++ formatToString format.

(** The part of a file name after the underscore: [WxH.format]. *)
Definition dimsAndFormat (w h : number) (f : Format) : jsstring :=
  renderNumber w ++ [letter_x] ++ renderNumber h
    ++ [dot] ++ formatToString f.

Definition buildImagePath (sp : ImageSpec) : jsstring :=
  pathPart (spec_project sp) (spec_description sp) (spec_width sp)
    (spec_height sp) (spec_format sp).

(** [url] of generate_image_url, where an edit segment may follow. *)
Definition generate_image_url_url (sp : ImageSpec) : jsstring :=
  IMG_BASE ++ [slash] ++ spec_project sp ++ [slash]
    ++ sanitized (spec_description sp) ++ [underscore]
    ++ renderNumber (spec_width sp) ++ [letter_x]
    ++ renderNumber (spec_height sp)
    ++ match spec_edit sp with
       | Some (c :: e) => [slash] ++ sanitizedEdit_url (c :: e)
       | _ => []
       end
    ++ [dot] ++ formatToString (spec_format sp).

(** [sourcePathParts[sourcePathParts.length - 1]] *)
Definition sourceFileName (sourcePathFromUrl : jsstring) : jsstring :=
  last (split slash sourcePathFromUrl) [].

(** The dot of a regular expression without the [s] flag matches every code
    unit but the four line terminators. *)
Definition isLineTerminator (c : codeUnit) : bool :=
  ((c =? 10) || (c =? 13) || (c =? 8232) || (c =? 8233))%N.

(** Greedy [\d+]: the longest run of digits.  In the two patterns below a
    digit run is followed by a non-digit, so no shorter run can match. *)
Fixpoint spanDigits (s : jsstring) : jsstring * jsstring :=
  match s with
  | c :: rest =>
      if isDigit c then let (ds, r) := spanDigits rest in (c :: ds, r)
      else ([], s)
  | [] => ([], [])
  end.

Definition matchPngJpg (s : jsstring) : option Format :=
  if streq s (lit "png") then Some png
  else if streq s (lit "jpg") then Some jpg
  else None.

(** [(\d+)x(\d+)\.(png|jpg)$] *)
Definition matchDims (s : jsstring) : option (jsstring * jsstring * Format) :=
  match spanDigits s with
  | ((_ :: _) as w, c :: r2) =>
      if (c =? letter_x)%N then
        match spanDigits r2 with
        | ((_ :: _) as h, d :: r4) =>
            if (d =? dot)%N then
              match matchPngJpg r4 with
              | Some f => Some (w, h, f)
              | None => None
              end
            else None
        | _ => None
        end
      else None
  | _ => None
  end.

(** [/^(.+)_(\d+)x(\d+)\.(png|jpg)$/]: the greedy [(.+)], whose reversed
    text so far is [pre], first tries to take one more code unit and only
    then to stop before an underscore. *)
Fixpoint matchSourceFrom (pre rest : jsstring)
    : option (jsstring * jsstring * jsstring * Format) :=
  match rest with
  | [] => None
  | c :: rest' =>
      match (if isLineTerminator c then None
             else matchSourceFrom (c :: pre) rest') with
      | Some r => Some r
      | None =>
          match pre with
          | [] => None
          | _ :: _ =>
              if (c =? underscore)%N then
                match matchDims rest' with
                | Some (w, h, f) => Some (rev pre, w, h, f)
                | None => None
                end
              else None
          end
      end
  end.

Definition sourceMatch (fileName : jsstring)
    : option (jsstring * jsstring * jsstring * Format) :=
  matchSourceFrom [] fileName.

(** The extensions of the second pattern, compared case-insensitively
    (flag [i]); the result is the matched text, lower-cased by the caller. *)
Definition matchUploadExt (s : jsstring) : option jsstring :=
  let l := toLowerCase s in
  if forallb (fun c => (c <? 128)%N) s
     && (streq l (lit "png") || streq l (lit "jpg") || streq l (lit "jpeg")
         || streq l (lit "webp") || streq l (lit "gif"))
  then Some s else None.

(** [/^(.+)\.(png|jpg|jpeg|webp|gif)$/i] *)
Fixpoint matchFormatFrom (pre rest : jsstring) : option (jsstring * jsstring) :=
  match rest with
  | [] => None
  | c :: rest' =>
      match (if isLineTerminator c then None
             else matchFormatFrom (c :: pre) rest') with
      | Some r => Some r
      | None =>
          match pre with
          | [] => None
          | _ :: _ =>
              if (c =? dot)%N then
                match matchUploadExt rest' with
                | Some e => Some (rev pre, e)
                | None => None
                end
              else None
          end
      end
  end.

Definition formatMatch (fileName : jsstring) : option (jsstring * jsstring) :=
  matchFormatFrom [] fileName.

(** What the resolver extracts from a file name when no local file is at
    hand (the specification's extractDescriptionAndDimensions): description,
    width, height and format text. *)
Definition extractDescriptionAndDimensions (fileName : jsstring)
    : option (jsstring * N * N * jsstring) :=
  match sourceMatch fileName with
  | Some (desc, w, h, fmt) =>
      Some (desc, parseInt10 w, parseInt10 h, formatToString fmt)
  | None =>
      match formatMatch fileName with
      | Some (desc, e) =>
          let e' := toLowerCase e in
          Some (desc, 1024%N, 1024%N,
                if streq e' (lit "jpeg") then lit "jpg" else e')
      | None => None
      end
  end.

End Path.

Import Path.

(** ** The platform: values, exceptions, effects *)

Module Runtime.

(** A [Buffer]. *)
Definition bytes := list Byte.byte.

(** A parsed JSON document ([any] in the source).  Numbers are kept as
    integers: the source looks at a number of a response only to see
    whether it is zero. *)
#[local] Unset Elimination Schemes.
Inductive JSON :=
| JNull
| JBool (b : bool)
| JNum (n : Z)
| JStr (s : jsstring)
| JArr (items : list JSON)
| JObj (fields : list (jsstring * JSON)).
#[local] Set Elimination Schemes.

(** ToBoolean *)
Definition truthy (v : JSON) : bool :=
  match v with
  | JNull => false
  | JBool b => b
  | JNum n => negb (n =? 0)%Z
  | JStr s => match s with [] => false | _ :: _ => true end
  | JArr _ | JObj _ => true
  end.

(** [None] stands for [undefined]. *)
Definition truthyOpt (o : option JSON) : bool :=
  match o with
  | Some v => truthy v
  | None => false
  end.

Definition truthyStr (o : option jsstring) : bool :=
  match o with
  | Some (_ :: _) => true
  | _ => false
  end.

Fixpoint lookup (k : jsstring) (fields : list (jsstring * JSON)) : option JSON :=
  match fields with
  | [] => None
  | (k', v) :: rest => if streq k k' then Some v else lookup k rest
  end.

(** [v.k] for a [v] that is neither [null] nor [undefined] and a key that
    no prototype defines: the own property of an object, [undefined] on
    every other value. *)
Definition getProp (v : JSON) (k : jsstring) : option JSON :=
  match v with
  | JObj fields => lookup k fields
  | _ => None
  end.

(** [v?.k] *)
Definition getPropOpt (v : option JSON) (k : jsstring) : option JSON :=
  match v with
  | None | Some JNull => None
  | Some v' => getProp v' k
  end.

(** What is thrown: an [Error] built by the source, or a rejection or
    engine error raised by the platform, whose message is the platform's. *)
Inductive Exn :=
| Error (message : jsstring)
| Rejected (message : jsstring).

Definition message (e : Exn) : jsstring :=
  match e with
  | Error m | Rejected m => m
  end.

(** A [Response] of [fetch]. *)
Record Response := mkResponse {
  res_status : N;
  res_text : jsstring + jsstring;   (* [inl m]: [res.text()] rejects with [m] *)
  res_json : jsstring + JSON        (* [inl m]: [res.json()] rejects with [m] *)
}.

Definition res_ok (r : Response) : bool :=
  ((200 <=? res_status r) && (res_status r <=? 299))%N.

Inductive FetchOutcome :=
| FetchRejects (message : jsstring)
| FetchResolves (r : Response).

Record ImageResponse := mkImageResponse {
  img_status : N;
  img_arrayBuffer : jsstring + bytes   (* [inl m]: [arrayBuffer()] rejects *)
}.

Inductive ImageOutcome :=
| ImageRejects (message : jsstring)
| ImageResolves (r : ImageResponse).

Record URL := mkURL {
  hostname : jsstring;
  pathname : jsstring;
  search : jsstring
}.

Record UploadForm := mkUploadForm {
  form_file : bytes;
  form_filename : jsstring;
  form_contentType : jsstring;
  form_project : jsstring;
  form_prompt : jsstring
}.

(** Built-ins of the platform that are pure functions. *)
Record Platform := mkPlatform {
  Buffer_from_base64 : jsstring -> bytes;
  JSON_stringify : JSON -> N -> jsstring;       (* value, indentation *)
  String_of : JSON -> jsstring;                 (* ToString of a non-string *)
  greaterThanZero : JSON -> bool;               (* [v > 0] for a non-number *)
  URL_parse : jsstring -> option URL;           (* [new URL(s)]; [None]: throws *)
  path_extname : jsstring -> jsstring;
  path_basename : jsstring -> jsstring;
  path_basename_ext : jsstring -> jsstring -> jsstring;
  path_dirname : jsstring -> jsstring;
  typeErrorMessage : jsstring
}.

(** The network and the file system, as one invocation of a tool finds
    them.  Status requests are numbered from 0 in the order the polling loop
    issues them. *)
Record World := mkWorld {
  API_BASE : jsstring;
  fetch_api : jsstring -> FetchOutcome;
  fetch_poll : jsstring -> nat -> FetchOutcome;
  fetch_image : jsstring -> nat -> ImageOutcome;
  fetch_upload : UploadForm -> FetchOutcome;
  fs_readFile : jsstring -> jsstring + bytes;
  fs_save : jsstring -> bytes -> option jsstring;   (* mkdir and writeFile *)
  sharp_metadata : bytes -> option (option N * option N)
}.

(** What an invocation does to the outside, in order. *)
Inductive Event :=
| EvApi (url : jsstring)
| EvPoll (url : jsstring)
| EvImage (url : jsstring)
| EvUpload (form : UploadForm)
| EvSleep (ms : N)
| EvRead (path : jsstring)
| EvSave (path : jsstring) (content : bytes).

Definition isPoll (e : Event) : bool :=
  match e with
  | EvPoll _ => true
  | _ => false
  end.

Definition isSleep (e : Event) : bool :=
  match e with
  | EvSleep _ => true
  | _ => false
  end.

(** Number of status requests in a trace. *)
Definition pollCount (log : list Event) : nat := length (filter isPoll log).
Definition sleepCount (log : list Event) : nat := length (filter isSleep log).

Inductive Completion (A : Type) :=
| Normal (a : A)
| Throw (e : Exn).

Arguments Normal {A} a.
Arguments Throw {A} e.

(** A computation extends the trace and completes normally or abruptly;
    [None] is a loop that was given too little fuel. *)
Definition M (A : Type) : Type :=
  list Event -> option (Completion A * list Event).

Definition ret {A} (a : A) : M A := fun log => Some (Normal a, log).

Definition throw {A} (e : Exn) : M A := fun log => Some (Throw e, log).

Definition bind {A B} (m : M A) (f : A -> M B) : M B :=
  fun log =>
    match m log with
    | None => None
    | Some (Throw e, log') => Some (Throw e, log')
    | Some (Normal a, log') => f a log'
    end.

Definition emit (e : Event) : M unit := fun log => Some (Normal tt, log ++ [e]).

(** [try { m } catch (err) { handler err }] *)
Definition tryCatch {A} (m : M A) (handler : Exn -> M A) : M A :=
  fun log =>
    match m log with
    | None => None
    | Some (Throw e, log') => handler e log'
    | Some (Normal a, log') => Some (Normal a, log')
    end.

Declare Scope js_scope.
Delimit Scope js_scope with js.
Notation "x <- m ;; k" := (bind m (fun x => k))
  (at level 61, m at next level, right associativity) : js_scope.
Notation "m ;;; k" := (bind m (fun _ => k))
  (at level 61, right associativity) : js_scope.

Open Scope js_scope.

Definition fetchApi (W : World) (url : jsstring) : M Response :=
  emit (EvApi url) ;;;
  match fetch_api W url with
  | FetchRejects m => throw (Rejected m)
  | FetchResolves r => ret r
  end.

Definition fetchPoll (W : World) (url : jsstring) (k : nat) : M Response :=
  emit (EvPoll url) ;;;
  match fetch_poll W url k with
  | FetchRejects m => throw (Rejected m)
  | FetchResolves r => ret r
  end.

Definition fetchImage (W : World) (url : jsstring) (k : nat) : M ImageResponse :=
  emit (EvImage url) ;;;
  match fetch_image W url k with
  | ImageRejects m => throw (Rejected m)
  | ImageResolves r => ret r
  end.

Definition fetchUpload (W : World) (form : UploadForm) : M Response :=
  emit (EvUpload form) ;;;
  match fetch_upload W form with
  | FetchRejects m => throw (Rejected m)
  | FetchResolves r => ret r
  end.

Definition readFile (W : World) (path : jsstring) : M bytes :=
  emit (EvRead path) ;;;
  match fs_readFile W path with
  | inl m => throw (Rejected m)
  | inr b => ret b
  end.

(** [res.text()] *)
Definition bodyText (r : Response) : M jsstring :=
  match res_text r with
  | inl m => throw (Rejected m)
  | inr body => ret body
  end.

(** [res.json()] *)
Definition json (r : Response) : M JSON :=
  match res_json r with
  | inl m => throw (Rejected m)
  | inr v => ret v
  end.

Definition arrayBuffer (r : ImageResponse) : M bytes :=
  match img_arrayBuffer r with
  | inl m => throw (Rejected m)
  | inr b => ret b
  end.

(** [apiFetch(path, apiKey)] *)
Definition apiFetch (W : World) (path : jsstring) : M JSON :=
  let url := API_BASE W ++ [slash] ++ path in
  res <- fetchApi W url ;;
  if negb (res_ok res) then
    body <- bodyText res ;;
    throw (Error (lit "API error " ++ numberToString (res_status res)
                    ++ lit ": " ++ body))
  else json res.

(** A value in a template literal. *)
Definition render (P : Platform) (v : option JSON) : jsstring :=
  match v with
  | None => lit "undefined"
  | Some (JStr s) => s
  | Some v' => String_of P v'
  end.

(** The result of a tool; [isError] is absent from the results the source
    builds on success, which is [false] here. *)
Record ToolResult := mkToolResult {
  text : jsstring;
  isError : bool
}.

End Runtime.

Import Runtime.

(** ** Generation poller: the loop shared, text for text, by
    generate_image, create_image and edit_image *)

Module Poller.

(** The variable [status] holds one of two literals in the source: it is
    initialised and assigned ["PENDING"], and compared with ["FAILED"]. *)
Inductive JobStatus := PENDING | FAILED.

Record LoopState := mkLoopState {
  attempt : nat;
  imageBuffer : option bytes;
  status : JobStatus
}.

Definition maxAttempts : nat := 60.

Definition initialState : LoopState :=
  {| attempt := 0; imageBuffer := None; status := PENDING |}.

Definition setBuffer (st : LoopState) (b : bytes) : LoopState :=
  {| attempt := attempt st; imageBuffer := Some b; status := status st |}.

Definition setStatus (st : LoopState) (s : JobStatus) : LoopState :=
  {| attempt := attempt st; imageBuffer := imageBuffer st; status := s |}.

Definition nextAttempt (st : LoopState) : LoopState :=
  {| attempt := S (attempt st); imageBuffer := imageBuffer st; status := status st |}.

(** How an iteration leaves the [try] statement: [break], or on to
    [attempt++]. *)
Inductive Flow := Next | Break.

(** [pollData.mediaAsset && pollData.mediaAsset.data], for a [pollData]
    other than [null]. *)
Definition mediaAssetData (pollData : JSON) : option JSON :=
  match getProp pollData (lit "mediaAsset") with
  | Some m => if truthy m then getProp m (lit "data") else Some m
  | None => None
  end.

(** Reading a property of [null] throws. *)
Definition readData (P : Platform) (pollData : JSON) : M (option JSON) :=
  match pollData with
  | JNull => throw (Rejected (typeErrorMessage P))
  | _ => ret (mediaAssetData pollData)
  end.

(** Whether a response carries a media payload: it parses as JSON and
    [mediaAsset.data] is truthy. *)
Definition carriesMedia (r : Response) : bool :=
  match res_json r with
  | inr JNull | inl _ => false
  | inr pollData => truthyOpt (mediaAssetData pollData)
  end.

Definition apiErrorMessage (st : N) (body : jsstring) : jsstring :=
  lit "API error " ++ numberToString st ++ lit ": " ++ body.

(** The body of the [try] block. *)
Definition tryBlock (P : Platform) (W : World) (pollUrl : jsstring)
    (st : LoopState) : M (LoopState * Flow) :=
  pollRes <- fetchPoll W pollUrl (attempt st) ;;
  if res_ok pollRes then
    pollData <- json pollRes ;;
    d <- readData P pollData ;;
    if truthyOpt d then
      match d with
      | Some (JStr dataUrl) =>
          if startsWith dataUrl (lit "data:") then
            match nth_error (split comma dataUrl) 1 with
            | Some base64Data =>
                ret (setBuffer st (Buffer_from_base64 P base64Data), Break)
            | None => throw (Rejected (typeErrorMessage P))
            end
          else
            imgRes <- fetchImage W dataUrl (attempt st) ;;
            buf <- arrayBuffer imgRes ;;
            ret (setBuffer st buf, Break)
      | _ => throw (Rejected (typeErrorMessage P))
      end
    else if (res_status pollRes =? 202)%N then ret (setStatus st PENDING, Next)
    else if (400 <=? res_status pollRes)%N then
      throw (Error (apiErrorMessage (res_status pollRes)
                      (JSON_stringify P pollData 0)))
    else ret (st, Next)
  else if (res_status pollRes =? 202)%N then ret (setStatus st PENDING, Next)
  else
    body <- bodyText pollRes ;;
    throw (Error (apiErrorMessage (res_status pollRes) body)).

(** [try { ... } catch (err) { if (status === "FAILED") throw err; }] *)
Definition iteration (P : Platform) (W : World) (pollUrl : jsstring)
    (st : LoopState) : M (LoopState * Flow) :=
  tryCatch (tryBlock P W pollUrl st)
    (fun err =>
       match status st with
       | FAILED => throw err
       | PENDING => ret (st, Next)
       end).

(** [while (attempt < maxAttempts) { ...; attempt++; await sleep(3000) }] *)
Fixpoint pollLoop (fuel : nat) (P : Platform) (W : World) (pollUrl : jsstring)
    (st : LoopState) : M LoopState :=
  match fuel with
  | O => fun _ => None
  | S fuel' =>
      if attempt st <? maxAttempts then
        r <- iteration P W pollUrl st ;;
        match r with
        | (st', Break) => ret st'
        | (st', Next) =>
            emit (EvSleep 3000) ;;; pollLoop fuel' P W pollUrl (nextAttempt st')
        end
      else ret st
  end.

(** The loop from its initial variables, followed by
    [if (!imageBuffer) throw new Error(timeout message)]. *)
Definition pollImage (fuel : nat) (P : Platform) (W : World)
    (pollUrl timeoutMessage : jsstring) : M bytes :=
  st <- pollLoop fuel P W pollUrl initialState ;;
  match imageBuffer st with
  | None => throw (Error timeoutMessage)
  | Some b => ret b
  end.

End Poller.

Import Poller.

(** ** The tools *)

Module Tools.

Definition quote : codeUnit := 34%N.
Definition space : codeUnit := 32%N.

(** [.replace(/-/g, " ")] *)
Definition hyphensToSpaces (s : jsstring) : jsstring :=
  map (fun c => if (c =? hyphen)%N then space else c) s.

Definition quoted (s : jsstring) : jsstring := [quote] ++ s ++ [quote].

(** The [<img>] fragment every tool builds. *)
Definition imgTag (url alt : jsstring) (width height : number) : jsstring :=
  lit "<img src=" ++ quoted url ++ lit " alt=" ++ quoted alt
    ++ lit " width=" ++ quoted (renderNumber width)
    ++ lit " height=" ++ quoted (renderNumber height)
    ++ lit " loading=" ++ quoted (lit "lazy") ++ lit " />".

Definition success (P : Platform) (payload : JSON) : ToolResult :=
  {| text := JSON_stringify P payload 2; isError := false |}.

Definition failure (prefix : jsstring) (err : Exn) : ToolResult :=
  {| text := prefix ++ message err; isError := true |}.

Definition strOrNull (o : option jsstring) : JSON :=
  match o with
  | Some (c :: r) => JStr (c :: r)
  | _ => JNull
  end.

Definition byteLength (b : bytes) : JSON := JNum (Z.of_nat (length b)).

(** [if (outputPath) { mkdir(dirname); writeFile(outputPath, imageBuffer) }] *)
Definition saveImage (W : World) (outputPath : option jsstring) (b : bytes)
    : M unit :=
  match outputPath with
  | Some (c :: r) =>
      emit (EvSave (c :: r) b) ;;;
      match fs_save W (c :: r) b with
      | Some m => throw (Rejected m)
      | None => ret tt
      end
  | _ => ret tt
  end.

Definition pollUrlOf (W : World) (path : jsstring) : jsstring :=
  API_BASE W ++ lit "/content/request-json/" ++ path.

Definition timeoutMessage (what url : jsstring) : jsstring :=
  what ++ lit " timeout after " ++ numberToString (N.of_nat maxAttempts * 3)
    ++ lit " seconds. URL: " ++ url.

(** *** generate_image_url *)

Definition generate_image_url (P : Platform) (sp : ImageSpec) : ToolResult :=
  let url := generate_image_url_url sp in
  let html := imgTag url (hyphensToSpaces (spec_description sp))
                (spec_width sp) (spec_height sp) in
  success P (JObj [(lit "url", JStr url); (lit "html", JStr html)]).

(** *** generate_image *)

Module GenerateImage.
Record Args := mkArgs {
  project : jsstring;
  description : jsstring;
  width : number;
  height : number;
  format : Format;
  outputPath : option jsstring
}.
End GenerateImage.

Definition generate_image (fuel : nat) (P : Platform) (W : World)
    (a : GenerateImage.Args) : M ToolResult :=
  let path := pathPart (GenerateImage.project a) (GenerateImage.description a)
                (GenerateImage.width a) (GenerateImage.height a)
                (GenerateImage.format a) in
  let url := IMG_BASE ++ [slash] ++ path in
  imageBuffer <- pollImage fuel P W (pollUrlOf W path)
                   (timeoutMessage (lit "Image generation") url) ;;
  saveImage W (GenerateImage.outputPath a) imageBuffer ;;;
  let html := imgTag url (hyphensToSpaces (GenerateImage.description a))
                (GenerateImage.width a) (GenerateImage.height a) in
  ret (success P (JObj [
    (lit "url", JStr url);
    (lit "html", JStr html);
    (lit "saved", JBool (truthyStr (GenerateImage.outputPath a)));
    (lit "outputPath", strOrNull (GenerateImage.outputPath a));
    (lit "size", byteLength imageBuffer)])).

(** *** create_image *)

Module CreateImage.
Record Args := mkArgs {
  description : jsstring;
  project : option jsstring;
  width : option number;
  height : option number;
  format : option Format;
  outputPath : option jsstring
}.
End CreateImage.

(** [projects.length > 0] for a truthy [projects]. *)
Definition lengthPositive (P : Platform) (projects : JSON) : bool :=
  match projects with
  | JArr items => match items with [] => false | _ :: _ => true end
  | JStr _ => true
  | JObj fields =>
      match lookup (lit "length") fields with
      | Some (JNum n) => (0 <? n)%Z
      | Some v => greaterThanZero P v
      | None => false
      end
  | _ => false
  end.

(** [projects[0]] *)
Definition index0 (projects : JSON) : option JSON :=
  match projects with
  | JArr items => hd_error items
  | JStr (c :: _) => Some (JStr [c])
  | JObj fields => lookup (lit "0") fields
  | _ => None
  end.

(** The [try] block that resolves the project when none is given. *)
Definition firstProject (P : Platform) (W : World) : M (option JSON) :=
  projectsData <- apiFetch W (lit "account/projects") ;;
  let projects := getPropOpt (Some projectsData) (lit "projects") in
  match projects with
  | Some pr =>
      if truthy pr && lengthPositive P pr then
        match index0 pr with
        | None | Some JNull => throw (Rejected (typeErrorMessage P))
        | Some first => ret (getProp first (lit "project"))
        end
      else ret (Some (JStr (lit "default")))
  | None => ret (Some (JStr (lit "default")))
  end.

Definition resolveProject (P : Platform) (W : World)
    (project : option jsstring) : M (option JSON) :=
  match project with
  | Some (c :: r) => ret (Some (JStr (c :: r)))
  | _ => tryCatch (firstProject P W)
           (fun _ => ret (Some (JStr (lit "default"))))
  end.

Definition orDefault {A} (o : option A) (d : A) : A :=
  match o with
  | Some a => a
  | None => d
  end.

Definition create_image (fuel : nat) (P : Platform) (W : World)
    (a : CreateImage.Args) : M ToolResult :=
  let width := orDefault (CreateImage.width a) (integer 800) in
  let height := orDefault (CreateImage.height a) (integer 600) in
  let format := orDefault (CreateImage.format a) png in
  resolvedProject <- resolveProject P W (CreateImage.project a) ;;
  let path := pathPart (render P resolvedProject) (CreateImage.description a)
                width height format in
  let url := IMG_BASE ++ [slash] ++ path in
  imageBuffer <- pollImage fuel P W (pollUrlOf W path)
                   (timeoutMessage (lit "Image generation") url) ;;
  saveImage W (CreateImage.outputPath a) imageBuffer ;;;
  let html := imgTag url (hyphensToSpaces (CreateImage.description a))
                width height in
  ret (success P (JObj ([
    (lit "url", JStr url);
    (lit "html", JStr html);
    (lit "saved", JBool (truthyStr (CreateImage.outputPath a)));
    (lit "outputPath", strOrNull (CreateImage.outputPath a));
    (lit "size", byteLength imageBuffer)]
    ++ match resolvedProject with
       | Some v => [(lit "project", v)]
       | None => []
       end))).

(** *** edit_image *)

Module EditImage.
Record Args := mkArgs {
  sourceUrl : option jsstring;
  sourcePath : option jsstring;
  project : option jsstring;
  uploadPrompt : option jsstring;
  editInstruction : jsstring;
  width : option number;
  height : option number;
  format : option Format;
  outputPath : option jsstring
}.
End EditImage.

Definition allowedExtensions : list jsstring :=
  [lit "png"; lit "jpg"; lit "jpeg"; lit "webp"; lit "gif"].

(** [allowedExtensions.join(", ")] *)
Definition allowedExtensionsText : jsstring := lit "png, jpg, jpeg, webp, gif".

(** [.replace(".", "")]: the first dot only. *)
Fixpoint removeFirstDot (s : jsstring) : jsstring :=
  match s with
  | [] => []
  | c :: rest => if (c =? dot)%N then rest else c :: removeFirstDot rest
  end.

(** [.replace(/^\//, "")] *)
Definition removeLeadingSlash (s : jsstring) : jsstring :=
  match s with
  | c :: rest => if (c =? slash)%N then rest else s
  | [] => []
  end.

(** [a || b] on an optional integer, on an optional number whose
    alternative is an integer, and on an optional string. *)
Definition orNumber (o : option N) (d : N) : N :=
  match o with
  | Some n => if (n =? 0)%N then d else n
  | None => d
  end.

Definition orDimension (o : option number) (d : N) : number :=
  match o with
  | Some n => if isZero n then integer d else n
  | None => integer d
  end.

Definition truthyNum (o : option number) : bool :=
  match o with
  | Some n => negb (isZero n)
  | None => false
  end.

Definition orString (o : option jsstring) (d : jsstring) : jsstring :=
  match o with
  | Some (c :: r) => c :: r
  | _ => d
  end.

(** The upload of a local file, which yields the source URL. *)
Definition uploadSource (P : Platform) (W : World) (a : EditImage.Args)
    : M jsstring :=
  match EditImage.sourcePath a with
  | Some (c0 :: r0) =>
      let sourcePath := c0 :: r0 in
      match EditImage.project a with
      | Some (c1 :: r1) =>
          let project := c1 :: r1 in
          fileBuffer <- readFile W sourcePath ;;
          let ext := removeFirstDot (toLowerCase (path_extname P sourcePath)) in
          if negb (existsb (streq ext) allowedExtensions) then
            throw (Error (lit "Invalid file type " ++ quoted ext
                            ++ lit ". Allowed types: " ++ allowedExtensionsText))
          else
            let finalExt := if streq ext (lit "jpeg") then lit "jpg" else ext in
            let defaultPrompt :=
              path_basename_ext P sourcePath (path_extname P sourcePath) in
            let sanitizedPrompt :=
              Canon.sanitizedPrompt
                (orString (EditImage.uploadPrompt a) defaultPrompt) in
            match sanitizedPrompt with
            | [] => throw (Error (lit "Upload prompt is required and cannot be empty."))
            | _ :: _ =>
                uploadRes <- fetchUpload W
                  {| form_file := fileBuffer;
                     form_filename := path_basename P sourcePath;
                     form_contentType := lit "image/" ++ finalExt;
                     form_project := project;
                     form_prompt := sanitizedPrompt |} ;;
                if negb (res_ok uploadRes) then
                  body <- bodyText uploadRes ;;
                  throw (Error (lit "Upload failed "
                                  ++ numberToString (res_status uploadRes)
                                  ++ lit ": " ++ body))
                else
                  uploadData <- json uploadRes ;;
                  if negb (truthyOpt (getPropOpt (Some uploadData) (lit "success"))) then
                    throw (Error (lit "Upload failed: "
                      ++ match getPropOpt (Some uploadData) (lit "message") with
                         | Some m => if truthy m then render P (Some m)
                                     else lit "Unknown error"
                         | None => lit "Unknown error"
                         end))
                  else
                    let uploadedPrompt :=
                      getPropOpt (getPropOpt (Some uploadData) (lit "content"))
                        (lit "prompt") in
                    if negb (truthyOpt uploadedPrompt) then
                      throw (Error (lit "Upload succeeded but no prompt returned in response"))
                    else ret (IMG_BASE ++ [slash] ++ render P uploadedPrompt)
            end
      | _ => throw (Error (lit "Project is required when uploading a local file."))
      end
  | _ => throw (Error (lit "Either sourceUrl or sourcePath must be provided."))
  end.

Definition invalidUrl (resolvedSourceUrl : jsstring) : Exn :=
  Error (lit "Invalid Inliner image URL: " ++ resolvedSourceUrl).

(** [new URL(...)] in its [try], then the check of the host name. *)
Definition checkSourceUrl (P : Platform) (resolvedSourceUrl : jsstring) : M URL :=
  match URL_parse P resolvedSourceUrl with
  | None => throw (invalidUrl resolvedSourceUrl)
  | Some sourceUrlObj =>
      if negb (endsWith (hostname sourceUrlObj) (lit "img.inliner.ai")) then
        throw (invalidUrl resolvedSourceUrl)
      else ret sourceUrlObj
  end.

(** Dimensions of an uploaded image: read from the local file when there is
    one, 1024 otherwise and whenever reading fails. *)
Definition uploadedDimensions (W : World) (sourcePath : option jsstring)
    : M (N * N) :=
  match sourcePath with
  | Some (c :: r) =>
      tryCatch
        (fileBuffer <- readFile W (c :: r) ;;
         match sharp_metadata W fileBuffer with
         | None => throw (Rejected [])
         | Some (w, h) => ret (orNumber w 1024, orNumber h 1024)
         end)
        (fun _ => ret (1024%N, 1024%N))
  | _ => ret (1024%N, 1024%N)
  end.

(** Base description, width, height and format of the source. *)
Definition resolveSource (W : World) (sourcePath : option jsstring)
    (sourcePathFromUrl : jsstring) : M (jsstring * N * N * jsstring) :=
  match sourceMatch (sourceFileName sourcePathFromUrl) with
  | Some (desc, w, h, fmt) =>
      ret (desc, parseInt10 w, parseInt10 h, formatToString fmt)
  | None =>
      match formatMatch (sourceFileName sourcePathFromUrl) with
      | None =>
          throw (Error (lit "Invalid source image path format: "
                          ++ sourcePathFromUrl))
      | Some (desc, e) =>
          let e' := toLowerCase e in
          let sourceFormat := if streq e' (lit "jpeg") then lit "jpg" else e' in
          wh <- uploadedDimensions W sourcePath ;;
          ret (desc, fst wh, snd wh, sourceFormat)
      end
  end.

(** The last path segment of an edit: the sanitised instruction, with the
    output dimensions appended when a width or a height was asked for. *)
Definition editSegment (editInstruction : jsstring)
    (width height : option number) (outputWidth outputHeight : number)
    : jsstring :=
  sanitizedEdit editInstruction
    ++ (if truthyNum width || truthyNum height then
          [hyphen] ++ renderNumber outputWidth ++ [letter_x]
            ++ renderNumber outputHeight
        else []).

(** [resolvedSourceUrl]: the URL given, or else the one of the upload. *)
Definition resolveSourceUrl (P : Platform) (W : World) (a : EditImage.Args)
    : M jsstring :=
  match EditImage.sourceUrl a with
  | Some (c :: r) => ret (c :: r)
  | _ => uploadSource P W a
  end.

Definition edit_image (fuel : nat) (P : Platform) (W : World)
    (a : EditImage.Args) : M ToolResult :=
  resolvedSourceUrl <- resolveSourceUrl P W a ;;
  sourceUrlObj <- checkSourceUrl P resolvedSourceUrl ;;
  let sourcePathFromUrl := removeLeadingSlash (pathname sourceUrlObj) in
  let sourceQuery := search sourceUrlObj in
  src <- resolveSource W (EditImage.sourcePath a) sourcePathFromUrl ;;
  let '(baseDescription, sourceWidth, sourceHeight, sourceFormat) := src in
  let outputFormat :=
    match EditImage.format a with
    | Some f => formatToString f
    | None => sourceFormat
    end in
  let outputWidth := orDimension (EditImage.width a) sourceWidth in
  let outputHeight := orDimension (EditImage.height a) sourceHeight in
  let editPath :=
    sourcePathFromUrl ++ [slash]
      ++ editSegment (EditImage.editInstruction a) (EditImage.width a)
           (EditImage.height a) outputWidth outputHeight
      ++ [dot] ++ outputFormat in
  let url := IMG_BASE ++ [slash] ++ editPath ++ sourceQuery in
  imageBuffer <- pollImage fuel P W (pollUrlOf W editPath ++ sourceQuery)
                   (timeoutMessage (lit "Image edit") url) ;;
  saveImage W (EditImage.outputPath a) imageBuffer ;;;
  let html := imgTag url (hyphensToSpaces (EditImage.editInstruction a))
                outputWidth outputHeight in
  ret (success P (JObj [
    (lit "url", JStr url);
    (lit "html", JStr html);
    (lit "saved", JBool (truthyStr (EditImage.outputPath a)));
    (lit "outputPath", strOrNull (EditImage.outputPath a));
    (lit "size", byteLength imageBuffer);
    (lit "editInstruction", JStr (EditImage.editInstruction a));
    (lit "dimensions",
     JStr (renderNumber outputWidth ++ [letter_x]
             ++ renderNumber outputHeight))])).

(** *** The read-only tools *)

Definition listing (P : Platform) (W : World) (path errorPrefix : jsstring)
    : M ToolResult :=
  tryCatch
    (data <- apiFetch W path ;; ret (success P data))
    (fun err => ret (failure errorPrefix err)).

Definition get_projects (P : Platform) (W : World) : M ToolResult :=
  listing P W (lit "account/projects") (lit "Error fetching projects: ").

Definition get_project_details (P : Platform) (W : World)
    (projectId : jsstring) : M ToolResult :=
  listing P W (lit "account/projects/" ++ projectId)
    (lit "Error fetching project: ").

Definition get_usage (P : Platform) (W : World) : M ToolResult :=
  listing P W (lit "account/plan-usage") (lit "Error fetching usage: ").

Definition get_current_plan (P : Platform) (W : World) : M ToolResult :=
  listing P W (lit "account/current-plan") (lit "Error fetching plan: ").

Definition list_images (P : Platform) (W : World)
    (projectId : option jsstring) (limit : number) : M ToolResult :=
  listing P W
    (lit "content/images?limit=" ++ renderNumber limit
       ++ match projectId with
          | Some (c :: r) => lit "&projectId=" ++ (c :: r)
          | _ => []
          end)
    (lit "Error fetching images: ").

End Tools.

Import Tools.

(** ** Start-up, project creation and the table of dimensions *)

Module Startup.

Definition equalsSign : codeUnit := 61%N.

(** [process.argv.find((a) => a.startsWith("--api-key="))] *)
Definition findApiKeyArg (argv : list jsstring) : option jsstring :=
  find (fun a => startsWith a (lit "--api-key=")) argv.

(** [getApiKey()]: the environment variable when it is set and not empty,
    else the text between the first and the second equals sign of the first
    [--api-key=] argument.  [None] is [process.exit(1)]. *)
Definition getApiKey (env : option jsstring) (argv : list jsstring)
    : option jsstring :=
  let key :=
    match env with
    | Some (c :: r) => Some (c :: r)
    | _ =>
        match findApiKeyArg argv with
        | Some a => nth_error (split equalsSign a) 1
        | None => None
        end
    end in
  match key with
  | Some (c :: r) => Some (c :: r)
  | _ => None
  end.

End Startup.

Import Startup.

Module Projects.

Record Args := mkArgs {
  project : jsstring;
  displayName : jsstring;
  description : option jsstring;
  isDefault : bool
}.

(** The request body of create_project. *)
Definition requestBody (a : Args) : JSON :=
  JObj ([(lit "project", JStr (project a));
         (lit "displayName", JStr (displayName a))]
        ++ match description a with
           | Some (c :: r) => [(lit "description", JStr (c :: r))]
           | _ => []
           end
        ++ (if isDefault a then [(lit "isDefault", JBool true)] else [])).

(** [data.message || fallback], as the message of a [new Error]. *)
Definition messageOr (P : Platform) (data : JSON) (fallback : jsstring)
    : jsstring :=
  match getProp data (lit "message") with
  | Some m => if truthy m then render P (Some m) else fallback
  | None => fallback
  end.

Definition createdMessage (project : jsstring) : jsstring :=
  lit "Project '" ++ project
    ++ lit "' created successfully. Use this namespace with --project "
    ++ project ++ lit " or in image URLs.".

(** The [try] block of create_project; [post url body] is what the POST
    request is answered with. *)
Definition createProjectBody (P : Platform) (W : World)
    (post : jsstring -> JSON -> FetchOutcome) (a : Args) : M ToolResult :=
  let url := API_BASE W ++ lit "/account/projects" in
  res <- (emit (EvApi url) ;;;
          match post url (requestBody a) with
          | FetchRejects m => throw (Rejected m)
          | FetchResolves r => ret r
          end) ;;
  data <- json res ;;
  match data with
  | JNull => throw (Rejected (typeErrorMessage P))
  | _ =>
      if negb (truthyOpt (getProp data (lit "success"))) then
        throw (Error (messageOr P data (lit "Failed to create project")))
      else if negb (res_ok res) then
        throw (Error (messageOr P data
                        (lit "HTTP " ++ numberToString (res_status res))))
      else
        ret (success P (JObj (
          [(lit "success", JBool true)]
          ++ match getProp data (lit "project") with
             | Some v => [(lit "project", v)]
             | None => []
             end
          ++ [(lit "message", JStr (createdMessage (project a)))])))
  end.

Definition create_project (P : Platform) (W : World)
    (post : jsstring -> JSON -> FetchOutcome) (a : Args) : M ToolResult :=
  tryCatch (createProjectBody P W post a)
    (fun err => ret (failure (lit "Error creating project: ") err)).

End Projects.

Module Dimensions.

Inductive UseCase :=
| hero | product | profile | card | thumbnail | social | logo | youtube
| banner.

Record Recommendation := mkRecommendation {
  rec_width : N;
  rec_height : N;
  rec_notes : jsstring
}.

(** The table [dimensions] of get_image_dimensions. *)
Definition dimensions (useCase : UseCase) : list Recommendation :=
  match useCase with
  | hero =>
      [mkRecommendation 1920 1080 (lit "Full-width hero, 16:9");
       mkRecommendation 1200 600 (lit "Standard hero, 2:1")]
  | product =>
      [mkRecommendation 800 800 (lit "Square product shot");
       mkRecommendation 600 400 (lit "Landscape product card")]
  | profile =>
      [mkRecommendation 400 400 (lit "Standard avatar");
       mkRecommendation 300 300 (lit "Small avatar")]
  | card =>
      [mkRecommendation 600 400 (lit "Feature card");
       mkRecommendation 800 600 (lit "Large card")]
  | thumbnail =>
      [mkRecommendation 200 200 (lit "Grid thumbnail");
       mkRecommendation 150 150 (lit "Small thumbnail")]
  | social =>
      [mkRecommendation 1200 630 (lit "Open Graph / Facebook");
       mkRecommendation 1200 675 (lit "Twitter card")]
  | logo =>
      [mkRecommendation 200 200 (lit "Square logo, use .png");
       mkRecommendation 100 100 (lit "Small icon, use .png")]
  | youtube =>
      [mkRecommendation 1280 720 (lit "YouTube thumbnail, 16:9")]
  | banner =>
      [mkRecommendation 1920 400 (lit "Wide banner");
       mkRecommendation 1200 300 (lit "Standard banner")]
  end.

Definition useCaseName (useCase : UseCase) : jsstring :=
  match useCase with
  | hero => lit "hero"
  | product => lit "product"
  | profile => lit "profile"
  | card => lit "card"
  | thumbnail => lit "thumbnail"
  | social => lit "social"
  | logo => lit "logo"
  | youtube => lit "youtube"
  | banner => lit "banner"
  end.

Definition format_hint (useCase : UseCase) : jsstring :=
  match useCase with
  | logo => lit "Use .png for transparency support"
  | _ => lit "Use .jpg for photos, .png for graphics/transparency"
  end.

Definition recommendationJson (r : Recommendation) : JSON :=
  JObj [(lit "width", JNum (Z.of_N (rec_width r)));
        (lit "height", JNum (Z.of_N (rec_height r)));
        (lit "notes", JStr (rec_notes r))].

Definition get_image_dimensions (P : Platform) (useCase : UseCase) : ToolResult :=
  success P (JObj [
    (lit "useCase", JStr (useCaseName useCase));
    (lit "recommended", JArr (map recommendationJson (dimensions useCase)));
    (lit "format_hint", JStr (format_hint useCase))]).

End Dimensions.

(** ** Properties of computations *)

Module Props.

(** [m] always completes, with at most [polls] status requests and [sleeps]
    waits added to the trace. *)
Definition completesWithin (polls sleeps : nat) {A} (m : M A) : Prop :=
  forall log, exists c log',
    m log = Some (c, log')
    /\ pollCount log' <= pollCount log + polls
    /\ sleepCount log' <= sleepCount log + sleeps.

(** The trace of [k] iterations that went on to the next attempt: a status
    request and a wait of three seconds each. *)
Definition waitTrace (pollUrl : jsstring) (k : nat) : list Event :=
  concat (repeat [EvPoll pollUrl; EvSleep 3000] k).

(** A response the loop takes as "not yet": anything but a 2xx response
    that carries a media payload. *)
Definition noMedia (o : FetchOutcome) : bool :=
  match o with
  | FetchRejects _ => true
  | FetchResolves r => negb (res_ok r && carriesMedia r)
  end.

Definition atAttempt (k : nat) (st : LoopState) : LoopState :=
  {| attempt := k; imageBuffer := imageBuffer st; status := status st |}.

(** [m] never completes with an error payload: it throws, or returns a
    result whose [isError] is not set. *)
Definition throwsOnFailure (m : M ToolResult) : Prop :=
  forall log c log',
    m log = Some (c, log') ->
    match c with
    | Normal r => isError r = false
    | Throw _ => True
    end.

(** [m] puts a boundary around [apiFetch W path]: what [apiFetch] returns
    is passed on as a result, what it throws is caught and returned as an
    error payload that starts with [errorPrefix]. *)
Definition catchesAtBoundary (P : Platform) (W : World)
    (path errorPrefix : jsstring) (m : M ToolResult) : Prop :=
  forall log, exists log',
    (exists data,
        apiFetch W path log = Some (Normal data, log')
        /\ m log = Some (Normal (success P data), log'))
    \/ (exists e,
          apiFetch W path log = Some (Throw e, log')
          /\ m log = Some (Normal (failure errorPrefix e), log')).

(** The host name passes the check of edit_image. *)
Definition hostAccepted (o : URL) : bool :=
  endsWith (hostname o) (lit "img.inliner.ai").

(** [m] never throws and never runs out of fuel. *)
Definition neverThrows (m : M ToolResult) : Prop :=
  forall log, exists r log', m log = Some (Normal r, log').

(** An event the polling loop may add to the trace: a status request to
    [pollUrl], a secondary fetch, or the wait of three seconds. *)
Definition loopEvent (pollUrl : jsstring) (e : Event) : bool :=
  match e with
  | EvPoll url => streq url pollUrl
  | EvImage _ => true
  | EvSleep ms => (ms =? 3000)%N
  | _ => false
  end.

(** A truthy [mediaAsset.data] that attempt [k] cannot turn into bytes: a
    value that is no string, a [data:] string without a comma, or a string
    whose fetch or whose body is rejected. *)
Definition undecodable (W : World) (k : nat) (d : JSON) : bool :=
  match d with
  | JStr s =>
      if startsWith s (lit "data:") then avoids comma s
      else match fetch_image W s k with
           | ImageRejects _ => true
           | ImageResolves r =>
               match img_arrayBuffer r with
               | inl _ => true
               | inr _ => false
               end
           end
  | _ => true
  end.

(** Attempt [k] does not yield an image: the request is rejected, the
    answer is not 2xx, its body is no JSON or is [null], it has no truthy
    [mediaAsset.data], or that value cannot be turned into bytes. *)
Definition notYet (W : World) (pollUrl : jsstring) (k : nat) : bool :=
  match fetch_poll W pollUrl k with
  | FetchRejects _ => true
  | FetchResolves r =>
      if res_ok r then
        match res_json r with
        | inl _ => true
        | inr JNull => true
        | inr v =>
            if truthyOpt (mediaAssetData v) then
              match mediaAssetData v with
              | Some d => undecodable W k d
              | None => true
              end
            else true
        end
      else true
  end.

(** The path of an edit of the image of [sp], an image whose width and
    height are integers: the path of the source, the edit segment and the
    format, where a dimension or format that the call leaves out is the one
    of the source. *)
Definition editedPath (sp : ImageSpec) (a : EditImage.Args) : jsstring :=
  buildImagePath sp ++ [slash]
    ++ editSegment (EditImage.editInstruction a) (EditImage.width a)
         (EditImage.height a)
         (orDimension (EditImage.width a) (whole (spec_width sp)))
         (orDimension (EditImage.height a) (whole (spec_height sp)))
    ++ [dot] ++ formatToString (orDefault (EditImage.format a) (spec_format sp)).

(** The character class [[a-z0-9.-]]: what a slug consists of, and the
    point of a number that is no integer. *)
Definition isNameChar (c : codeUnit) : bool := isSlugChar c || (c =? dot)%N.

(** The URL of that edit and the URL that is polled for it; both end with
    the query string of the source URL [o]. *)
Definition editedUrl (sp : ImageSpec) (a : EditImage.Args) (o : URL) : jsstring :=
  IMG_BASE ++ [slash] ++ editedPath sp a ++ search o.

Definition editedPollUrl (W : World) (sp : ImageSpec) (a : EditImage.Args)
    (o : URL) : jsstring :=
  pollUrlOf W (editedPath sp a) ++ search o.

(** What the boundary of a read-only tool makes of the answer to its
    request. *)
Definition boundaryResult (P : Platform) (errorPrefix : jsstring)
    (o : FetchOutcome) : ToolResult :=
  match o with
  | FetchRejects m => failure errorPrefix (Rejected m)
  | FetchResolves res =>
      if res_ok res then
        match res_json res with
        | inl m => failure errorPrefix (Rejected m)
        | inr data => success P data
        end
      else
        match res_text res with
        | inl m => failure errorPrefix (Rejected m)
        | inr body =>
            failure errorPrefix
              (Error (lit "API error " ++ numberToString (res_status res)
                        ++ lit ": " ++ body))
        end
  end.

(** Number of double quotes in a text. *)
Definition quoteCount (s : jsstring) : nat := count_occ N.eq_dec s quote.

(** The extension of a local file as [uploadSource] reads it. *)
Definition uploadExtension (P : Platform) (sourcePath : jsstring) : jsstring :=
  removeFirstDot (toLowerCase (path_extname P sourcePath)).

(** The form that edit_image uploads for the local file [sourcePath] whose
    content is [file]. *)
Definition uploadFormOf (P : Platform) (a : EditImage.Args)
    (sourcePath project : jsstring) (file : bytes) : UploadForm :=
  {| form_file := file;
     form_filename := path_basename P sourcePath;
     form_contentType :=
       lit "image/"
         ++ (if streq (uploadExtension P sourcePath) (lit "jpeg") then lit "jpg"
             else uploadExtension P sourcePath);
     form_project := project;
     form_prompt :=
       sanitizedPrompt
         (orString (EditImage.uploadPrompt a)
            (path_basename_ext P sourcePath (path_extname P sourcePath))) |}.

(** Nothing stands in the way of the upload of edit_image: a local file is
    named and can be read, a project is named, the extension is on the
    allow-list, the slug of the prompt is not empty, and the upload is
    answered 2xx with a JSON body whose [success] and [content.prompt] are
    truthy.  [u] is the source URL that results. *)
Definition uploadGoesThrough (P : Platform) (W : World) (a : EditImage.Args)
    (u : jsstring) : Prop :=
  exists sourcePath project file res data,
    EditImage.sourcePath a = Some sourcePath /\ sourcePath <> []
    /\ EditImage.project a = Some project /\ project <> []
    /\ fs_readFile W sourcePath = inr file
    /\ existsb (streq (uploadExtension P sourcePath)) allowedExtensions = true
    /\ form_prompt (uploadFormOf P a sourcePath project file) <> []
    /\ fetch_upload W (uploadFormOf P a sourcePath project file)
       = FetchResolves res
    /\ res_ok res = true
    /\ res_json res = inr data
    /\ truthyOpt (getPropOpt (Some data) (lit "success")) = true
    /\ truthyOpt (getPropOpt (getPropOpt (Some data) (lit "content"))
                    (lit "prompt")) = true
    /\ u = IMG_BASE ++ [slash]
             ++ render P (getPropOpt (getPropOpt (Some data) (lit "content"))
                            (lit "prompt")).

(** The path that edit_image polls and reports, given the path of the
    source URL and what the resolver made of it. *)
Definition editPathOf (a : EditImage.Args) (sourcePathFromUrl : jsstring)
    (src : jsstring * N * N * jsstring) : jsstring :=
  let '(_, sourceWidth, sourceHeight, sourceFormat) := src in
  sourcePathFromUrl ++ [slash]
    ++ editSegment (EditImage.editInstruction a) (EditImage.width a)
         (EditImage.height a)
         (orDimension (EditImage.width a) sourceWidth)
         (orDimension (EditImage.height a) sourceHeight)
    ++ [dot]
    ++ match EditImage.format a with
       | Some f => formatToString f
       | None => sourceFormat
       end.

(** Nothing between [step] and the caller of [m] catches: whatever [step]
    throws when it is started with the trace [log1], [m] started with the
    trace [log] throws, the same exception with the same trace. *)
Definition passesOn {A} (m : M ToolResult) (log : list Event) (step : M A)
    (log1 : list Event) : Prop :=
  forall e log',
    step log1 = Some (Throw e, log') -> m log = Some (Throw e, log').

End Props.

Import Props.

(** ** Inputs of the scenarios *)

Module Scenarios.

Definition letter_a : codeUnit := 97%N.

(** Ninety-nine letters [a], a hyphen and a letter [b]: 101 code units that
    are a well-formed slug already. *)
Definition longDescription : jsstring := repeat letter_a 99 ++ lit "-b".

(** *** A platform for the scenarios

    Small stand-ins for the built-ins of Node, right on the inputs the
    scenarios give them. *)

Definition base64Value (c : codeUnit) : option N :=
  if isUpper c then Some (c - 65)%N
  else if isLower c then Some (c - 71)%N
  else if isDigit c then Some (c + 4)%N
  else if (c =? 43)%N then Some 62%N
  else if (c =? 47)%N then Some 63%N
  else None.

(** The six-bit values up to the padding. *)
Fixpoint sextets (s : jsstring) : list N :=
  match s with
  | [] => []
  | c :: rest =>
      match base64Value c with
      | Some v => v :: sextets rest
      | None => []
      end
  end.

Definition byteOfN (n : N) : Byte.byte :=
  match Byte.of_N n with
  | Some b => b
  | None => Byte.x00
  end.

Fixpoint bytesOfSextets (l : list N) : bytes :=
  match l with
  | a :: b :: c :: d :: rest =>
      byteOfN (a * 4 + b / 16) :: byteOfN ((b mod 16) * 16 + c / 4)
        :: byteOfN ((c mod 4) * 64 + d) :: bytesOfSextets rest
  | [a; b; c] =>
      [byteOfN (a * 4 + b / 16); byteOfN ((b mod 16) * 16 + c / 4)]
  | [a; b] => [byteOfN (a * 4 + b / 16)]
  | _ => []
  end%N.

Definition decodeBase64 (s : jsstring) : bytes := bytesOfSextets (sextets s).

(** Compact JSON text, without escapes and indentation. *)
Fixpoint stringify (v : JSON) : jsstring :=
  match v with
  | JNull => lit "null"
  | JBool true => lit "true"
  | JBool false => lit "false"
  | JNum n =>
      (if (n <? 0)%Z then [hyphen] else []) ++ numberToString (Z.abs_N n)
  | JStr s => quoted s
  | JArr items =>
      lit "["
        ++ (fix go (l : list JSON) : jsstring :=
              match l with
              | [] => []
              | [x] => stringify x
              | x :: r => stringify x ++ [comma] ++ go r
              end) items
        ++ lit "]"
  | JObj fields =>
      lit "{"
        ++ (fix go (l : list (jsstring * JSON)) : jsstring :=
              match l with
              | [] => []
              | [(k, x)] => quoted k ++ lit ":" ++ stringify x
              | (k, x) :: r => quoted k ++ lit ":" ++ stringify x ++ [comma] ++ go r
              end) fields
        ++ lit "}"
  end.

(** The text up to the first code unit that satisfies [stop], and the
    rest. *)
Fixpoint breakAt (stop : codeUnit -> bool) (s : jsstring) : jsstring * jsstring :=
  match s with
  | [] => ([], [])
  | c :: rest =>
      if stop c then ([], s)
      else let (a, b) := breakAt stop rest in (c :: a, b)
  end.

(** [new URL(s)] for an [https] URL without user, port or fragment. *)
Definition parseHttps (s : jsstring) : option URL :=
  if startsWith s (lit "https://") then
    let rest := skipn 8 s in
    let (host, afterHost) :=
      breakAt (fun c => (c =? slash)%N || (c =? 63)%N) rest in
    let (path, query) := breakAt (fun c => (c =? 63)%N) afterHost in
    match host with
    | [] => None
    | _ :: _ =>
        Some {| hostname := toLowerCase host;
                pathname := match path with [] => [slash] | _ :: _ => path end;
                search := match query with [_] => [] | _ => query end |}
    end
  else None.

Definition baseName (p : jsstring) : jsstring := last (split slash p) [].

Definition extName (p : jsstring) : jsstring :=
  match rev (split dot (baseName p)) with
  | ext :: _ :: _ => dot :: ext
  | _ => []
  end.

Definition baseNameWithout (p ext : jsstring) : jsstring :=
  let b := baseName p in
  if endsWith b ext then firstn (length b - length ext) b else b.

Definition dirName (p : jsstring) : jsstring :=
  match removelast (split slash p) with
  | [] => lit "."
  | d :: ds => fold_left (fun acc seg => acc ++ [slash] ++ seg) ds d
  end.

Definition samplePlatform : Platform :=
  {| Buffer_from_base64 := decodeBase64;
     JSON_stringify := fun v _ => stringify v;
     String_of := stringify;
     greaterThanZero := fun _ => false;
     URL_parse := parseHttps;
     path_extname := extName;
     path_basename := baseName;
     path_basename_ext := baseNameWithout;
     path_dirname := dirName;
     typeErrorMessage := lit "TypeError" |}.

(** *** Worlds *)

(** A world that is determined by the answers of the status endpoint and of
    the secondary fetch; nothing else is reachable, and saving succeeds. *)
Definition worldOf (poll : nat -> FetchOutcome)
    (image : jsstring -> ImageOutcome) : World :=
  {| API_BASE := lit "https://api.inliner.ai";
     fetch_api := fun _ => FetchRejects (lit "fetch failed");
     fetch_poll := fun _ k => poll k;
     fetch_image := fun url _ => image url;
     fetch_upload := fun _ => FetchRejects (lit "fetch failed");
     fs_readFile := fun _ => inl (lit "ENOENT");
     fs_save := fun _ _ => None;
     sharp_metadata := fun _ => None |}.

Definition noImage : jsstring -> ImageOutcome :=
  fun _ => ImageRejects (lit "fetch failed").

(** The answer for a job that has failed: HTTP 500 and a body that says
    [FAILED]. *)
Definition failedBody : JSON := JObj [(lit "status", JStr (lit "FAILED"))].

Definition failedResponse : Response :=
  {| res_status := 500;
     res_text := inr (stringify failedBody);
     res_json := inr failedBody |}.

Definition failedWorld : World :=
  worldOf (fun _ => FetchResolves failedResponse) noImage.

(** 202 and an empty object while the job runs. *)
Definition acceptedResponse : Response :=
  {| res_status := 202; res_text := inr (lit "{}"); res_json := inr (JObj []) |}.

Definition mediaBody (data : jsstring) : JSON :=
  JObj [(lit "mediaAsset", JObj [(lit "data", JStr data)])].

Definition readyResponse (data : jsstring) : Response :=
  {| res_status := 200;
     res_text := inr (stringify (mediaBody data));
     res_json := inr (mediaBody data) |}.

(** Twenty-nine times 202, then 200 with the two bytes of [hi] as a base64
    data URL. *)
Definition readyAt30 : World :=
  worldOf (fun k => if k <? 29 then FetchResolves acceptedResponse
                    else FetchResolves (readyResponse (lit "data:image/png;base64,aGk=")))
          noImage.

(** The job is done at once and its payload is a plain URL, whose fetch is
    answered 404 with a body of nine bytes. *)
Definition notFoundBody : bytes :=
  map (fun c => byteOfN c) (lit "Not Found").

Definition cdnUrl : jsstring := lit "https://cdn.example.com/missing.png".

Definition readyWithDeadLink : World :=
  worldOf (fun _ => FetchResolves (readyResponse cdnUrl))
          (fun _ => ImageResolves {| img_status := 404;
                                     img_arrayBuffer := inr notFoundBody |}).

Definition duckArgs : GenerateImage.Args :=
  {| GenerateImage.project := lit "proj";
     GenerateImage.description := lit "Happy Duck!!";
     GenerateImage.width := 800;
     GenerateImage.height := 600;
     GenerateImage.format := png;
     GenerateImage.outputPath := None |}.

(** The same call with a file to write the image to. *)
Definition duckSavedArgs : GenerateImage.Args :=
  {| GenerateImage.project := lit "proj";
     GenerateImage.description := lit "Happy Duck!!";
     GenerateImage.width := 800;
     GenerateImage.height := 600;
     GenerateImage.format := png;
     GenerateImage.outputPath := Some (lit "out/duck.png") |}.

Definition duckPollUrl : jsstring :=
  lit "https://api.inliner.ai/content/request-json/proj/happy-duck_800x600.png".

Definition duckTimeout : jsstring :=
  lit "Image generation timeout after 180 seconds. URL: https://img.inliner.ai/proj/happy-duck_800x600.png".

(** An edit whose source is on another host of the same domain. *)
Definition otherHostEdit : EditImage.Args :=
  {| EditImage.sourceUrl := Some (lit "https://cdn-img.inliner.ai/proj/cat_800x800.png");
     EditImage.sourcePath := None;
     EditImage.project := None;
     EditImage.uploadPrompt := None;
     EditImage.editInstruction := lit "Make it Blue";
     EditImage.width := Some (integer 900);
     EditImage.height := None;
     EditImage.format := None;
     EditImage.outputPath := None |}.

(** An edit whose source is on a host of a third party. *)
Definition thirdPartyEdit : EditImage.Args :=
  {| EditImage.sourceUrl := Some (lit "https://img.inliner.ai.example.com/proj/cat_800x800.png");
     EditImage.sourcePath := None;
     EditImage.project := None;
     EditImage.uploadPrompt := None;
     EditImage.editInstruction := lit "Make it Blue";
     EditImage.width := Some (integer 900);
     EditImage.height := None;
     EditImage.format := None;
     EditImage.outputPath := None |}.

(** The duck of the scenarios, and an edit of its image that asks for a new
    width only. *)
Definition duckSpec : ImageSpec :=
  mkImageSpec (lit "proj") (lit "Happy Duck!!") 800 600 png None.

(** The same duck with a width of 100.5, which the schema admits. *)
Definition halfPixelSpec : ImageSpec :=
  mkImageSpec (lit "proj") (lit "Happy Duck!!")
    {| whole := 100; fraction := Decimal.D5 Decimal.Nil |} 600 png None.

Definition duckSource : URL :=
  {| hostname := lit "img.inliner.ai";
     pathname := lit "/proj/happy-duck_800x600.png";
     search := lit "?v=2" |}.

Definition duckEdit : EditImage.Args :=
  {| EditImage.sourceUrl := Some (lit "https://img.inliner.ai/proj/happy-duck_800x600.png?v=2");
     EditImage.sourcePath := None;
     EditImage.project := None;
     EditImage.uploadPrompt := None;
     EditImage.editInstruction := lit "Make it Blue";
     EditImage.width := Some (integer 900);
     EditImage.height := None;
     EditImage.format := None;
     EditImage.outputPath := None |}.

(** A local photograph to upload and edit, and a world that holds the file
    but whose upload endpoint cannot be reached. *)
Definition photoBytes : bytes := [Byte.xff; Byte.xd8; Byte.xff].

Definition uploadWorld : World :=
  {| API_BASE := lit "https://api.inliner.ai";
     fetch_api := fun _ => FetchRejects (lit "fetch failed");
     fetch_poll := fun _ _ => FetchRejects (lit "fetch failed");
     fetch_image := fun _ _ => ImageRejects (lit "fetch failed");
     fetch_upload := fun _ => FetchRejects (lit "fetch failed");
     fs_readFile := fun _ => inr photoBytes;
     fs_save := fun _ _ => None;
     sharp_metadata := fun _ => Some (Some 640%N, None) |}.

Definition uploadEdit : EditImage.Args :=
  {| EditImage.sourceUrl := None;
     EditImage.sourcePath := Some (lit "/tmp/Photo One.JPEG");
     EditImage.project := Some (lit "proj");
     EditImage.uploadPrompt := None;
     EditImage.editInstruction := lit "Make it Blue";
     EditImage.width := None;
     EditImage.height := None;
     EditImage.format := None;
     EditImage.outputPath := None |}.

Definition uploadForm : UploadForm :=
  {| form_file := photoBytes;
     form_filename := lit "Photo One.JPEG";
     form_contentType := lit "image/jpg";
     form_project := lit "proj";
     form_prompt := lit "photo-one" |}.

End Scenarios.

Import Scenarios.

(** * Theorems *)

(** ** The sanitisation chains *)

Section CanonFacts.

Local Open Scope N_scope.
Local Opaque N.eqb N.leb.

Lemma isSlugChar_hyphen : isSlugChar hyphen = true.
Proof. vm_compute. reflexivity. Qed.

Lemma lowerUnit_slug c : isSlugChar c = true -> lowerUnit c = [c].
Proof.
  unfold isSlugChar, lowerUnit, isLower, isDigit, isUpper, hyphen.
  intros H.
  destruct (65 <=? c) eqn:E1, (c <=? 90) eqn:E2; simpl;
    destruct (c =? 8490) eqn:E3; destruct (c =? 304) eqn:E4; try reflexivity;
    exfalso;
    rewrite ?N.leb_le, ?N.leb_gt, ?N.eqb_eq, ?N.eqb_neq in *;
    repeat (apply orb_prop in H; destruct H as [H | H]);
    rewrite ?andb_true_iff, ?N.leb_le, ?N.eqb_eq in H; lia.
Qed.

Lemma toLowerCase_closed s : charsetClosed s = true -> toLowerCase s = s.
Proof.
  induction s as [| c s IH]; simpl; [reflexivity |].
  rewrite andb_true_iff. intros [Hc Hs].
  rewrite (lowerUnit_slug _ Hc), (IH Hs). reflexivity.
Qed.

Lemma replaceNonSlug_closed s : charsetClosed s = true -> replaceNonSlug s = s.
Proof.
  induction s as [| c s IH]; simpl; [reflexivity |].
  rewrite andb_true_iff. intros [Hc Hs].
  rewrite Hc, (IH Hs). reflexivity.
Qed.

Lemma charsetClosed_replaceNonSlug s : charsetClosed (replaceNonSlug s) = true.
Proof.
  induction s as [| c s IH]; simpl; [reflexivity |].
  rewrite IH, andb_true_r.
  destruct (isSlugChar c) eqn:E; [exact E | reflexivity].
Qed.

Lemma collapseHyphens_step c d s :
  collapseHyphens (c :: d :: s)
  = if (c =? hyphen) && (d =? hyphen) then collapseHyphens (d :: s)
    else c :: collapseHyphens (d :: s).
Proof. reflexivity. Qed.

Lemma collapseHyphens_cons c s : exists t, collapseHyphens (c :: s) = c :: t.
Proof.
  revert c. induction s as [| d s IH]; intros c.
  - exists []. reflexivity.
  - rewrite collapseHyphens_step.
    destruct ((c =? hyphen) && (d =? hyphen)) eqn:E.
    + apply andb_true_iff in E. destruct E as [Ec Ed].
      apply N.eqb_eq in Ec, Ed. subst. apply IH.
    + eexists. reflexivity.
Qed.

Lemma charsetClosed_collapseHyphens s :
  charsetClosed s = true -> charsetClosed (collapseHyphens s) = true.
Proof.
  induction s as [| c s IH]; [reflexivity |].
  intros H. cbn [charsetClosed forallb] in H.
  apply andb_true_iff in H. destruct H as [Hc Hs].
  destruct s as [| d s']; [simpl; now rewrite Hc |].
  rewrite collapseHyphens_step.
  destruct ((c =? hyphen) && (d =? hyphen)); [now apply IH |].
  change (isSlugChar c && charsetClosed (collapseHyphens (d :: s')) = true).
  now rewrite Hc, IH.
Qed.

Lemma hasDoubleHyphen_collapseHyphens s :
  hasDoubleHyphen (collapseHyphens s) = false.
Proof.
  induction s as [| c s IH]; [reflexivity |].
  destruct s as [| d s']; [reflexivity |].
  rewrite collapseHyphens_step.
  destruct ((c =? hyphen) && (d =? hyphen)) eqn:E; [exact IH |].
  destruct (collapseHyphens_cons d s') as [t Ht].
  rewrite Ht in *. cbn [hasDoubleHyphen]. rewrite E.
  cbn [hasDoubleHyphen] in IH. exact IH.
Qed.

Lemma hasDoubleHyphen_step c d s :
  hasDoubleHyphen (c :: d :: s)
  = (c =? hyphen) && (d =? hyphen) || hasDoubleHyphen (d :: s).
Proof. reflexivity. Qed.

Lemma collapseHyphens_single s :
  hasDoubleHyphen s = false -> collapseHyphens s = s.
Proof.
  induction s as [| c s IH]; [reflexivity |].
  destruct s as [| d s']; [reflexivity |].
  rewrite hasDoubleHyphen_step, collapseHyphens_step. intros H.
  apply orb_false_iff in H. destruct H as [H1 H2].
  rewrite H1, (IH H2). reflexivity.
Qed.

Lemma hasDoubleHyphen_tail c s :
  hasDoubleHyphen (c :: s) = false -> hasDoubleHyphen s = false.
Proof.
  destruct s as [| d s']; [reflexivity |].
  cbn [hasDoubleHyphen]. intros H. apply orb_false_iff in H. apply H.
Qed.

Lemma charsetClosed_stripLeading s :
  charsetClosed s = true -> charsetClosed (stripLeading s) = true.
Proof.
  destruct s as [| c s]; [reflexivity |]. simpl.
  destruct (c =? hyphen); [| now simpl].
  intros H. apply andb_true_iff in H. apply H.
Qed.

Lemma hasDoubleHyphen_stripLeading s :
  hasDoubleHyphen s = false -> hasDoubleHyphen (stripLeading s) = false.
Proof.
  destruct s as [| c s]; [reflexivity |]. intros H. unfold stripLeading.
  destruct (c =? hyphen); [| exact H].
  exact (hasDoubleHyphen_tail _ _ H).
Qed.

Lemma startsWithHyphen_stripLeading s :
  hasDoubleHyphen s = false -> startsWithHyphen (stripLeading s) = false.
Proof.
  destruct s as [| c s]; [reflexivity |]. intros H. unfold stripLeading.
  destruct (c =? hyphen) eqn:E; [| simpl; exact E].
  destruct s as [| d s']; [reflexivity |].
  cbn [hasDoubleHyphen] in H. apply orb_false_iff in H. destruct H as [H _].
  rewrite E in H. simpl in *. exact H.
Qed.

Lemma charsetClosed_stripTrailing s :
  charsetClosed s = true -> charsetClosed (stripTrailing s) = true.
Proof.
  induction s as [| c s IH]; [reflexivity |].
  intros H. cbn [charsetClosed forallb] in H.
  apply andb_true_iff in H. destruct H as [Hc Hs].
  cbn [stripTrailing]. destruct s as [| d s'].
  - destruct (c =? hyphen); simpl; [reflexivity | now rewrite Hc].
  - change (isSlugChar c && charsetClosed (stripTrailing (d :: s')) = true).
    now rewrite Hc, IH.
Qed.

Lemma stripTrailing_cons c d s :
  stripTrailing (c :: d :: s) = c :: stripTrailing (d :: s).
Proof. reflexivity. Qed.

Lemma hasDoubleHyphen_stripTrailing s :
  hasDoubleHyphen s = false -> hasDoubleHyphen (stripTrailing s) = false.
Proof.
  induction s as [| c s IH]; [reflexivity |].
  destruct s as [| d s'].
  - intros _. simpl. now destruct (c =? hyphen).
  - intros H. rewrite stripTrailing_cons.
    pose proof (hasDoubleHyphen_tail _ _ H) as Ht. specialize (IH Ht).
    cbn [hasDoubleHyphen] in H. apply orb_false_iff in H. destruct H as [H1 _].
    destruct s' as [| e s''].
    + change (stripTrailing [d]) with (if d =? hyphen then [] else [d]).
      destruct (d =? hyphen) eqn:E; [reflexivity |].
      rewrite hasDoubleHyphen_step, E, andb_false_r. reflexivity.
    + rewrite stripTrailing_cons in *.
      rewrite hasDoubleHyphen_step, H1, IH. reflexivity.
Qed.

Lemma startsWithHyphen_stripTrailing s :
  startsWithHyphen s = false -> startsWithHyphen (stripTrailing s) = false.
Proof.
  destruct s as [| c s]; [reflexivity |].
  destruct s as [| d s']; simpl; intros H; now rewrite ?H.
Qed.

Lemma endsWithHyphen_stripTrailing s :
  hasDoubleHyphen s = false -> endsWithHyphen (stripTrailing s) = false.
Proof.
  induction s as [| c s IH]; [reflexivity |].
  destruct s as [| d s'].
  - intros _. simpl. destruct (c =? hyphen) eqn:E; simpl; [reflexivity | exact E].
  - intros H. rewrite stripTrailing_cons.
    pose proof (hasDoubleHyphen_tail _ _ H) as Ht. specialize (IH Ht).
    cbn [hasDoubleHyphen] in H. apply orb_false_iff in H. destruct H as [H1 _].
    destruct s' as [| e s''].
    + simpl. destruct (d =? hyphen) eqn:E; simpl; [| exact E].
      now rewrite andb_true_r in H1.
    + rewrite stripTrailing_cons in *. exact IH.
Qed.

Lemma stripTrailing_noop s : endsWithHyphen s = false -> stripTrailing s = s.
Proof.
  induction s as [| c s IH]; [reflexivity |].
  destruct s as [| d s'].
  - simpl. now intros ->.
  - intros H. rewrite stripTrailing_cons. f_equal. apply IH. exact H.
Qed.

Lemma stripLeading_noop s : startsWithHyphen s = false -> stripLeading s = s.
Proof.
  destruct s as [| c s]; [reflexivity |]. simpl. now intros ->.
Qed.

Lemma length_stripTrailing s :
  (length (stripTrailing s) <= length s)%nat.
Proof.
  induction s as [| c s IH]; [simpl; lia |].
  destruct s as [| d s'].
  - simpl. destruct (c =? hyphen); simpl; lia.
  - rewrite stripTrailing_cons. simpl in *. lia.
Qed.

Lemma length_stripLeading s :
  (length (stripLeading s) <= length s)%nat.
Proof.
  destruct s as [| c s]; simpl; [lia |]. destruct (c =? hyphen); simpl; lia.
Qed.

(** Prefixes *)

Lemma charsetClosed_firstn n s :
  charsetClosed s = true -> charsetClosed (firstn n s) = true.
Proof.
  revert s. induction n as [| n IH]; intros [| c s]; simpl; try reflexivity.
  rewrite !andb_true_iff. intros [Hc Hs]. split; [exact Hc | now apply IH].
Qed.

Lemma hasDoubleHyphen_firstn n s :
  hasDoubleHyphen s = false -> hasDoubleHyphen (firstn n s) = false.
Proof.
  revert s. induction n as [| n IH]; intros s H; [reflexivity |].
  destruct s as [| c s]; [reflexivity |].
  pose proof (hasDoubleHyphen_tail _ _ H) as Ht. specialize (IH _ Ht).
  rewrite firstn_cons.
  destruct s as [| d s']; [rewrite firstn_nil; reflexivity |].
  destruct n as [| n']; [reflexivity |].
  rewrite hasDoubleHyphen_step in H.
  apply orb_false_iff in H. destruct H as [H1 _].
  rewrite firstn_cons in *.
  rewrite hasDoubleHyphen_step, H1, IH. reflexivity.
Qed.

Lemma startsWithHyphen_firstn n s :
  startsWithHyphen s = false -> startsWithHyphen (firstn n s) = false.
Proof.
  destruct n, s; simpl; auto.
Qed.

(** The chain without truncation lands in the slug invariant, and leaves a
    string that satisfies the invariant as it is. *)

Lemma wellFormedSlug_iff s :
  wellFormedSlug s = true <->
  charsetClosed s = true /\ hasDoubleHyphen s = false
  /\ startsWithHyphen s = false /\ endsWithHyphen s = false.
Proof.
  unfold wellFormedSlug. rewrite !andb_true_iff, !negb_true_iff. tauto.
Qed.

Lemma sanitizedEdit_url_shape s :
  charsetClosed (sanitizedEdit_url s) = true
  /\ hasDoubleHyphen (sanitizedEdit_url s) = false.
Proof.
  unfold sanitizedEdit_url. split.
  - apply charsetClosed_collapseHyphens, charsetClosed_replaceNonSlug.
  - apply hasDoubleHyphen_collapseHyphens.
Qed.

Lemma sanitizedPrompt_wellFormed s : wellFormedSlug (sanitizedPrompt s) = true.
Proof.
  destruct (sanitizedEdit_url_shape s) as [Hc Hd].
  apply wellFormedSlug_iff. unfold sanitizedPrompt, stripEnds.
  fold (sanitizedEdit_url s).
  repeat split.
  - now apply charsetClosed_stripTrailing, charsetClosed_stripLeading.
  - now apply hasDoubleHyphen_stripTrailing, hasDoubleHyphen_stripLeading.
  - now apply startsWithHyphen_stripTrailing, startsWithHyphen_stripLeading.
  - now apply endsWithHyphen_stripTrailing, hasDoubleHyphen_stripLeading.
Qed.

Lemma sanitizedEdit_url_fixed s :
  charsetClosed s = true -> hasDoubleHyphen s = false -> sanitizedEdit_url s = s.
Proof.
  intros Hc Hd. unfold sanitizedEdit_url.
  rewrite (toLowerCase_closed _ Hc), (replaceNonSlug_closed _ Hc).
  now apply collapseHyphens_single.
Qed.

Lemma sanitizedPrompt_stripEnds s :
  charsetClosed s = true -> hasDoubleHyphen s = false ->
  sanitizedPrompt s = stripEnds s.
Proof.
  intros Hc Hd. unfold sanitizedPrompt.
  fold (sanitizedEdit_url s). now rewrite sanitizedEdit_url_fixed.
Qed.

Lemma sanitizedPrompt_fixed s : wellFormedSlug s = true -> sanitizedPrompt s = s.
Proof.
  intros H. apply wellFormedSlug_iff in H. destruct H as (Hc & Hd & Hs & He).
  rewrite (sanitizedPrompt_stripEnds _ Hc Hd). unfold stripEnds.
  rewrite (stripLeading_noop _ Hs). now apply stripTrailing_noop.
Qed.

Lemma sanitized_slice s : sanitized s = firstn 100 (sanitizedPrompt s).
Proof. reflexivity. Qed.

Lemma sanitized_shape s :
  charsetClosed (sanitized s) = true /\ hasDoubleHyphen (sanitized s) = false
  /\ startsWithHyphen (sanitized s) = false.
Proof.
  pose proof (sanitizedPrompt_wellFormed s) as H.
  apply wellFormedSlug_iff in H. destruct H as (Hc & Hd & Hs & _).
  rewrite sanitized_slice. repeat split.
  - now apply charsetClosed_firstn.
  - now apply hasDoubleHyphen_firstn.
  - now apply startsWithHyphen_firstn.
Qed.

Lemma sanitized_length s : (length (sanitized s) <= 100)%nat.
Proof. rewrite sanitized_slice. apply firstn_le_length. Qed.

Lemma sanitized_short s :
  (length (sanitizedPrompt s) <= 100)%nat -> sanitized s = sanitizedPrompt s.
Proof. intros H. rewrite sanitized_slice. now apply firstn_all2. Qed.

Lemma endsWithHyphen_length_stripTrailing s :
  endsWithHyphen s = true ->
  (length (stripTrailing s) < length s)%nat.
Proof.
  induction s as [| c s IH]; [discriminate |].
  destruct s as [| d s'].
  - simpl. intros ->. simpl. lia.
  - intros H. rewrite stripTrailing_cons. specialize (IH H). simpl in *. lia.
Qed.

Lemma sanitized_again s :
  sanitized (sanitized s) = stripTrailing (sanitized s).
Proof.
  destruct (sanitized_shape s) as (Hc & Hd & Hs).
  rewrite (sanitized_slice (sanitized s)).
  rewrite (sanitizedPrompt_stripEnds _ Hc Hd). unfold stripEnds.
  rewrite (stripLeading_noop _ Hs).
  apply firstn_all2.
  pose proof (length_stripTrailing (sanitized s)).
  pose proof (sanitized_length s). lia.
Qed.

Lemma sanitized_idempotent_iff s :
  sanitized (sanitized s) = sanitized s <-> endsWithHyphen (sanitized s) = false.
Proof.
  rewrite sanitized_again. split.
  - intros H. destruct (endsWithHyphen (sanitized s)) eqn:E; [| reflexivity].
    apply endsWithHyphen_length_stripTrailing in E. rewrite H in E. lia.
  - apply stripTrailing_noop.
Qed.

(** Appending the dimensions of an edit *)

Lemma charsetClosed_app a b :
  charsetClosed (a ++ b) = charsetClosed a && charsetClosed b.
Proof. apply forallb_app. Qed.

Lemma noHyphen_app a b : noHyphen (a ++ b) = noHyphen a && noHyphen b.
Proof. apply forallb_app. Qed.

Lemma hasDoubleHyphen_noHyphen s : noHyphen s = true -> hasDoubleHyphen s = false.
Proof.
  induction s as [| c s IH]; [reflexivity |].
  unfold noHyphen. cbn [forallb]. rewrite andb_true_iff, negb_true_iff.
  intros [Hc Hs]. destruct s as [| d s']; [reflexivity |].
  rewrite hasDoubleHyphen_step, Hc. now apply IH.
Qed.

Lemma endsWithHyphen_noHyphen s : noHyphen s = true -> endsWithHyphen s = false.
Proof.
  induction s as [| c s IH]; [reflexivity |].
  unfold noHyphen. cbn [forallb]. rewrite andb_true_iff, negb_true_iff.
  intros [Hc Hs]. destruct s as [| d s']; [exact Hc | now apply IH].
Qed.

Lemma hasDoubleHyphen_hyphen_cons c s :
  noHyphen s = true -> hasDoubleHyphen (c :: s) = false.
Proof.
  intros H. destruct s as [| d s']; [reflexivity |].
  rewrite hasDoubleHyphen_step, (hasDoubleHyphen_noHyphen _ H).
  unfold noHyphen in H. cbn [forallb] in H.
  apply andb_true_iff in H. destruct H as [H _].
  apply negb_true_iff in H. now rewrite H, andb_false_r.
Qed.

Lemma hasDoubleHyphen_app a b :
  hasDoubleHyphen a = false -> endsWithHyphen a = false ->
  hasDoubleHyphen b = false -> hasDoubleHyphen (a ++ b) = false.
Proof.
  intros Ha He Hb. induction a as [| c a IH]; [exact Hb |].
  destruct a as [| d a'].
  - simpl in He. destruct b as [| e b']; [reflexivity |].
    change ([c] ++ e :: b') with (c :: e :: b').
    now rewrite hasDoubleHyphen_step, He, Hb.
  - rewrite hasDoubleHyphen_step in Ha. apply orb_false_iff in Ha.
    destruct Ha as [H1 H2].
    change ((c :: d :: a') ++ b) with (c :: d :: (a' ++ b)).
    rewrite hasDoubleHyphen_step, H1. apply (IH H2 He).
Qed.

Lemma endsWithHyphen_app a b :
  b <> [] -> endsWithHyphen (a ++ b) = endsWithHyphen b.
Proof.
  intros Hb. induction a as [| c a IH]; [reflexivity |].
  change ((c :: a) ++ b) with (c :: (a ++ b)).
  destruct (a ++ b) as [| d t] eqn:E; [| exact IH].
  apply app_eq_nil in E. destruct E as [_ E]. contradiction.
Qed.

Lemma isDigit_slug c :
  isDigit c = true -> isSlugChar c = true /\ (c =? hyphen) = false.
Proof.
  unfold isSlugChar, isDigit, isLower, hyphen. intros H.
  apply andb_true_iff in H. destruct H as [H1 H2].
  rewrite H1, H2. split; [now rewrite orb_true_r |].
  apply N.leb_le in H1. apply N.eqb_neq. lia.
Qed.

Lemma digitsOfUint_digits u : forallb isDigit (digitsOfUint u) = true.
Proof. induction u; simpl; try rewrite IHu; vm_compute; reflexivity. Qed.

Lemma numberToString_digits n : forallb isDigit (numberToString n) = true.
Proof. apply digitsOfUint_digits. Qed.

Lemma numberToString_nonempty n : numberToString n <> [].
Proof.
  unfold numberToString. destruct n as [| p]; [discriminate |].
  simpl. pose proof (DecimalPos.Unsigned.to_uint_nonnil p) as H.
  destruct (Pos.to_uint p); [contradiction | discriminate ..].
Qed.

Lemma digits_closed s :
  forallb isDigit s = true -> charsetClosed s = true /\ noHyphen s = true.
Proof.
  induction s as [| c s IH]; [split; reflexivity |].
  cbn [forallb]. rewrite andb_true_iff. intros [Hc Hs].
  destruct (IH Hs) as [I1 I2]. destruct (isDigit_slug _ Hc) as [S1 S2].
  unfold charsetClosed, noHyphen in *. cbn [forallb].
  now rewrite S1, S2, I1, I2.
Qed.

Lemma renderNumber_cases n :
  (isInteger n = true /\ renderNumber n = numberToString (whole n))
  \/ (isInteger n = false
      /\ exists f, forallb isDigit f = true /\ f <> []
           /\ renderNumber n = numberToString (whole n) ++ dot :: f).
Proof.
  unfold renderNumber, isInteger.
  destruct (fraction n) as [| u | u | u | u | u | u | u | u | u | u] eqn:E;
    [left; split; reflexivity | right ..];
    (split; [reflexivity |]; eexists; split; [| split; [| reflexivity]];
     [apply digitsOfUint_digits | discriminate]).
Qed.

Lemma nameChars_app a b :
  forallb isNameChar (a ++ b) = forallb isNameChar a && forallb isNameChar b.
Proof. apply forallb_app. Qed.

Lemma charsetClosed_nameChars s :
  charsetClosed s = true -> forallb isNameChar s = true.
Proof.
  unfold charsetClosed. rewrite !forallb_forall. intros H c Hc.
  unfold isNameChar. now rewrite (H c Hc).
Qed.

Lemma renderNumber_noHyphen n : noHyphen (renderNumber n) = true.
Proof.
  destruct (digits_closed _ (numberToString_digits (whole n))) as [_ W].
  destruct (renderNumber_cases n) as [[_ E] | [_ (f & Hf & _ & E)]]; rewrite E.
  - exact W.
  - destruct (digits_closed _ Hf) as [_ F].
    rewrite noHyphen_app, W. unfold noHyphen in *. cbn [forallb].
    rewrite F. vm_compute. reflexivity.
Qed.

Lemma renderNumber_nonempty n : renderNumber n <> [].
Proof.
  destruct (renderNumber_cases n) as [[_ E] | [_ (f & _ & _ & E)]]; rewrite E.
  - apply numberToString_nonempty.
  - intros H. apply app_eq_nil in H. destruct H as [_ H]. discriminate.
Qed.

Lemma renderNumber_closed n :
  isInteger n = true -> charsetClosed (renderNumber n) = true.
Proof.
  intros Hn. destruct (renderNumber_cases n) as [[_ E] | [Hf _]];
    [| congruence].
  rewrite E. apply (digits_closed _ (numberToString_digits (whole n))).
Qed.

Lemma renderNumber_nameChars n : forallb isNameChar (renderNumber n) = true.
Proof.
  destruct (digits_closed _ (numberToString_digits (whole n))) as [W _].
  apply charsetClosed_nameChars in W.
  destruct (renderNumber_cases n) as [[_ E] | [_ (f & Hf & _ & E)]]; rewrite E.
  - exact W.
  - destruct (digits_closed _ Hf) as [F _].
    apply charsetClosed_nameChars in F.
    rewrite nameChars_app, W. cbn [forallb]. rewrite F.
    vm_compute. reflexivity.
Qed.

(** [WxH], as appended to an edit instruction and written into a path. *)
Lemma dimensions_shape w h :
  let t := renderNumber w ++ [letter_x] ++ renderNumber h in
  noHyphen t = true /\ t <> [] /\ forallb isNameChar t = true
  /\ (isInteger w = true -> isInteger h = true -> charsetClosed t = true).
Proof.
  cbn zeta. split; [| split; [| split]].
  - rewrite !noHyphen_app, !renderNumber_noHyphen. reflexivity.
  - intros E. apply app_eq_nil in E. destruct E as [_ E]. discriminate.
  - rewrite !nameChars_app, !renderNumber_nameChars. reflexivity.
  - intros Hw Hh.
    rewrite !charsetClosed_app, (renderNumber_closed _ Hw),
      (renderNumber_closed _ Hh). reflexivity.
Qed.

Lemma editSegment_shape e w h ow oh :
  let seg := editSegment e w h ow oh in
  hasDoubleHyphen seg = false
  /\ endsWithHyphen seg = false
  /\ (sanitizedEdit e <> [] -> startsWithHyphen seg = false)
  /\ forallb isNameChar seg = true
  /\ (isInteger ow = true -> isInteger oh = true -> charsetClosed seg = true).
Proof.
  pose proof (sanitizedPrompt_wellFormed e) as Hwf.
  apply wellFormedSlug_iff in Hwf.
  change (sanitizedPrompt e) with (sanitizedEdit e) in Hwf.
  destruct Hwf as (Hc & Hd & Hs & He).
  unfold editSegment. cbn zeta.
  destruct (truthyNum w || truthyNum h).
  - destruct (dimensions_shape ow oh) as (T1 & T2 & T3 & T4). cbn zeta in *.
    set (t := renderNumber ow ++ [letter_x] ++ renderNumber oh) in *.
    change ([hyphen] ++ renderNumber ow ++ [letter_x] ++ renderNumber oh)
      with (hyphen :: t).
    split; [| split; [| split; [| split]]].
    + apply hasDoubleHyphen_app; auto. now apply hasDoubleHyphen_hyphen_cons.
    + rewrite endsWithHyphen_app by discriminate.
      destruct t as [| c t']; [contradiction |].
      change (endsWithHyphen (c :: t') = false).
      now apply endsWithHyphen_noHyphen.
    + intros Hne. destruct (sanitizedEdit e); [contradiction | exact Hs].
    + rewrite nameChars_app, (charsetClosed_nameChars _ Hc).
      rewrite (nameChars_app [hyphen] t), T3. vm_compute. reflexivity.
    + intros Hw Hh. rewrite charsetClosed_app, Hc.
      change (isSlugChar hyphen && charsetClosed t = true).
      now rewrite isSlugChar_hyphen, (T4 Hw Hh).
  - rewrite app_nil_r. repeat split; auto.
    now apply charsetClosed_nameChars.
Qed.

End CanonFacts.

(** C2 as stated fails: a description whose sanitised text is cut at a
    hyphen by [slice(0, 100)] loses that hyphen when sanitised again. *)
Lemma sanitized_not_idempotent :
  sanitized longDescription = repeat letter_a 99 ++ [hyphen]
  /\ sanitized (sanitized longDescription) = repeat letter_a 99
  /\ sanitized (sanitized longDescription) <> sanitized longDescription.
Proof.
  assert (E1 : sanitized longDescription = repeat letter_a 99 ++ [hyphen])
    by (vm_compute; reflexivity).
  assert (E2 : sanitized (sanitized longDescription) = repeat letter_a 99)
    by (vm_compute; reflexivity).
  repeat split; trivial.
  rewrite E2, E1. intros H. apply (f_equal (@length _)) in H.
  vm_compute in H. discriminate.
Qed.

(** C2, amended: the chains without truncation (upload prompt, both edit
    instructions) are idempotent on every string; the description chain is
    idempotent at [s] exactly when the slug of [s] does not end with a
    hyphen, which holds whenever truncation cuts nothing. *)
Theorem canonicalize_idempotent s :
  sanitizedPrompt (sanitizedPrompt s) = sanitizedPrompt s
  /\ sanitizedEdit (sanitizedEdit s) = sanitizedEdit s
  /\ sanitizedEdit_url (sanitizedEdit_url s) = sanitizedEdit_url s
  /\ (sanitized (sanitized s) = sanitized s
      <-> endsWithHyphen (sanitized s) = false)
  /\ ((length (sanitizedPrompt s) <= 100)%nat ->
      sanitized (sanitized s) = sanitized s).
Proof.
  assert (P : sanitizedPrompt (sanitizedPrompt s) = sanitizedPrompt s)
    by apply sanitizedPrompt_fixed, sanitizedPrompt_wellFormed.
  repeat split.
  - exact P.
  - exact P.
  - destruct (sanitizedEdit_url_shape s) as [Hc Hd].
    now apply sanitizedEdit_url_fixed.
  - apply sanitized_idempotent_iff.
  - apply sanitized_idempotent_iff.
  - intros H. rewrite (sanitized_short _ H).
    rewrite sanitized_slice, P. now apply firstn_all2.
Qed.

Lemma canonicalize_idempotent_witness :
  sanitized (sanitized (lit "Happy Duck!!")) = sanitized (lit "Happy Duck!!").
Proof.
  apply (proj2 (proj2 (proj2 (proj2 (canonicalize_idempotent (lit "Happy Duck!!")))))).
  vm_compute. lia.
Defined.



(** The edit instruction of generate_image_url keeps its outer hyphens, the
    one of edit_image loses them. *)
Example sanitizedEdit_url_outer_hyphens :
  sanitizedEdit_url (lit "-Make it Blue-") = lit "-make-it-blue-"
  /\ sanitizedEdit (lit "-Make it Blue-") = lit "make-it-blue".
Proof. split; reflexivity. Qed.



(** A width that is no integer puts a point into the edit segment. *)
Example editSegment_fractional_width :
  editSegment (lit "Make it Blue")
    (Some {| whole := 900; fraction := Decimal.D5 Decimal.Nil |}) None
    {| whole := 900; fraction := Decimal.D5 Decimal.Nil |} 600
  = lit "make-it-blue-900.5x600"
  /\ charsetClosed (lit "make-it-blue-900.5x600") = false.
Proof. split; reflexivity. Qed.

(** C8: a description slug is the sanitised text cut to its first 100 code
    units, so never longer than 100; the edit-instruction chains cut
    nothing: an instruction that is a well-formed slug already, of whatever
    length, is its own slug at both sites, and the dimensions are appended
    to the whole of it. *)
Lemma wellFormedSlug_letters n : wellFormedSlug (repeat letter_a n) = true.
Proof.
  apply wellFormedSlug_iff. induction n as [| n (Hc & Hd & Hs & He)].
  - repeat split.
  - split; [| split; [| split]].
    + unfold charsetClosed in *. cbn [repeat forallb]. now rewrite Hc.
    + destruct n as [| n]; [reflexivity |]. cbn [repeat] in *.
      rewrite hasDoubleHyphen_step, Hd. reflexivity.
    + reflexivity.
    + destruct n as [| n]; [reflexivity | exact He].
Qed.

Theorem description_slug_truncated_edit_slug_not :
  (forall d,
      (length (sanitized d) <= 100)%nat
      /\ sanitized d
         = slice0 100 (stripEnds (collapseHyphens (replaceNonSlug (toLowerCase d)))))
  /\ (forall e, wellFormedSlug e = true ->
        sanitizedEdit e = e /\ sanitizedEdit_url e = e
        /\ forall w h ow oh,
             firstn (length e) (editSegment e w h ow oh) = e)
  /\ (forall n,
        length (sanitizedEdit (repeat letter_a n)) = n
        /\ length (sanitizedEdit_url (repeat letter_a n)) = n).
Proof.
  assert (F : forall e, wellFormedSlug e = true ->
                sanitizedEdit e = e /\ sanitizedEdit_url e = e).
  { intros e He. split; [now apply sanitizedPrompt_fixed |].
    apply wellFormedSlug_iff in He. destruct He as (Hc & Hd & _).
    now apply sanitizedEdit_url_fixed. }
  split; [| split].
  - intros d. split; [apply sanitized_length | reflexivity].
  - intros e He. destruct (F e He) as [F1 F2].
    split; [exact F1 |]. split; [exact F2 |].
    intros w h ow oh. unfold editSegment. rewrite F1.
    rewrite firstn_app, Nat.sub_diag, firstn_all. simpl.
    now rewrite app_nil_r.
  - intros n.
    destruct (F _ (wellFormedSlug_letters n)) as [F1 F2].
    rewrite F1, F2, repeat_length. split; reflexivity.
Qed.

Lemma description_slug_truncated_edit_slug_not_witness :
  sanitizedEdit longDescription = longDescription
  /\ sanitizedEdit_url longDescription = longDescription.
Proof.
  destruct (proj1 (proj2 description_slug_truncated_edit_slug_not)
              longDescription) as (H1 & H2 & _).
  - vm_compute. reflexivity.
  - split; assumption.
Defined.

(** ** Resource paths and the resolver's pattern *)

Section PathFacts.

Local Open Scope N_scope.
Local Opaque N.eqb N.leb.

Lemma uintOfDigits_digitsOfUint u : uintOfDigits (digitsOfUint u) = u.
Proof. induction u; simpl; try rewrite IHu; reflexivity. Qed.

Lemma parseInt10_numberToString n : parseInt10 (numberToString n) = n.
Proof.
  unfold parseInt10, numberToString. rewrite uintOfDigits_digitsOfUint.
  apply DecimalN.Unsigned.of_to.
Qed.

(** Splitting at slashes *)

Lemma split_nonempty sep s : split sep s <> [].
Proof.
  destruct s as [| c s]; simpl; [discriminate |].
  destruct (c =? sep); [discriminate |].
  destruct (split sep s); discriminate.
Qed.

Lemma split_app sep a b :
  split sep (a ++ sep :: b) = split sep a ++ split sep b.
Proof.
  induction a as [| c a IH]; simpl.
  - now rewrite N.eqb_refl.
  - destruct (c =? sep); [now rewrite IH |].
    rewrite IH. pose proof (split_nonempty sep a) as Hne.
    destruct (split sep a); [contradiction | reflexivity].
Qed.

Lemma avoids_app sep a b : avoids sep (a ++ b) = avoids sep a && avoids sep b.
Proof. apply forallb_app. Qed.

Lemma split_avoids sep s : avoids sep s = true -> split sep s = [s].
Proof.
  induction s as [| c s IH]; [reflexivity |].
  unfold avoids. cbn [forallb]. rewrite andb_true_iff, negb_true_iff.
  intros [Hc Hs]. simpl. rewrite Hc, (IH Hs). reflexivity.
Qed.

Lemma last_app_nonempty {A} (l1 l2 : list A) d :
  l2 <> [] -> last (l1 ++ l2) d = last l2 d.
Proof.
  intros H. induction l1 as [| x l1 IH]; [reflexivity |].
  simpl. destruct (l1 ++ l2) eqn:E; [| exact IH].
  apply app_eq_nil in E. destruct E as [_ E]. contradiction.
Qed.

Lemma sourceFileName_after_slash dir file :
  avoids slash file = true -> sourceFileName (dir ++ [slash] ++ file) = file.
Proof.
  intros H. unfold sourceFileName.
  change (dir ++ [slash] ++ file) with (dir ++ slash :: file).
  rewrite split_app, last_app_nonempty by apply split_nonempty.
  now rewrite (split_avoids _ _ H).
Qed.

(** Slug characters are none of the separators of a file name. *)
Lemma isSlugChar_plain c :
  isSlugChar c = true ->
  (c =? slash) = false /\ (c =? underscore) = false
  /\ isLineTerminator c = false.
Proof.
  unfold isSlugChar, isLower, isDigit, isLineTerminator, hyphen, slash, underscore.
  intros H.
  assert (R : 45 <= c <= 122).
  { repeat (apply orb_prop in H; destruct H as [H | H]);
      rewrite ?andb_true_iff, ?N.leb_le, ?N.eqb_eq in H; lia. }
  assert (S : c <> 47 /\ c <> 95).
  { repeat (apply orb_prop in H; destruct H as [H | H]);
      rewrite ?andb_true_iff, ?N.leb_le, ?N.eqb_eq in H; lia. }
  repeat split; rewrite ?orb_false_iff; repeat split; apply N.eqb_neq; lia.
Qed.

Lemma charsetClosed_avoids s :
  charsetClosed s = true ->
  avoids slash s = true /\ avoids underscore s = true
  /\ existsb isLineTerminator s = false.
Proof.
  induction s as [| c s IH]; [repeat split |].
  unfold charsetClosed. cbn [forallb]. rewrite andb_true_iff. intros [Hc Hs].
  destruct (IH Hs) as (I1 & I2 & I3).
  destruct (isSlugChar_plain _ Hc) as (C1 & C2 & C3).
  unfold avoids in *. cbn [forallb existsb]. now rewrite C1, C2, C3, I1, I2, I3.
Qed.

Lemma isDigit_plain c :
  isDigit c = true ->
  (c =? slash) = false /\ (c =? underscore) = false
  /\ (c =? letter_x) = false /\ (c =? dot) = false.
Proof.
  unfold isDigit, slash, underscore, letter_x, dot.
  rewrite andb_true_iff, !N.leb_le. intros [H1 H2].
  repeat split; apply N.eqb_neq; lia.
Qed.

Lemma digits_avoid s :
  forallb isDigit s = true ->
  avoids slash s = true /\ avoids underscore s = true.
Proof.
  induction s as [| c s IH]; [split; reflexivity |].
  cbn [forallb]. rewrite andb_true_iff. intros [Hc Hs].
  destruct (IH Hs) as [I1 I2]. destruct (isDigit_plain _ Hc) as (C1 & C2 & _).
  unfold avoids in *. cbn [forallb]. now rewrite C1, C2, I1, I2.
Qed.

Lemma formatToString_avoids f :
  avoids slash (formatToString f) = true
  /\ avoids underscore (formatToString f) = true.
Proof. destruct f; split; vm_compute; reflexivity. Qed.

Lemma matchPngJpg_formatToString f : matchPngJpg (formatToString f) = Some f.
Proof. destruct f; vm_compute; reflexivity. Qed.

Lemma spanDigits_app ds c r :
  forallb isDigit ds = true -> isDigit c = false ->
  spanDigits (ds ++ c :: r) = (ds, c :: r).
Proof.
  intros Hd Hc. induction ds as [| d ds IH]; simpl.
  - now rewrite Hc.
  - cbn [forallb] in Hd. apply andb_true_iff in Hd. destruct Hd as [H1 H2].
    now rewrite H1, (IH H2).
Qed.

Lemma isNameChar_plain c :
  isNameChar c = true ->
  (c =? slash) = false /\ (c =? underscore) = false
  /\ isLineTerminator c = false.
Proof.
  unfold isNameChar. intros H. apply orb_prop in H.
  destruct H as [H | H]; [now apply isSlugChar_plain |].
  apply N.eqb_eq in H. subst c. vm_compute. repeat split.
Qed.

Lemma nameChars_avoid s :
  forallb isNameChar s = true ->
  avoids slash s = true /\ avoids underscore s = true
  /\ existsb isLineTerminator s = false.
Proof.
  induction s as [| c s IH]; [repeat split |].
  cbn [forallb]. rewrite andb_true_iff. intros [Hc Hs].
  destruct (IH Hs) as (I1 & I2 & I3).
  destruct (isNameChar_plain _ Hc) as (C1 & C2 & C3).
  unfold avoids in *. cbn [forallb existsb]. now rewrite C1, C2, C3, I1, I2, I3.
Qed.

Lemma matchPngJpg_digit c r : isDigit c = true -> matchPngJpg (c :: r) = None.
Proof.
  intros H. unfold matchPngJpg.
  assert (E1 : (c =? 112) = false /\ (c =? 106) = false).
  { unfold isDigit in H. rewrite andb_true_iff, !N.leb_le in H.
    split; apply N.eqb_neq; lia. }
  destruct E1 as [E1 E2].
  change (lit "png") with [112; 110; 103].
  change (lit "jpg") with [106; 112; 103].
  cbn [streq]. now rewrite E1, E2.
Qed.

(** The dimensions of a file name are matched when both are integers, and
    only then. *)
Lemma matchDims_dimsAndFormat w h f :
  isInteger w = true -> isInteger h = true ->
  matchDims (dimsAndFormat w h f)
  = Some (numberToString (whole w), numberToString (whole h), f).
Proof.
  intros Iw Ih. unfold matchDims, dimsAndFormat.
  destruct (renderNumber_cases w) as [[_ Ew] | [Fw _]]; [| congruence].
  destruct (renderNumber_cases h) as [[_ Eh] | [Fh _]]; [| congruence].
  rewrite Ew, Eh.
  change (numberToString (whole w) ++ [letter_x] ++ numberToString (whole h)
            ++ [dot] ++ formatToString f)
    with (numberToString (whole w) ++ letter_x
            :: (numberToString (whole h) ++ dot :: formatToString f)).
  rewrite spanDigits_app
    by (try apply numberToString_digits; vm_compute; reflexivity).
  pose proof (numberToString_nonempty (whole w)) as Hw.
  destruct (numberToString (whole w)) as [| dw tw] eqn:E1; [contradiction |].
  rewrite N.eqb_refl.
  rewrite spanDigits_app
    by (try apply numberToString_digits; vm_compute; reflexivity).
  pose proof (numberToString_nonempty (whole h)) as Hh.
  destruct (numberToString (whole h)) as [| dh th] eqn:E2; [contradiction |].
  now rewrite N.eqb_refl, matchPngJpg_formatToString.
Qed.

Lemma matchDims_fraction w h f :
  isInteger w && isInteger h = false -> matchDims (dimsAndFormat w h f) = None.
Proof.
  intros Hwh. unfold matchDims, dimsAndFormat.
  destruct (renderNumber_cases w) as [[Iw Ew] | [_ (fw & Dw & Nw & Ew)]];
    rewrite Ew.
  - rewrite Iw in Hwh. cbn [andb] in Hwh.
    destruct (renderNumber_cases h) as [[Ih _] | [_ (fh & Dh & Nh & Eh)]];
      [congruence |].
    rewrite Eh.
    change (numberToString (whole w) ++ [letter_x]
              ++ (numberToString (whole h) ++ dot :: fh)
              ++ [dot] ++ formatToString f)
      with (numberToString (whole w) ++ letter_x
              :: ((numberToString (whole h) ++ dot :: fh)
                    ++ [dot] ++ formatToString f)).
    rewrite spanDigits_app
      by (try apply numberToString_digits; vm_compute; reflexivity).
    pose proof (numberToString_nonempty (whole w)) as Hw.
    destruct (numberToString (whole w)) as [| dw tw] eqn:E1; [contradiction |].
    rewrite N.eqb_refl, <- app_assoc.
    change ((dot :: fh) ++ [dot] ++ formatToString f)
      with (dot :: (fh ++ [dot] ++ formatToString f)).
    rewrite spanDigits_app
      by (try apply numberToString_digits; vm_compute; reflexivity).
    pose proof (numberToString_nonempty (whole h)) as Hh.
    destruct (numberToString (whole h)) as [| dh th] eqn:E2; [contradiction |].
    rewrite N.eqb_refl.
    destruct fh as [| c fh']; [contradiction |].
    cbn [forallb] in Dh. apply andb_true_iff in Dh. destruct Dh as [Dc _].
    change ((c :: fh') ++ [dot] ++ formatToString f)
      with (c :: (fh' ++ [dot] ++ formatToString f)).
    now rewrite (matchPngJpg_digit _ _ Dc).
  - rewrite <- app_assoc.
    change ((dot :: fw) ++ [letter_x] ++ renderNumber h ++ [dot]
              ++ formatToString f)
      with (dot :: (fw ++ [letter_x] ++ renderNumber h ++ [dot]
                      ++ formatToString f)).
    rewrite spanDigits_app
      by (try apply numberToString_digits; vm_compute; reflexivity).
    pose proof (numberToString_nonempty (whole w)) as Hw.
    destruct (numberToString (whole w)) as [| dw tw] eqn:E1; [contradiction |].
    assert (E : (dot =? letter_x) = false) by (vm_compute; reflexivity).
    now rewrite E.
Qed.

Lemma dimsAndFormat_avoids w h f :
  avoids slash (dimsAndFormat w h f) = true
  /\ avoids underscore (dimsAndFormat w h f) = true.
Proof.
  destruct (nameChars_avoid _ (renderNumber_nameChars w)) as (W1 & W2 & _).
  destruct (nameChars_avoid _ (renderNumber_nameChars h)) as (H1 & H2 & _).
  destruct (formatToString_avoids f) as [F1 F2].
  unfold dimsAndFormat. rewrite !avoids_app, W1, W2, H1, H2, F1, F2.
  split; vm_compute; reflexivity.
Qed.

(** The greedy group cannot end where no underscore follows. *)
Lemma matchSourceFrom_no_underscore pre rest :
  avoids underscore rest = true -> matchSourceFrom pre rest = None.
Proof.
  revert pre. induction rest as [| c rest IH]; intros pre; [reflexivity |].
  unfold avoids. cbn [forallb]. rewrite andb_true_iff, negb_true_iff.
  intros [Hc Hr]. cbn [matchSourceFrom].
  rewrite (IH _ Hr), Hc.
  destruct (isLineTerminator c); destruct pre; reflexivity.
Qed.

Lemma matchSourceFrom_slug pre s tail r :
  charsetClosed s = true -> avoids underscore tail = true ->
  matchDims tail = Some r -> rev pre ++ s <> [] ->
  matchSourceFrom pre (s ++ underscore :: tail)
  = Some (rev pre ++ s, fst (fst r), snd (fst r), snd r).
Proof.
  intros Hs Ht Hm. revert pre.
  induction s as [| c s IH]; intros pre Hne.
  - cbn [app matchSourceFrom].
    rewrite (matchSourceFrom_no_underscore _ _ Ht), N.eqb_refl, Hm.
    rewrite app_nil_r in *.
    destruct pre as [| p pre']; [contradiction |].
    destruct r as [[w h] f].
    destruct (isLineTerminator underscore); reflexivity.
  - unfold charsetClosed in Hs. cbn [forallb] in Hs.
    apply andb_true_iff in Hs. destruct Hs as [Hc Hs].
    destruct (isSlugChar_plain _ Hc) as (_ & _ & Hl).
    change ((c :: s) ++ underscore :: tail) with (c :: (s ++ underscore :: tail)).
    cbn [matchSourceFrom]. rewrite Hl.
    rewrite (IH Hs (c :: pre)).
    + cbn [rev]. now rewrite <- app_assoc.
    + cbn [rev]. rewrite <- app_assoc. now destruct (rev pre).
Qed.

Lemma matchSourceFrom_fails pre s tail :
  charsetClosed s = true -> avoids underscore tail = true ->
  matchDims tail = None ->
  matchSourceFrom pre (s ++ underscore :: tail) = None.
Proof.
  intros Hs Ht Hm. revert pre.
  induction s as [| c s IH]; intros pre.
  - cbn [app matchSourceFrom].
    rewrite (matchSourceFrom_no_underscore _ _ Ht), N.eqb_refl, Hm.
    destruct (isLineTerminator underscore); destruct pre; reflexivity.
  - unfold charsetClosed in Hs. cbn [forallb] in Hs.
    apply andb_true_iff in Hs. destruct Hs as [Hc Hs].
    destruct (isSlugChar_plain _ Hc) as (_ & Hu & Hl).
    change ((c :: s) ++ underscore :: tail) with (c :: (s ++ underscore :: tail)).
    cbn [matchSourceFrom]. rewrite Hl, (IH Hs (c :: pre)), Hu.
    destruct pre; reflexivity.
Qed.

(** The file name of a built path is matched by the resolver's first
    pattern whenever the description slug is not empty and the width and
    the height are integers. *)
Lemma sourceMatch_built_name slug w h f :
  charsetClosed slug = true -> slug <> [] ->
  isInteger w = true -> isInteger h = true ->
  sourceMatch (slug ++ [underscore] ++ dimsAndFormat w h f)
  = Some (slug, numberToString (whole w), numberToString (whole h), f).
Proof.
  intros Hc Hne Iw Ih. unfold sourceMatch.
  change (slug ++ [underscore] ++ dimsAndFormat w h f)
    with (slug ++ underscore :: dimsAndFormat w h f).
  rewrite (matchSourceFrom_slug [] _ _ _ Hc
             (proj2 (dimsAndFormat_avoids w h f))
             (matchDims_dimsAndFormat w h f Iw Ih)); [reflexivity | exact Hne].
Qed.

(** It is not matched when the width or the height is no integer. *)
Lemma sourceMatch_built_fraction slug w h f :
  charsetClosed slug = true ->
  isInteger w && isInteger h = false ->
  sourceMatch (slug ++ [underscore] ++ dimsAndFormat w h f) = None.
Proof.
  intros Hc Hwh. unfold sourceMatch.
  change (slug ++ [underscore] ++ dimsAndFormat w h f)
    with (slug ++ underscore :: dimsAndFormat w h f).
  apply (matchSourceFrom_fails [] _ _ Hc (proj2 (dimsAndFormat_avoids w h f))
           (matchDims_fraction w h f Hwh)).
Qed.

Lemma pathPart_fileName project description w h f :
  sourceFileName (pathPart project description w h f)
  = sanitized description ++ [underscore] ++ dimsAndFormat w h f.
Proof.
  unfold pathPart.
  rewrite sourceFileName_after_slash; [reflexivity |].
  destruct (sanitized_shape description) as (Hc & _).
  destruct (charsetClosed_avoids _ Hc) as (A1 & _).
  destruct (dimsAndFormat_avoids w h f) as [D1 _].
  change (renderNumber w ++ [letter_x] ++ renderNumber h ++ [dot]
            ++ formatToString f) with (dimsAndFormat w h f).
  rewrite !avoids_app, A1, D1. reflexivity.
Qed.

(** Round trip through the resolver, for a description whose slug is not
    empty and integer dimensions: the file name of the built path gives
    back the slug, the width, the height and the format. *)
Lemma extract_buildImagePath sp :
  sanitized (spec_description sp) <> [] ->
  isInteger (spec_width sp) = true -> isInteger (spec_height sp) = true ->
  extractDescriptionAndDimensions (sourceFileName (buildImagePath sp))
  = Some (sanitized (spec_description sp), whole (spec_width sp),
          whole (spec_height sp), formatToString (spec_format sp)).
Proof.
  intros Hne Iw Ih. unfold buildImagePath, extractDescriptionAndDimensions.
  rewrite pathPart_fileName.
  rewrite sourceMatch_built_name;
    [| apply (sanitized_shape (spec_description sp)) | exact Hne
     | exact Iw | exact Ih].
  now rewrite !parseInt10_numberToString.
Qed.

End PathFacts.

(** C7, at the input where it fails: a description without a letter or
    digit has the empty slug, the built path ends in [_800x600.png], the
    first pattern, whose [(.+)] needs a description, does not match, and
    the resolver takes the name for an upload: description [_800x600],
    1024 by 1024. *)
Lemma roundtrip_lost_on_empty_slug :
  let sp := mkImageSpec (lit "proj") (lit "!!!") 800 600 png None in
  specInRange sp = true
  /\ buildImagePath sp = lit "proj/_800x600.png"
  /\ sourceMatch (sourceFileName (buildImagePath sp)) = None
  /\ extractDescriptionAndDimensions (sourceFileName (buildImagePath sp))
     = Some (lit "_800x600", 1024%N, 1024%N, lit "png").
Proof. vm_compute. repeat split. Qed.

(** ** The polling loop *)

Section PollerFacts.

Variable P : Platform.
Variable W : World.
Variable pollUrl : jsstring.

Lemma pollCount_app l1 l2 : pollCount (l1 ++ l2) = pollCount l1 + pollCount l2.
Proof. unfold pollCount. now rewrite filter_app, length_app. Qed.

Lemma sleepCount_app l1 l2 : sleepCount (l1 ++ l2) = sleepCount l1 + sleepCount l2.
Proof. unfold sleepCount. now rewrite filter_app, length_app. Qed.

(** Case analysis on the innermost scrutinee first. *)
Ltac split_matches :=
  repeat (cbv beta iota;
          match goal with
          | |- context [match ?x with _ => _ end] =>
              lazymatch x with
              | context [match _ with _ => _ end] => fail
              | _ => destruct x eqn:?
              end
          end).

(** One iteration, whatever the response: since [status] is never assigned
    ["FAILED"], the [catch] clause swallows every exception. *)
Lemma iteration_total st log :
  status st = PENDING ->
  exists st' fl log',
    iteration P W pollUrl st log = Some (Normal (st', fl), log')
    /\ status st' = PENDING /\ attempt st' = attempt st
    /\ pollCount log' = S (pollCount log)
    /\ sleepCount log' <= sleepCount log
    /\ match fl with
       | Next => imageBuffer st' = imageBuffer st
       | Break => imageBuffer st' <> None
       end.
Proof.
  intros Hst.
  cbv [iteration tryCatch tryBlock bind fetchPoll fetchImage emit
       json bodyText arrayBuffer readData ret throw].
  rewrite Hst.
  split_matches; subst;
    repeat match goal with
           | H : Some _ = Some _ |- _ => inversion H; subst; clear H
           | H : (_, _) = (_, _) |- _ => inversion H; subst; clear H
           end;
    try discriminate;
    do 3 eexists; (split; [reflexivity |]);
    unfold pollCount, sleepCount; rewrite ?filter_app, ?length_app; simpl;
    repeat split; try lia; try discriminate; auto.
Qed.

Lemma iteration_noMedia st log :
  status st = PENDING ->
  noMedia (fetch_poll W pollUrl (attempt st)) = true ->
  iteration P W pollUrl st log = Some (Normal (st, Next), log ++ [EvPoll pollUrl]).
Proof.
  intros Hst. unfold noMedia, carriesMedia.
  cbv [iteration tryCatch tryBlock bind fetchPoll fetchImage emit
       json bodyText arrayBuffer readData ret throw].
  rewrite Hst. destruct st as [k b s]. simpl in Hst. subst s.
  cbn [attempt status imageBuffer setStatus].
  destruct (fetch_poll W pollUrl k) as [m | r]; [reflexivity |].
  destruct (res_ok r) eqn:Hok; cbn [andb negb].
  - destruct (res_json r) as [m | v]; [reflexivity |].
    destruct v; intros Hm; try reflexivity;
      apply negb_true_iff in Hm; rewrite Hm;
      destruct (res_status r =? 202)%N; try reflexivity;
      destruct (400 <=? res_status r)%N; reflexivity.
  - intros _. destruct (res_status r =? 202)%N; [reflexivity |].
    destruct (res_text r); reflexivity.
Qed.

Lemma pollLoop_exit fuel st log :
  maxAttempts <= attempt st ->
  pollLoop (S fuel) P W pollUrl st log = Some (Normal st, log).
Proof.
  intros H. cbn [pollLoop].
  destruct (attempt st <? maxAttempts) eqn:E; [| reflexivity].
  apply Nat.ltb_lt in E. lia.
Qed.

Lemma pollLoop_next fuel st st' log log' :
  attempt st < maxAttempts ->
  iteration P W pollUrl st log = Some (Normal (st', Next), log') ->
  pollLoop (S fuel) P W pollUrl st log
  = pollLoop fuel P W pollUrl (nextAttempt st') (log' ++ [EvSleep 3000]).
Proof.
  intros H E. cbn [pollLoop]. apply Nat.ltb_lt in H. rewrite H.
  unfold bind at 1. rewrite E. reflexivity.
Qed.

Lemma pollLoop_break fuel st st' log log' :
  attempt st < maxAttempts ->
  iteration P W pollUrl st log = Some (Normal (st', Break), log') ->
  pollLoop (S fuel) P W pollUrl st log = Some (Normal st', log').
Proof.
  intros H E. cbn [pollLoop]. apply Nat.ltb_lt in H. rewrite H.
  unfold bind at 1. rewrite E. reflexivity.
Qed.

(** The loop always ends: from attempt [maxAttempts - n] it issues at most
    [n] more status requests, and any fuel above [n] is enough. *)
Lemma pollLoop_completes n : forall fuel st log,
  status st = PENDING -> attempt st + n = maxAttempts -> n < fuel ->
  exists st' log',
    pollLoop fuel P W pollUrl st log = Some (Normal st', log')
    /\ pollCount log' <= pollCount log + n
    /\ sleepCount log' <= sleepCount log + n.
Proof.
  induction n as [| n IH]; intros fuel st log Hst Hn Hf.
  - destruct fuel as [| fuel]; [lia |].
    exists st, log. rewrite pollLoop_exit by lia. repeat split; lia.
  - destruct fuel as [| fuel]; [lia |].
    destruct (iteration_total st log Hst)
      as (st' & fl & log' & E & Hst' & Hat & Hp & Hs & _).
    destruct fl.
    + rewrite (pollLoop_next fuel st st' log log' ltac:(lia) E).
      destruct (IH fuel (nextAttempt st') (log' ++ [EvSleep 3000]))
        as (st2 & log2 & E2 & Hp2 & Hs2); try (simpl; lia); [exact Hst' |].
      exists st2, log2. split; [exact E2 |].
      rewrite pollCount_app, sleepCount_app in *.
      unfold pollCount, sleepCount in *. simpl in *. lia.
    + rewrite (pollLoop_break fuel st st' log log' ltac:(lia) E).
      exists st', log'. repeat split; lia.
Qed.

(** A run of [k] responses without a media payload costs [k] status
    requests and [k] waits, and changes nothing else. *)
Lemma pollLoop_skip k : forall fuel st log,
  status st = PENDING -> attempt st + k <= maxAttempts ->
  (forall j, j < k -> noMedia (fetch_poll W pollUrl (attempt st + j)) = true) ->
  pollLoop (k + fuel) P W pollUrl st log
  = pollLoop fuel P W pollUrl (atAttempt (attempt st + k) st)
      (log ++ waitTrace pollUrl k).
Proof.
  induction k as [| k IH]; intros fuel st log Hst Hk Hno.
  - unfold waitTrace. simpl. rewrite app_nil_r, Nat.add_0_r.
    destruct st; reflexivity.
  - change (S k + fuel) with (S (k + fuel)).
    rewrite (pollLoop_next (k + fuel) st _ log _ ltac:(lia)
               (iteration_noMedia st log Hst
                  ltac:(rewrite <- (Nat.add_0_r (attempt st)); apply Hno; lia))).
    rewrite IH.
    + unfold waitTrace. cbn [repeat concat nextAttempt attempt atAttempt
                               imageBuffer status].
      rewrite <- !app_assoc. cbn [app].
      unfold atAttempt. cbn [nextAttempt imageBuffer status].
      replace (S (attempt st) + k) with (attempt st + S k) by lia.
      reflexivity.
    + exact Hst.
    + simpl. lia.
    + intros j Hj. cbn [nextAttempt attempt].
      replace (S (attempt st) + j) with (attempt st + S j) by lia.
      apply Hno. lia.
Qed.

Lemma pollCount_waitTrace k : pollCount (waitTrace pollUrl k) = k.
Proof.
  unfold waitTrace. induction k as [| k IH]; [reflexivity |].
  cbn [repeat concat]. rewrite pollCount_app, IH. reflexivity.
Qed.

Lemma sleepCount_waitTrace k : sleepCount (waitTrace pollUrl k) = k.
Proof.
  unfold waitTrace. induction k as [| k IH]; [reflexivity |].
  cbn [repeat concat]. rewrite sleepCount_app, IH. reflexivity.
Qed.

Lemma startsWith_app p x : startsWith (p ++ x) p = true.
Proof.
  induction p as [| c p IH]; simpl; [now destruct x |]. now rewrite N.eqb_refl.
Qed.

(** A 2xx response whose [mediaAsset.data] is a data URL ends the loop with
    the decoded text after the first comma. *)
Lemma iteration_dataUrl st log r v meta payload :
  fetch_poll W pollUrl (attempt st) = FetchResolves r ->
  res_ok r = true -> res_json r = inr v -> v <> JNull ->
  mediaAssetData v = Some (JStr (lit "data:" ++ meta ++ comma :: payload)) ->
  avoids comma meta = true -> avoids comma payload = true ->
  iteration P W pollUrl st log
  = Some (Normal (setBuffer st (Buffer_from_base64 P payload), Break),
          log ++ [EvPoll pollUrl]).
Proof.
  intros Hf Hok Hj Hv Hd Hm Hp.
  cbv [iteration tryCatch tryBlock bind fetchPoll emit json bodyText readData ret throw].
  rewrite Hf, Hok, Hj.
  destruct v; [contradiction | ..]; cbv beta iota; rewrite Hd;
  cbn [truthyOpt truthy];
  change (lit "data:" ++ meta ++ comma :: payload)
    with (100%N :: (lit "ata:" ++ meta ++ comma :: payload)) at 1;
  cbv beta iota;
  rewrite startsWith_app;
  (replace (lit "data:" ++ meta ++ comma :: payload)
    with ((lit "data:" ++ meta) ++ comma :: payload)
    by now rewrite <- app_assoc);
  (rewrite split_app, !split_avoids; [reflexivity | exact Hp |]);
  rewrite avoids_app, Hm; reflexivity.
Qed.

(** A 2xx response whose [mediaAsset.data] is any other string: the string
    is fetched, and the body of whatever response comes back ends the loop;
    the status of that response is not looked at. *)
Lemma iteration_plainUrl st log r v dataUrl imgStatus body :
  fetch_poll W pollUrl (attempt st) = FetchResolves r ->
  res_ok r = true -> res_json r = inr v -> v <> JNull ->
  mediaAssetData v = Some (JStr dataUrl) -> dataUrl <> [] ->
  startsWith dataUrl (lit "data:") = false ->
  fetch_image W dataUrl (attempt st)
  = ImageResolves {| img_status := imgStatus; img_arrayBuffer := inr body |} ->
  iteration P W pollUrl st log
  = Some (Normal (setBuffer st body, Break),
          log ++ [EvPoll pollUrl] ++ [EvImage dataUrl]).
Proof.
  intros Hf Hok Hj Hv Hd Hne Hs Hi.
  cbv [iteration tryCatch tryBlock bind fetchPoll fetchImage emit json
       arrayBuffer readData ret throw].
  rewrite Hf, Hok, Hj.
  destruct dataUrl as [| c u]; [contradiction |].
  destruct v; [contradiction | ..]; cbv beta iota; rewrite Hd;
  cbn [truthyOpt truthy]; cbv beta iota; rewrite Hs, Hi;
  cbn [img_arrayBuffer]; now rewrite <- app_assoc.
Qed.

(** The loop and the test that follows it, when attempt [k] is the first
    to break out. *)
Lemma pollImage_break_at k fuel message log st' b tr :
  k < maxAttempts ->
  (forall j, j < k -> noMedia (fetch_poll W pollUrl j) = true) ->
  (forall l, iteration P W pollUrl (atAttempt k initialState) l
             = Some (Normal (st', Break), l ++ tr)) ->
  imageBuffer st' = Some b ->
  pollImage (k + S fuel) P W pollUrl message log
  = Some (Normal b, log ++ waitTrace pollUrl k ++ tr).
Proof.
  intros Hk Hno Hit Hb. unfold pollImage, bind.
  rewrite (pollLoop_skip k (S fuel) initialState log eq_refl)
    by (simpl; auto; lia).
  rewrite (pollLoop_break fuel (atAttempt (0 + k) initialState) _ _ _ Hk (Hit _)).
  rewrite Hb. unfold ret. now rewrite <- app_assoc.
Qed.

(** The loop and the test that follows it, when no response carries a
    media payload: sixty status requests, then the time-out. *)
Lemma pollImage_timeout fuel message log :
  (forall j, j < maxAttempts -> noMedia (fetch_poll W pollUrl j) = true) ->
  pollImage (maxAttempts + S fuel) P W pollUrl message log
  = Some (Throw (Error message), log ++ waitTrace pollUrl maxAttempts).
Proof.
  intros Hno. unfold pollImage, bind.
  rewrite (pollLoop_skip maxAttempts (S fuel) initialState log eq_refl)
    by (simpl; auto).
  rewrite pollLoop_exit by (simpl; lia). reflexivity.
Qed.

(** Whatever the responses, the loop and its test complete within sixty
    status requests and sixty waits, with the bytes or with the time-out
    error. *)
Lemma pollImage_completes fuel message :
  maxAttempts < fuel ->
  forall log, exists c log',
    pollImage fuel P W pollUrl message log = Some (c, log')
    /\ pollCount log' <= pollCount log + maxAttempts
    /\ sleepCount log' <= sleepCount log + maxAttempts
    /\ ((exists b, c = Normal b) \/ c = Throw (Error message)).
Proof.
  intros Hf log.
  destruct (pollLoop_completes maxAttempts fuel initialState log eq_refl eq_refl Hf)
    as (st' & log' & E & Hp & Hs).
  unfold pollImage, bind. rewrite E.
  destruct (imageBuffer st') as [b |]; eexists; eexists;
    (split; [reflexivity |]); repeat split; eauto.
Qed.

End PollerFacts.

(** ** Composition of computations *)

Section MonadFacts.

Lemma quiet_ret {A} (a : A) : completesWithin 0 0 (ret a).
Proof. intros log. exists (Normal a), log. repeat split; lia. Qed.

Lemma quiet_throw {A} e : completesWithin 0 0 (@throw A e).
Proof. intros log. exists (Throw e), log. repeat split; lia. Qed.

Lemma quiet_emit e :
  isPoll e = false -> isSleep e = false -> completesWithin 0 0 (emit e).
Proof.
  intros Hp Hs log. exists (Normal tt), (log ++ [e]).
  rewrite pollCount_app, sleepCount_app. unfold pollCount, sleepCount.
  simpl. rewrite Hp, Hs. simpl. repeat split; lia.
Qed.

Lemma completes_bind {A B} p1 s1 p2 s2 (m : M A) (f : A -> M B) :
  completesWithin p1 s1 m -> (forall a, completesWithin p2 s2 (f a)) ->
  completesWithin (p1 + p2) (s1 + s2) (bind m f).
Proof.
  intros Hm Hf log. destruct (Hm log) as (c & log1 & E & Hp & Hs).
  unfold bind. rewrite E. destruct c as [a | e].
  - destruct (Hf a log1) as (c2 & log2 & E2 & Hp2 & Hs2).
    exists c2, log2. repeat split; [exact E2 | lia | lia].
  - exists (Throw e), log1. repeat split; lia.
Qed.

Lemma quiet_bind {A B} p s (m : M A) (f : A -> M B) :
  completesWithin 0 0 m -> (forall a, completesWithin p s (f a)) ->
  completesWithin p s (bind m f).
Proof. intros Hm Hf. apply (completes_bind 0 0 p s); assumption. Qed.

Lemma completes_then_quiet {A B} p s (m : M A) (f : A -> M B) :
  completesWithin p s m -> (forall a, completesWithin 0 0 (f a)) ->
  completesWithin p s (bind m f).
Proof.
  intros Hm Hf. rewrite (plus_n_O p), (plus_n_O s).
  apply completes_bind; assumption.
Qed.

Lemma quiet_tryCatch {A} (m : M A) handler :
  completesWithin 0 0 m -> (forall e, completesWithin 0 0 (handler e)) ->
  completesWithin 0 0 (tryCatch m handler).
Proof.
  intros Hm Hh log. destruct (Hm log) as (c & log1 & E & Hp & Hs).
  unfold tryCatch. rewrite E. destruct c as [a | e].
  - exists (Normal a), log1. repeat split; lia.
  - destruct (Hh e log1) as (c2 & log2 & E2 & Hp2 & Hs2).
    exists c2, log2. repeat split; [exact E2 | lia | lia].
Qed.

(** A result built by a continuation is an error payload only if the
    continuation makes one. *)
Lemma throwsOnFailure_bind {A} (m : M A) (f : A -> M ToolResult) :
  (forall a, throwsOnFailure (f a)) -> throwsOnFailure (bind m f).
Proof.
  intros Hf log c log'. unfold bind.
  destruct (m log) as [[[a | e] log1] |]; try discriminate.
  - apply Hf.
  - intros H. inversion H. exact I.
Qed.

Lemma throwsOnFailure_ret r : isError r = false -> throwsOnFailure (ret r).
Proof. intros Hr log c log' H. inversion H. exact Hr. Qed.

End MonadFacts.

(** Everything a tool does beside polling adds no status request and no
    wait. *)
Ltac quiet :=
  repeat first
    [ apply quiet_ret
    | apply quiet_throw
    | apply quiet_emit; reflexivity
    | apply quiet_tryCatch
    | apply quiet_bind
    | progress intros
    | match goal with
      | |- completesWithin 0 0 (match ?x with _ => _ end) => destruct x
      | |- completesWithin 0 0 (if ?x then _ else _) => destruct x
      | |- completesWithin 0 0 (let '(_, _) := ?x in _) => destruct x
      end ].

Section ToolFacts.

Variable P : Platform.
Variable W : World.

Lemma quiet_fetchApi url : completesWithin 0 0 (fetchApi W url).
Proof. unfold fetchApi. quiet. Qed.

Lemma quiet_apiFetch path : completesWithin 0 0 (apiFetch W path).
Proof. unfold apiFetch, fetchApi, json, bodyText. quiet. Qed.

Lemma quiet_readFile path : completesWithin 0 0 (readFile W path).
Proof. unfold readFile. quiet. Qed.

Lemma quiet_saveImage o b : completesWithin 0 0 (saveImage W o b).
Proof. unfold saveImage. quiet. Qed.

Lemma quiet_resolveProject o : completesWithin 0 0 (resolveProject P W o).
Proof. unfold resolveProject, firstProject, apiFetch, fetchApi, json, bodyText. quiet. Qed.

Lemma quiet_uploadSource a : completesWithin 0 0 (uploadSource P W a).
Proof. unfold uploadSource, readFile, fetchUpload, json, bodyText. quiet. Qed.

Lemma quiet_resolveSourceUrl a : completesWithin 0 0 (resolveSourceUrl P W a).
Proof.
  unfold resolveSourceUrl.
  destruct (EditImage.sourceUrl a) as [[| c r] |];
    try apply quiet_uploadSource. apply quiet_ret.
Qed.

Lemma quiet_checkSourceUrl u : completesWithin 0 0 (checkSourceUrl P u).
Proof. unfold checkSourceUrl. quiet. Qed.

Lemma quiet_resolveSource sp path : completesWithin 0 0 (resolveSource W sp path).
Proof. unfold resolveSource, uploadedDimensions, readFile. quiet. Qed.

Lemma completes_pollImage fuel url message :
  maxAttempts < fuel ->
  completesWithin maxAttempts maxAttempts (pollImage fuel P W url message).
Proof.
  intros Hf log.
  destruct (pollImage_completes P W url fuel message Hf log)
    as (c & log' & E & Hp & Hs & _).
  exists c, log'. auto.
Qed.

Lemma completes_generate_image fuel a :
  maxAttempts < fuel ->
  completesWithin maxAttempts maxAttempts (generate_image fuel P W a).
Proof.
  intros Hf. unfold generate_image.
  apply completes_then_quiet; [now apply completes_pollImage |].
  intros b. apply quiet_bind; [apply quiet_saveImage | quiet].
Qed.

Lemma completes_create_image fuel a :
  maxAttempts < fuel ->
  completesWithin maxAttempts maxAttempts (create_image fuel P W a).
Proof.
  intros Hf. unfold create_image. cbv zeta.
  apply quiet_bind; [apply quiet_resolveProject |]. intros pr.
  apply completes_then_quiet; [now apply completes_pollImage |].
  intros b. apply quiet_bind; [apply quiet_saveImage | quiet].
Qed.

Lemma completes_edit_image fuel a :
  maxAttempts < fuel ->
  completesWithin maxAttempts maxAttempts (edit_image fuel P W a).
Proof.
  intros Hf. unfold edit_image.
  apply quiet_bind; [apply quiet_resolveSourceUrl |].
  intros u. apply quiet_bind; [apply quiet_checkSourceUrl |]. intros o.
  apply quiet_bind; [apply quiet_resolveSource |].
  intros [[[d sw] sh] sf].
  apply completes_then_quiet; [now apply completes_pollImage |].
  intros b. apply quiet_bind; [apply quiet_saveImage | quiet].
Qed.

End ToolFacts.

(** C5: whatever the status endpoint, the secondary fetches and the file
    system answer, each of the three tools completes, returning a result or
    throwing, after at most sixty status requests and sixty waits of three
    seconds; any fuel above the bound of the loop is enough for the loop to
    end by itself. *)
Theorem polling_terminates_within_60_attempts :
  forall (P : Platform) (W : World) (fuel : nat),
    maxAttempts < fuel ->
    maxAttempts = 60
    /\ (forall a, completesWithin 60 60 (generate_image fuel P W a))
    /\ (forall a, completesWithin 60 60 (create_image fuel P W a))
    /\ (forall a, completesWithin 60 60 (edit_image fuel P W a))
    /\ (forall url message log, exists c log',
          pollImage fuel P W url message log = Some (c, log')
          /\ pollCount log' <= pollCount log + 60
          /\ ((exists b, c = Normal b) \/ c = Throw (Error message))).
Proof.
  intros P W fuel Hf. split; [reflexivity |].
  split; [| split; [| split]].
  - intros a. now apply completes_generate_image.
  - intros a. now apply completes_create_image.
  - intros a. now apply completes_edit_image.
  - intros url message log.
    destruct (pollImage_completes P W url fuel message Hf log)
      as (c & log' & E & Hp & Hs & Hc).
    exists c, log'. auto.
Qed.

Example decodeBase64_hi :
  decodeBase64 (lit "aGk=") = [Byte.x68; Byte.x69].
Proof. vm_compute. reflexivity. Qed.

Example parseHttps_source :
  parseHttps (lit "https://img.inliner.ai/proj/cat_800x800.png?v=2")
  = Some {| hostname := lit "img.inliner.ai";
            pathname := lit "/proj/cat_800x800.png";
            search := lit "?v=2" |}.
Proof. vm_compute. reflexivity. Qed.

Example duck_urls :
  pollUrlOf failedWorld
    (pathPart (GenerateImage.project duckArgs)
       (GenerateImage.description duckArgs) (GenerateImage.width duckArgs)
       (GenerateImage.height duckArgs) (GenerateImage.format duckArgs))
  = duckPollUrl
  /\ timeoutMessage (lit "Image generation")
       (IMG_BASE ++ [slash]
          ++ pathPart (lit "proj") (lit "Happy Duck!!") 800 600 png)
     = duckTimeout.
Proof. split; vm_compute; reflexivity. Qed.

Lemma polling_terminates_within_60_attempts_witness :
  completesWithin 60 60 (generate_image 61 samplePlatform failedWorld duckArgs).
Proof.
  apply (polling_terminates_within_60_attempts samplePlatform failedWorld 61).
  unfold maxAttempts. lia.
Defined.

(** ** Outcomes of single runs *)

(** C1, at the input where it fails: the status endpoint answers every
    request with HTTP 500 and a body that says [FAILED].  The [throw] of the
    first iteration is caught, [status] still holds ["PENDING"], nothing is
    thrown on, and the loop issues all sixty status requests before the
    tool throws the time-out error. *)
Theorem failed_job_is_polled_to_timeout :
  forall (P : Platform) (n : nat),
    generate_image (61 + n) P failedWorld duckArgs []
    = Some (Throw (Error duckTimeout), waitTrace duckPollUrl 60)
    /\ pollCount (waitTrace duckPollUrl 60) = 60
    /\ iteration P failedWorld duckPollUrl initialState []
       = Some (Normal (initialState, Next), [EvPoll duckPollUrl]).
Proof.
  intros P n. split; [| split].
  - unfold generate_image. unfold bind at 1.
    destruct duck_urls as [U T]. unfold duckArgs in U. cbn [GenerateImage.project
      GenerateImage.description GenerateImage.width GenerateImage.height
      GenerateImage.format] in U.
    cbn [duckArgs GenerateImage.project GenerateImage.description
         GenerateImage.width GenerateImage.height GenerateImage.format].
    rewrite U, T.
    change (61 + n) with (maxAttempts + S n).
    rewrite pollImage_timeout; [reflexivity |].
    intros j _. reflexivity.
  - apply pollCount_waitTrace.
  - apply (iteration_noMedia P failedWorld duckPollUrl initialState []);
      reflexivity.
Qed.

(** The same endpoint, when the job is reported as failed once and as done
    afterwards: the second answer is what the tool returns. *)
Example failure_then_success :
  forall P : Platform,
    pollImage 61 P
      (worldOf (fun k => match k with
                         | O => FetchResolves failedResponse
                         | S _ => FetchResolves
                                    (readyResponse (lit "data:image/png;base64,aGk="))
                         end) noImage)
      duckPollUrl duckTimeout []
    = Some (Normal (Buffer_from_base64 P (lit "aGk=")),
            [EvPoll duckPollUrl; EvSleep 3000; EvPoll duckPollUrl]).
Proof.
  intros P.
  change 61 with (1 + S 59).
  rewrite (pollImage_break_at P _ duckPollUrl 1 59 duckTimeout []
             (setBuffer (atAttempt 1 initialState)
                (Buffer_from_base64 P (lit "aGk=")))
             (Buffer_from_base64 P (lit "aGk=")) [EvPoll duckPollUrl]).
  - reflexivity.
  - unfold maxAttempts. lia.
  - intros j Hj. destruct j; [reflexivity | lia].
  - intros l.
    apply (iteration_dataUrl P _ duckPollUrl (atAttempt 1 initialState) l
             (readyResponse (lit "data:image/png;base64,aGk="))
             (mediaBody (lit "data:image/png;base64,aGk="))
             (lit "image/png;base64") (lit "aGk="));
      try reflexivity. discriminate.
  - reflexivity.
Qed.

Section Outcomes.

Lemma mediaAssetData_not_null v d : mediaAssetData v = Some d -> v <> JNull.
Proof. intros H E. subst v. discriminate. Qed.

Lemma accepted_noMedia r :
  res_status r = 202%N -> carriesMedia r = false ->
  noMedia (FetchResolves r) = true.
Proof. intros _ H. unfold noMedia. now rewrite H, andb_false_r. Qed.

Lemma res_ok_200 r : res_status r = 200%N -> res_ok r = true.
Proof. unfold res_ok. now intros ->. Qed.

End Outcomes.

(** C6: the status endpoint answers 202, without a media payload, to the
    first twenty-nine requests, and 200 with a base64 data URL in
    [mediaAsset.data] to the thirtieth.  Then generate_image succeeds after
    exactly thirty status requests, and the bytes it holds, saves and
    measures are the decoding of the text after the comma. *)
Theorem ready_on_attempt_30 :
  forall (P : Platform) (W : World) (a : GenerateImage.Args) (fuel : nat)
         (r30 : Response) (v : JSON) (meta payload : jsstring),
    let path := pathPart (GenerateImage.project a) (GenerateImage.description a)
                  (GenerateImage.width a) (GenerateImage.height a)
                  (GenerateImage.format a) in
    let url := pollUrlOf W path in
    let decoded := Buffer_from_base64 P payload in
    maxAttempts < fuel ->
    (forall j, j < 29 ->
       exists r, fetch_poll W url j = FetchResolves r
                 /\ res_status r = 202%N /\ carriesMedia r = false) ->
    fetch_poll W url 29 = FetchResolves r30 ->
    res_status r30 = 200%N ->
    res_json r30 = inr v ->
    mediaAssetData v = Some (JStr (lit "data:" ++ meta ++ comma :: payload)) ->
    avoids comma meta = true -> avoids comma payload = true ->
    (forall p, fs_save W p decoded = None) ->
    forall message,
      pollImage fuel P W url message []
      = Some (Normal decoded, waitTrace url 29 ++ [EvPoll url])
      /\ pollCount (waitTrace url 29 ++ [EvPoll url]) = 30
      /\ exists result log,
           generate_image fuel P W a [] = Some (Normal result, log)
           /\ isError result = false
           /\ pollCount log = 30
           /\ (forall p, GenerateImage.outputPath a = Some p -> p <> [] ->
                 In (EvSave p decoded) log).
Proof.
  intros P W a fuel r30 v meta payload path url decoded
         Hf Hpend H30 Hst Hj Hd Hm Hp Hsave.
  assert (Hrun : forall message,
             pollImage fuel P W url message []
             = Some (Normal decoded, waitTrace url 29 ++ [EvPoll url])).
  { intros message.
    replace fuel with (29 + S (fuel - 30)) by (unfold maxAttempts in Hf; lia).
    apply (pollImage_break_at P W url 29 (fuel - 30) message []
             (setBuffer (atAttempt 29 initialState) decoded)).
    - unfold maxAttempts. lia.
    - intros j Hlt. destruct (Hpend j Hlt) as (r & Er & Es & Ec).
      rewrite Er. now apply accepted_noMedia.
    - intros l.
      apply (iteration_dataUrl P W url (atAttempt 29 initialState) l r30 v
               meta payload); trivial.
      + now apply res_ok_200.
      + now apply (mediaAssetData_not_null v _ Hd).
    - reflexivity. }
  assert (Hc : pollCount (waitTrace url 29 ++ [EvPoll url]) = 30).
  { rewrite pollCount_app, pollCount_waitTrace. reflexivity. }
  intros message. split; [apply Hrun |]. split; [exact Hc |].
  unfold generate_image. fold path. fold url. unfold bind at 1.
  rewrite Hrun. unfold saveImage.
  destruct (GenerateImage.outputPath a) as [[| c p] |].
  - eexists. eexists. split; [reflexivity |].
    split; [reflexivity |]. split; [exact Hc |].
    intros p E Hne. inversion E. subst. contradiction.
  - unfold bind, emit. rewrite Hsave. unfold ret.
    eexists. eexists. split; [reflexivity |].
    split; [reflexivity |]. split.
    + rewrite pollCount_app, Hc. reflexivity.
    + intros p' E _. inversion E. subst. apply in_or_app. right. now left.
  - eexists. eexists. split; [reflexivity |].
    split; [reflexivity |]. split; [exact Hc |].
    intros p E. discriminate.
Qed.

Lemma ready_on_attempt_30_witness :
  pollImage 61 samplePlatform readyAt30 duckPollUrl duckTimeout []
  = Some (Normal [Byte.x68; Byte.x69],
          waitTrace duckPollUrl 29 ++ [EvPoll duckPollUrl]).
Proof.
  apply (ready_on_attempt_30 samplePlatform readyAt30 duckArgs 61
           (readyResponse (lit "data:image/png;base64,aGk="))
           (mediaBody (lit "data:image/png;base64,aGk="))
           (lit "image/png;base64") (lit "aGk=")).
  - unfold maxAttempts. lia.
  - intros j Hj. exists acceptedResponse. repeat split.
    simpl. apply Nat.ltb_lt in Hj. now rewrite Hj.
  - reflexivity.
  - reflexivity.
  - reflexivity.
  - reflexivity.
  - reflexivity.
  - reflexivity.
  - reflexivity.
Defined.

(** C10: when the first response that carries a media payload holds a
    string that does not start with [data:], that string is fetched and the
    body of the answer is the image, whatever the status of the answer is:
    the run ends there with these bytes. *)
Theorem plain_url_payload_is_not_checked :
  forall (P : Platform) (W : World) (url message : jsstring) (fuel k : nat)
         (r : Response) (v : JSON) (dataUrl : jsstring) (imgStatus : N)
         (body : bytes),
    maxAttempts < fuel -> k < maxAttempts ->
    (forall j, j < k -> noMedia (fetch_poll W url j) = true) ->
    fetch_poll W url k = FetchResolves r ->
    res_ok r = true -> res_json r = inr v ->
    mediaAssetData v = Some (JStr dataUrl) -> dataUrl <> [] ->
    startsWith dataUrl (lit "data:") = false ->
    fetch_image W dataUrl k
    = ImageResolves {| img_status := imgStatus; img_arrayBuffer := inr body |} ->
    pollImage fuel P W url message []
    = Some (Normal body, waitTrace url k ++ [EvPoll url] ++ [EvImage dataUrl]).
Proof.
  intros P W url message fuel k r v dataUrl imgStatus body
         Hf Hk Hno Hr Hok Hj Hd Hne Hs Hi.
  replace fuel with (k + S (fuel - S k)) by lia.
  apply (pollImage_break_at P W url k (fuel - S k) message []
           (setBuffer (atAttempt k initialState) body)); trivial.
  intros l.
  apply (iteration_plainUrl P W url (atAttempt k initialState) l r v dataUrl
           imgStatus body); trivial.
  now apply (mediaAssetData_not_null v _ Hd).
Qed.

Lemma plain_url_payload_is_not_checked_witness :
  pollImage 61 samplePlatform readyWithDeadLink duckPollUrl duckTimeout []
  = Some (Normal notFoundBody, [EvPoll duckPollUrl] ++ [EvImage cdnUrl]).
Proof.
  apply (plain_url_payload_is_not_checked samplePlatform readyWithDeadLink
           duckPollUrl duckTimeout 61 0 (readyResponse cdnUrl)
           (mediaBody cdnUrl) cdnUrl 404 notFoundBody).
  - unfold maxAttempts. lia.
  - unfold maxAttempts. lia.
  - intros j Hj. lia.
  - reflexivity.
  - reflexivity.
  - reflexivity.
  - reflexivity.
  - discriminate.
  - reflexivity.
  - reflexivity.
Defined.

(** ** Error propagation *)

Section Propagation.

Variable P : Platform.
Variable W : World.

Lemma throwsOnFailure_generate_image fuel a :
  throwsOnFailure (generate_image fuel P W a).
Proof.
  unfold generate_image.
  apply throwsOnFailure_bind. intros b.
  apply throwsOnFailure_bind. intros _.
  now apply throwsOnFailure_ret.
Qed.

Lemma throwsOnFailure_create_image fuel a :
  throwsOnFailure (create_image fuel P W a).
Proof.
  unfold create_image. cbv zeta.
  apply throwsOnFailure_bind. intros pr.
  apply throwsOnFailure_bind. intros b.
  apply throwsOnFailure_bind. intros _.
  now apply throwsOnFailure_ret.
Qed.

Lemma throwsOnFailure_edit_image fuel a :
  throwsOnFailure (edit_image fuel P W a).
Proof.
  unfold edit_image.
  apply throwsOnFailure_bind. intros u.
  apply throwsOnFailure_bind. intros o.
  apply throwsOnFailure_bind. intros [[[d sw] sh] sf].
  apply throwsOnFailure_bind. intros b.
  apply throwsOnFailure_bind. intros _.
  now apply throwsOnFailure_ret.
Qed.

Lemma listing_catches path errorPrefix :
  catchesAtBoundary P W path errorPrefix (listing P W path errorPrefix).
Proof.
  intros log.
  destruct (quiet_apiFetch W path log) as (c & log' & E & _).
  exists log'. unfold listing, tryCatch, bind. rewrite E.
  destruct c as [data | e]; [left; exists data | right; exists e]; auto.
Qed.

Lemma catchesAtBoundary_neverThrows path errorPrefix m :
  catchesAtBoundary P W path errorPrefix m -> neverThrows m.
Proof.
  intros H log. destruct (H log) as (log' & [(d & _ & E) | (e & _ & E)]);
    eexists; eexists; exact E.
Qed.

Lemma generate_image_timeout fuel a log :
  let path := pathPart (GenerateImage.project a) (GenerateImage.description a)
                (GenerateImage.width a) (GenerateImage.height a)
                (GenerateImage.format a) in
  (forall j, j < maxAttempts ->
     noMedia (fetch_poll W (pollUrlOf W path) j) = true) ->
  generate_image (maxAttempts + S fuel) P W a log
  = Some (Throw (Error (timeoutMessage (lit "Image generation")
                          (IMG_BASE ++ [slash] ++ path))),
          log ++ waitTrace (pollUrlOf W path) maxAttempts).
Proof.
  intros path Hno. unfold generate_image. fold path. unfold bind at 1.
  now rewrite pollImage_timeout.
Qed.

Lemma edit_image_without_source fuel a log :
  truthyStr (EditImage.sourceUrl a) = false ->
  truthyStr (EditImage.sourcePath a) = false ->
  edit_image fuel P W a log
  = Some (Throw (Error (lit "Either sourceUrl or sourcePath must be provided.")),
          log).
Proof.
  intros Hu Hp. unfold edit_image, resolveSourceUrl, uploadSource, bind.
  destruct (EditImage.sourceUrl a) as [[| c r] |]; try discriminate;
    destruct (EditImage.sourcePath a) as [[| c' r'] |]; try discriminate;
    reflexivity.
Qed.

Lemma generate_image_save_fails fuel a p m log b log' :
  GenerateImage.outputPath a = Some p -> p <> [] ->
  pollImage fuel P W
    (pollUrlOf W (pathPart (GenerateImage.project a) (GenerateImage.description a)
                    (GenerateImage.width a) (GenerateImage.height a)
                    (GenerateImage.format a)))
    (timeoutMessage (lit "Image generation")
       (IMG_BASE ++ [slash]
          ++ pathPart (GenerateImage.project a) (GenerateImage.description a)
               (GenerateImage.width a) (GenerateImage.height a)
               (GenerateImage.format a))) log
  = Some (Normal b, log') ->
  fs_save W p b = Some m ->
  generate_image fuel P W a log
  = Some (Throw (Rejected m), log' ++ [EvSave p b]).
Proof.
  intros Hp Hne Hrun Hs. unfold generate_image. unfold bind at 1.
  rewrite Hrun. unfold saveImage. rewrite Hp.
  destruct p as [| c r]; [contradiction |].
  unfold bind, emit. now rewrite Hs.
Qed.

End Propagation.

Example get_projects_offline :
  get_projects samplePlatform failedWorld []
  = Some (Normal {| text := lit "Error fetching projects: fetch failed";
                    isError := true |},
          [EvApi (lit "https://api.inliner.ai/account/projects")]).
Proof. vm_compute. reflexivity. Qed.

(** ** The source of an edit *)

Section SourceCheck.

Variable P : Platform.
Variable W : World.

Lemma checkSourceUrl_spec u log :
  checkSourceUrl P u log
  = match URL_parse P u with
    | Some o => if hostAccepted o then Some (Normal o, log)
                else Some (Throw (invalidUrl u), log)
    | None => Some (Throw (invalidUrl u), log)
    end.
Proof.
  unfold checkSourceUrl, hostAccepted.
  destruct (URL_parse P u) as [o |]; [| reflexivity].
  destruct (endsWith (hostname o) (lit "img.inliner.ai")); reflexivity.
Qed.

(** Once the source URL is known and rejected, edit_image throws at once. *)
Lemma edit_image_rejects fuel a log u log1 :
  resolveSourceUrl P W a log = Some (Normal u, log1) ->
  (forall o, URL_parse P u = Some o -> hostAccepted o = false) ->
  edit_image fuel P W a log = Some (Throw (invalidUrl u), log1).
Proof.
  intros Hr Hrej. unfold edit_image. unfold bind at 1. rewrite Hr.
  unfold bind at 1. rewrite checkSourceUrl_spec.
  destruct (URL_parse P u) as [o |] eqn:E; [| reflexivity].
  now rewrite (Hrej o eq_refl).
Qed.

(** A run of edit_image that issues a status request has a source URL that
    parses and whose host name passed the check. *)
Lemma edit_image_polls_accepted fuel a log c log' :
  edit_image fuel P W a log = Some (c, log') ->
  pollCount log < pollCount log' ->
  exists u o log1,
    resolveSourceUrl P W a log = Some (Normal u, log1)
    /\ URL_parse P u = Some o /\ hostAccepted o = true.
Proof.
  intros Hrun Hpoll.
  destruct (quiet_resolveSourceUrl P W a log) as (c1 & log1 & E1 & Hp1 & _).
  unfold edit_image in Hrun. unfold bind at 1 in Hrun. rewrite E1 in Hrun.
  destruct c1 as [u | e].
  - unfold bind at 1 in Hrun. rewrite checkSourceUrl_spec in Hrun.
    destruct (URL_parse P u) as [o |] eqn:Eo.
    + destruct (hostAccepted o) eqn:Eh.
      * exists u, o, log1. auto.
      * inversion Hrun. subst. lia.
    + inversion Hrun. subst. lia.
  - inversion Hrun. subst. lia.
Qed.

End SourceCheck.

(** C4 as stated fails: a source on the host [cdn-img.inliner.ai], which is
    not the image host, passes the check, and edit_image goes on to poll
    the status endpoint for the edit, sixty times in a world where the job
    never completes. *)
Lemma other_host_is_accepted :
  URL_parse samplePlatform (lit "https://cdn-img.inliner.ai/proj/cat_800x800.png")
  = Some {| hostname := lit "cdn-img.inliner.ai";
            pathname := lit "/proj/cat_800x800.png";
            search := [] |}
  /\ streq (lit "cdn-img.inliner.ai") (lit "img.inliner.ai") = false
  /\ edit_image 61 samplePlatform failedWorld otherHostEdit []
     = Some (Throw (Error (lit "Image edit timeout after 180 seconds. URL: https://img.inliner.ai/proj/cat_800x800.png/make-it-blue-900x800.png")),
             waitTrace (lit "https://api.inliner.ai/content/request-json/proj/cat_800x800.png/make-it-blue-900x800.png") 60)
  /\ pollCount
       (waitTrace (lit "https://api.inliner.ai/content/request-json/proj/cat_800x800.png/make-it-blue-900x800.png") 60)
     = 60.
Proof. repeat split; vm_compute; reflexivity. Qed.

(** A host that only starts with the name of the image host is turned
    away before anything is requested. *)
Example third_party_host_is_rejected :
  edit_image 61 samplePlatform failedWorld thirdPartyEdit []
  = Some (Throw (Error (lit "Invalid Inliner image URL: https://img.inliner.ai.example.com/proj/cat_800x800.png")),
          []).
Proof. vm_compute. reflexivity. Qed.

(** C4, amended: the check is on the end of the host name.  When the source
    URL, given or obtained from an upload, does not parse, or its host name
    does not end with [img.inliner.ai], edit_image throws the error for an
    invalid URL with the trace as the resolution of the source left it, and
    no status request is added; conversely a run that issues a status
    request has a source whose host name ends with [img.inliner.ai]. *)
Theorem source_host_is_checked_by_suffix :
  forall (P : Platform) (W : World) (fuel : nat) (a : EditImage.Args)
         (log : list Event),
    (forall u log1,
        resolveSourceUrl P W a log = Some (Normal u, log1) ->
        (forall o, URL_parse P u = Some o ->
                   endsWith (hostname o) (lit "img.inliner.ai") = false) ->
        edit_image fuel P W a log = Some (Throw (invalidUrl u), log1)
        /\ pollCount log1 <= pollCount log)
    /\ (forall u, EditImage.sourceUrl a = Some u -> u <> [] ->
          (forall o, URL_parse P u = Some o ->
                     endsWith (hostname o) (lit "img.inliner.ai") = false) ->
          edit_image fuel P W a log = Some (Throw (invalidUrl u), log))
    /\ (forall c log',
          edit_image fuel P W a log = Some (c, log') ->
          pollCount log < pollCount log' ->
          exists u o log1,
            resolveSourceUrl P W a log = Some (Normal u, log1)
            /\ URL_parse P u = Some o
            /\ endsWith (hostname o) (lit "img.inliner.ai") = true).
Proof.
  intros P W fuel a log. split; [| split].
  - intros u log1 Hr Hrej. split.
    + now apply edit_image_rejects.
    + destruct (quiet_resolveSourceUrl P W a log) as (c & l & E & Hp & _).
      rewrite Hr in E. inversion E. subst. lia.
  - intros u Hu Hne Hrej. apply edit_image_rejects; [| exact Hrej].
    unfold resolveSourceUrl. rewrite Hu.
    destruct u as [| c r]; [contradiction | reflexivity].
  - intros c log' Hrun Hpoll.
    exact (edit_image_polls_accepted P W fuel a log c log' Hrun Hpoll).
Qed.

Lemma source_host_is_checked_by_suffix_witness :
  edit_image 61 samplePlatform failedWorld thirdPartyEdit []
  = Some (Throw (invalidUrl (lit "https://img.inliner.ai.example.com/proj/cat_800x800.png")),
          []).
Proof.
  apply (proj1 (proj2 (source_host_is_checked_by_suffix samplePlatform
                         failedWorld 61 thirdPartyEdit []))).
  - reflexivity.
  - discriminate.
  - intros o Ho. vm_compute in Ho. inversion Ho. vm_compute. reflexivity.
Defined.

(** * Further properties of the code *)

(** ** Start-up: the API key *)

Section StartupFacts.

Lemma nth_error_split_second sep a k t :
  avoids sep a = true -> avoids sep k = true ->
  t = [] \/ (exists r, t = sep :: r) ->
  nth_error (split sep (a ++ sep :: k ++ t)) 1 = Some k.
Proof.
  intros Ha Hk Ht. rewrite split_app, (split_avoids _ _ Ha).
  destruct Ht as [-> | [r ->]].
  - rewrite app_nil_r, (split_avoids _ _ Hk). reflexivity.
  - rewrite split_app, (split_avoids _ _ Hk). reflexivity.
Qed.

End StartupFacts.

(** X1: [getApiKey] never returns an empty key: it yields the environment
    variable whenever that is set and not empty, whatever the arguments,
    and otherwise a key only if an argument supplies a non-empty one. *)
Theorem getApiKey_never_empty :
  forall (env : option jsstring) (argv : list jsstring),
    (forall key, getApiKey env argv = Some key -> key <> [])
    /\ (forall key, env = Some key -> key <> [] ->
          getApiKey env argv = Some key)
    /\ (truthyStr env = false -> findApiKeyArg argv = None ->
          getApiKey env argv = None).
Proof.
  intros env argv. split; [| split].
  - intros key H. unfold getApiKey in H.
    destruct (match env with
              | Some (c :: r) => Some (c :: r)
              | _ => match findApiKeyArg argv with
                     | Some a => nth_error (split equalsSign a) 1
                     | None => None
                     end
              end) as [[| c r] |]; try discriminate.
    inversion H. discriminate.
  - intros key -> Hne. destruct key as [| c r]; [contradiction | reflexivity].
  - intros He Hf. unfold getApiKey. rewrite Hf.
    destruct env as [[| c r] |]; try discriminate; reflexivity.
Qed.

Lemma getApiKey_never_empty_witness :
  getApiKey (Some (lit "sk-live")) [lit "node"; lit "--api-key=other"]
  = Some (lit "sk-live").
Proof.
  apply (proj1 (proj2 (getApiKey_never_empty (Some (lit "sk-live"))
                         [lit "node"; lit "--api-key=other"]))).
  - reflexivity.
  - discriminate.
Defined.

(** X2: a key given as [--api-key=KEY] is cut at the first equals sign
    inside KEY: with the environment variable unset, the key is the text
    between the first and the second equals sign of the argument, and the
    process exits when that text is empty. *)
Theorem getApiKey_argument_cut_at_equals :
  forall (env : option jsstring) (argv : list jsstring) (key rest : jsstring),
    truthyStr env = false ->
    findApiKeyArg argv = Some (lit "--api-key=" ++ key ++ rest) ->
    avoids equalsSign key = true ->
    rest = [] \/ (exists r, rest = equalsSign :: r) ->
    getApiKey env argv = match key with
                         | [] => None
                         | _ :: _ => Some key
                         end.
Proof.
  intros env argv key rest He Hf Hk Hr. unfold getApiKey. rewrite Hf.
  change (lit "--api-key=" ++ key ++ rest)
    with (lit "--api-key" ++ equalsSign :: key ++ rest).
  rewrite (nth_error_split_second equalsSign (lit "--api-key") key rest
             eq_refl Hk Hr).
  destruct env as [[| c r] |]; try discriminate; destruct key; reflexivity.
Qed.

Lemma getApiKey_argument_cut_at_equals_witness :
  getApiKey None [lit "node"; lit "index.js"; lit "--api-key=c2VjcmV0=="]
  = Some (lit "c2VjcmV0").
Proof.
  apply (getApiKey_argument_cut_at_equals None
           [lit "node"; lit "index.js"; lit "--api-key=c2VjcmV0=="]
           (lit "c2VjcmV0") (lit "==")).
  - reflexivity.
  - reflexivity.
  - reflexivity.
  - right. exists (lit "="). reflexivity.
Defined.

(** ** The table of recommended dimensions *)

(** X3: every use case has at least one recommendation, and every
    recommended width and height lies in the range 100..4096 that the
    generating tools accept. *)
Theorem recommended_dimensions_in_range :
  forall (useCase : Dimensions.UseCase),
    Dimensions.dimensions useCase <> []
    /\ forall r, In r (Dimensions.dimensions useCase) ->
         inRange (Dimensions.rec_width r) = true
         /\ inRange (Dimensions.rec_height r) = true.
Proof.
  intros useCase. split.
  - destruct useCase; discriminate.
  - intros r Hr.
    destruct useCase; simpl in Hr;
      repeat (destruct Hr as [<- | Hr]; [split; reflexivity |]);
      contradiction.
Qed.

Lemma recommended_dimensions_in_range_witness :
  inRange 1280 = true /\ inRange 720 = true.
Proof.
  apply (proj2 (recommended_dimensions_in_range Dimensions.youtube)
           (Dimensions.mkRecommendation 1280 720 (lit "YouTube thumbnail, 16:9"))).
  left. reflexivity.
Defined.

(** ** create_project *)

(** X4: create_project never throws and issues exactly one request, to
    [API_BASE/account/projects]; its result is a success exactly when the
    request is answered, the body parses as JSON with a truthy [success]
    field, and the HTTP status is 2xx.  A body whose [success] is falsy is
    reported as an error even under status 200. *)
Theorem create_project_success_iff :
  forall (P : Platform) (W : World) (post : jsstring -> JSON -> FetchOutcome)
         (a : Projects.Args) (log : list Event),
    let url := API_BASE W ++ lit "/account/projects" in
    exists r,
      Projects.create_project P W post a log
      = Some (Normal r, log ++ [EvApi url])
      /\ (isError r = false <->
          exists res data,
            post url (Projects.requestBody a) = FetchResolves res
            /\ res_json res = inr data
            /\ truthyOpt (getProp data (lit "success")) = true
            /\ res_ok res = true).
Proof.
  intros P W post a log url.
  unfold Projects.create_project, Projects.createProjectBody.
  fold url.
  cbv [tryCatch bind emit json bodyText ret throw].
  destruct (post url (Projects.requestBody a)) as [m | res] eqn:Ep.
  { eexists. split; [reflexivity |]. split; [discriminate |].
    intros (res & data & E & _). discriminate. }
  destruct (res_json res) as [m | data] eqn:Ej.
  { eexists. split; [reflexivity |]. split; [discriminate |].
    intros (res' & data' & E & Ej' & _). inversion E. subst res'.
    rewrite Ej in Ej'. discriminate. }
  assert (Hcases :
            forall r,
              (truthyOpt (getProp data (lit "success")) && res_ok res = true
               <-> isError r = false) ->
              (isError r = false <->
               exists res0 data0,
                 FetchResolves res = FetchResolves res0
                 /\ res_json res0 = inr data0
                 /\ truthyOpt (getProp data0 (lit "success")) = true
                 /\ res_ok res0 = true)).
  { intros r Hr. split.
    - intros Hf. apply Hr in Hf. apply andb_true_iff in Hf.
      exists res, data. tauto.
    - intros (res0 & data0 & E & Ej' & Hs & Hok). inversion E. subst res0.
      rewrite Ej in Ej'. inversion Ej'. subst data0.
      apply Hr. now rewrite Hs, Hok. }
  destruct data;
    [ eexists; (split; [reflexivity |]); apply Hcases;
      cbn [isError failure getProp truthyOpt andb]; split; congruence
    | .. ];
    (destruct (truthyOpt (getProp _ (lit "success"))) eqn:Hs;
     cbn [negb]; [destruct (res_ok res) eqn:Hok; cbn [negb] |]);
    eexists; (split; [reflexivity |]); apply Hcases;
    cbn [isError failure success]; rewrite ?Hs, ?Hok; cbn [andb];
    split; congruence.
Qed.

(** ** The read-only tools *)

Section ListingFacts.

Variable P : Platform.
Variable W : World.

(** The one request of [apiFetch] and its outcomes, seen through the
    boundary of a read-only tool. *)
Lemma listing_outcomes path errorPrefix log :
  let url := API_BASE W ++ [slash] ++ path in
  listing P W path errorPrefix log
  = Some (Normal (boundaryResult P errorPrefix (fetch_api W url)),
          log ++ [EvApi url]).
Proof.
  intros url. unfold listing, apiFetch, fetchApi, boundaryResult. fold url.
  cbv [tryCatch bind emit json bodyText ret throw].
  destruct (fetch_api W url) as [m | res]; [reflexivity |].
  destruct (res_ok res); cbn [negb].
  - destruct (res_json res); reflexivity.
  - destruct (res_text res); reflexivity.
Qed.

End ListingFacts.

(** X5: each of the five read-only tools issues exactly one request, to
    its own URL under [API_BASE], and never throws; what it returns is
    determined by the answer.  A 2xx answer whose body parses is returned
    as indented JSON; every other outcome is returned with [isError] set,
    as the prefix of the tool followed by: the message of the rejection
    when the request is rejected; [API error <status>: <body>] when the
    answer is not 2xx; the message of the rejection when the body of a
    non-2xx answer cannot be read or the body of a 2xx answer does not
    parse.  list_images appends [&projectId=] for an id that is not empty,
    and renders the limit as the number it was given. *)
Theorem read_only_tool_error_text :
  forall (P : Platform) (W : World) (log : list Event),
    let answered := fun (prefix url : jsstring) (m : M ToolResult) =>
      exists r,
        m log = Some (Normal r, log ++ [EvApi (API_BASE W ++ url)])
        /\ match fetch_api W (API_BASE W ++ url) with
           | FetchRejects m =>
               r = {| text := prefix ++ m; isError := true |}
           | FetchResolves res =>
               if res_ok res then
                 match res_json res with
                 | inr data =>
                     r = {| text := JSON_stringify P data 2; isError := false |}
                 | inl m => r = {| text := prefix ++ m; isError := true |}
                 end
               else
                 match res_text res with
                 | inr body =>
                     r = {| text := prefix ++ lit "API error "
                                      ++ numberToString (res_status res)
                                      ++ lit ": " ++ body;
                            isError := true |}
                 | inl m => r = {| text := prefix ++ m; isError := true |}
                 end
           end in
    answered (lit "Error fetching projects: ") (lit "/account/projects")
      (get_projects P W)
    /\ (forall projectId,
          answered (lit "Error fetching project: ")
            (lit "/account/projects/" ++ projectId)
            (get_project_details P W projectId))
    /\ answered (lit "Error fetching usage: ") (lit "/account/plan-usage")
         (get_usage P W)
    /\ answered (lit "Error fetching plan: ") (lit "/account/current-plan")
         (get_current_plan P W)
    /\ (forall projectId limit,
          projectId <> [] ->
          answered (lit "Error fetching images: ")
            (lit "/content/images?limit=" ++ renderNumber limit
               ++ lit "&projectId=" ++ projectId)
            (list_images P W (Some projectId) limit))
    /\ (forall limit,
          list_images P W (Some []) limit = list_images P W None limit
          /\ answered (lit "Error fetching images: ")
               (lit "/content/images?limit=" ++ renderNumber limit)
               (list_images P W None limit)).
Proof.
  intros P W log answered.
  assert (L : forall path prefix,
             answered prefix (slash :: path) (listing P W path prefix)).
  { intros path prefix. unfold answered. rewrite listing_outcomes.
    change (API_BASE W ++ [slash] ++ path) with (API_BASE W ++ slash :: path).
    eexists. split; [reflexivity |].
    unfold boundaryResult.
    destruct (fetch_api W (API_BASE W ++ slash :: path)) as [m | res];
      [reflexivity |].
    destruct (res_ok res).
    - destruct (res_json res); reflexivity.
    - destruct (res_text res); reflexivity. }
  split; [apply L |]. split; [intros projectId; apply L |].
  split; [apply L |]. split; [apply L |]. split.
  - intros projectId limit Hne. unfold list_images.
    destruct projectId as [| c r]; [contradiction |].
    pose proof (L (lit "content/images?limit=" ++ renderNumber limit
                     ++ lit "&projectId=" ++ c :: r)
                  (lit "Error fetching images: ")) as H.
    exact H.
  - intros limit. split; [reflexivity |].
    unfold list_images.
    pose proof (L (lit "content/images?limit=" ++ renderNumber limit ++ [])
                  (lit "Error fetching images: ")) as H.
    rewrite app_nil_r in H. rewrite app_nil_r. exact H.
Qed.

Lemma read_only_tool_error_text_witness :
  exists r,
    list_images samplePlatform failedWorld (Some (lit "p1"))
      {| whole := 20; fraction := Decimal.D5 Decimal.Nil |} []
    = Some (Normal r,
            [EvApi (lit "https://api.inliner.ai/content/images?limit=20.5&projectId=p1")])
    /\ r = {| text := lit "Error fetching images: fetch failed";
              isError := true |}.
Proof.
  apply (proj1 (proj2 (proj2 (proj2 (proj2
           (read_only_tool_error_text samplePlatform failedWorld [])))))
           (lit "p1") {| whole := 20; fraction := Decimal.D5 Decimal.Nil |}).
  discriminate.
Defined.

Lemma create_project_success_iff_witness :
  exists r,
    Projects.create_project samplePlatform failedWorld
      (fun _ _ => FetchResolves
                    {| res_status := 200;
                       res_text := inr (lit "{}");
                       res_json := inr (JObj [(lit "success", JBool false)]) |})
      (Projects.mkArgs (lit "my-project") (lit "My Project") None false) []
    = Some (Normal r, [EvApi (lit "https://api.inliner.ai/account/projects")])
    /\ isError r = true.
Proof.
  destruct (create_project_success_iff samplePlatform failedWorld
              (fun _ _ => FetchResolves
                            {| res_status := 200;
                               res_text := inr (lit "{}");
                               res_json := inr (JObj [(lit "success", JBool false)]) |})
              (Projects.mkArgs (lit "my-project") (lit "My Project") None false) [])
    as (r & E & Hiff).
  exists r. split; [exact E |].
  destruct (isError r) eqn:Er; [reflexivity |].
  destruct (proj1 Hiff eq_refl) as (res & data & Ep & Ej & Hs & _).
  inversion Ep. subst res. inversion Ej. subst data. discriminate.
Defined.

(** ** More on the polling loop *)

Section PollerTrace.

Variable P : Platform.
Variable W : World.
Variable pollUrl : jsstring.

Lemma streq_refl s : streq s s = true.
Proof. induction s as [| c s IH]; simpl; [reflexivity |]. now rewrite N.eqb_refl. Qed.

Lemma loopEvent_poll : loopEvent pollUrl (EvPoll pollUrl) = true.
Proof. apply streq_refl. Qed.

(** One iteration adds a status request, and a secondary fetch at most. *)
Lemma iteration_trace st log :
  status st = PENDING ->
  exists st' fl tr,
    iteration P W pollUrl st log = Some (Normal (st', fl), log ++ tr)
    /\ forallb (loopEvent pollUrl) tr = true
    /\ pollCount tr = 1 /\ sleepCount tr = 0
    /\ status st' = PENDING /\ attempt st' = attempt st
    /\ match fl with
       | Next => imageBuffer st' = imageBuffer st
       | Break => imageBuffer st' <> None
       end.
Proof.
  intros Hst.
  cbv [iteration tryCatch tryBlock bind fetchPoll fetchImage emit
       json bodyText arrayBuffer readData ret throw].
  rewrite Hst.
  repeat (cbv beta iota;
          match goal with
          | |- context [match ?x with _ => _ end] =>
              lazymatch x with
              | context [match _ with _ => _ end] => fail
              | _ => destruct x eqn:?
              end
          end);
    first
      [ exists st; eexists; exists [EvPoll pollUrl];
        split; [reflexivity |]
      | eexists; eexists; exists [EvPoll pollUrl];
        split; [reflexivity |]
      | eexists; eexists; eexists [EvPoll pollUrl; EvImage _];
        split; [rewrite <- app_assoc; reflexivity |] ];
    cbn [forallb loopEvent andb]; rewrite ?streq_refl;
    repeat split; auto; try discriminate.
Qed.

(** The whole loop from an attempt [maxAttempts - n], for a state without
    image: every event it adds is a status request to [pollUrl], a secondary
    fetch or a wait of three seconds; a run that ends with an image has
    waited once between two requests and not after the last; a run that
    ends without has made and waited out all [n] remaining attempts. *)
Lemma pollLoop_trace n : forall fuel st log,
  status st = PENDING -> imageBuffer st = None ->
  attempt st + n = maxAttempts -> n < fuel ->
  exists st' tr,
    pollLoop fuel P W pollUrl st log = Some (Normal st', log ++ tr)
    /\ forallb (loopEvent pollUrl) tr = true
    /\ match imageBuffer st' with
       | Some _ => pollCount tr = S (sleepCount tr) /\ pollCount tr <= n
       | None => pollCount tr = n /\ sleepCount tr = n
       end.
Proof.
  induction n as [| n IH]; intros fuel st log Hst Hb Hn Hf.
  - destruct fuel as [| fuel]; [lia |].
    exists st, []. rewrite pollLoop_exit by lia. rewrite app_nil_r, Hb.
    repeat split.
  - destruct fuel as [| fuel]; [lia |].
    destruct (iteration_trace st log Hst)
      as (st' & fl & tr & E & Hev & Hp & Hs & Hst' & Hat & Hfl).
    destruct fl.
    + rewrite (pollLoop_next P W pollUrl fuel st st' log _ ltac:(lia) E).
      destruct (IH fuel (nextAttempt st') ((log ++ tr) ++ [EvSleep 3000]))
        as (st2 & tr2 & E2 & Hev2 & Hc2);
        try (simpl; lia); [exact Hst' | simpl; congruence |].
      exists st2, (tr ++ [EvSleep 3000] ++ tr2).
      split; [rewrite E2; now rewrite <- !app_assoc |].
      split; [rewrite !forallb_app, Hev, Hev2; reflexivity |].
      rewrite !pollCount_app, !sleepCount_app, Hp, Hs.
      change (pollCount [EvSleep 3000]) with 0.
      change (sleepCount [EvSleep 3000]) with 1.
      destruct (imageBuffer st2); lia.
    + rewrite (pollLoop_break P W pollUrl fuel st st' log _ ltac:(lia) E).
      exists st', tr. split; [reflexivity |]. split; [exact Hev |].
      destruct (imageBuffer st'); [lia | contradiction].
Qed.

End PollerTrace.

Lemma pollImage_trace (P : Platform) (W : World) (pollUrl message : jsstring)
    (fuel : nat) (log : list Event) :
  maxAttempts < fuel ->
  exists c tr,
    pollImage fuel P W pollUrl message log = Some (c, log ++ tr)
    /\ forallb (loopEvent pollUrl) tr = true
    /\ match c with
       | Normal _ =>
           1 <= pollCount tr <= 60 /\ pollCount tr = S (sleepCount tr)
       | Throw e =>
           e = Error message /\ pollCount tr = 60 /\ sleepCount tr = 60
       end.
Proof.
  intros Hf.
  destruct (pollLoop_trace P W pollUrl maxAttempts fuel initialState log
              eq_refl eq_refl eq_refl Hf) as (st' & tr & E & Hev & Hc).
  unfold pollImage, bind. rewrite E.
  destruct (imageBuffer st') as [b |].
  - exists (Normal b), tr. split; [reflexivity |]. split; [exact Hev |].
    unfold maxAttempts in Hc. lia.
  - exists (Throw (Error message)), tr. split; [reflexivity |].
    split; [exact Hev |]. unfold maxAttempts in Hc. tauto.
Qed.

(** X6: the trace of a polling run.  Whatever is answered, the loop adds
    only status requests to its one poll URL, secondary fetches and waits
    of three seconds.  A run that yields an image made between 1 and 60
    status requests and waited once between two of them, not after the
    last; the only error is the time-out, thrown after exactly 60 status
    requests and 60 waits, the last wait following the last request. *)
Theorem polling_run_trace :
  forall (P : Platform) (W : World) (pollUrl message : jsstring)
         (fuel : nat) (log : list Event),
    maxAttempts < fuel ->
    exists c tr,
      pollImage fuel P W pollUrl message log = Some (c, log ++ tr)
      /\ forallb (loopEvent pollUrl) tr = true
      /\ match c with
         | Normal _ =>
             1 <= pollCount tr <= 60 /\ pollCount tr = S (sleepCount tr)
         | Throw e =>
             e = Error message /\ pollCount tr = 60 /\ sleepCount tr = 60
         end.
Proof.
  intros P W pollUrl message fuel log Hf.
  now apply pollImage_trace.
Qed.

Lemma polling_run_trace_witness :
  exists c tr,
    pollImage 61 samplePlatform readyAt30 duckPollUrl duckTimeout []
    = Some (c, [] ++ tr)
    /\ forallb (loopEvent duckPollUrl) tr = true
    /\ match c with
       | Normal _ =>
           1 <= pollCount tr <= 60 /\ pollCount tr = S (sleepCount tr)
       | Throw e =>
           e = Error duckTimeout /\ pollCount tr = 60 /\ sleepCount tr = 60
       end.
Proof.
  apply (polling_run_trace samplePlatform readyAt30 duckPollUrl duckTimeout
           61 []).
  unfold maxAttempts. lia.
Defined.

Section PollerDecision.

Variable P : Platform.
Variable W : World.
Variable pollUrl : jsstring.

Lemma avoids_split sep s :
  avoids sep s = match nth_error (split sep s) 1 with
                 | None => true
                 | Some _ => false
                 end.
Proof.
  induction s as [| c s IH]; [reflexivity |].
  unfold avoids in *. cbn [forallb split].
  destruct (c =? sep)%N; cbn [negb andb].
  - pose proof (split_nonempty sep s) as Hne.
    destruct (split sep s); [contradiction | reflexivity].
  - rewrite IH. pose proof (split_nonempty sep s) as Hne.
    destruct (split sep s); [contradiction | reflexivity].
Qed.

(** What one iteration does is decided by [notYet]. *)
Lemma iteration_classify st log :
  status st = PENDING ->
  exists st' fl tr,
    iteration P W pollUrl st log = Some (Normal (st', fl), log ++ tr)
    /\ pollCount tr = 1
    /\ (if notYet W pollUrl (attempt st) then fl = Next /\ st' = st
        else fl = Break /\ imageBuffer st' <> None
             /\ status st' = PENDING /\ attempt st' = attempt st).
Proof.
  intros Hst. destruct st as [k b s]. simpl in Hst. subst s.
  unfold notYet, undecodable.
  cbv [iteration tryCatch tryBlock bind fetchPoll fetchImage emit
       json bodyText arrayBuffer readData ret throw].
  cbn [attempt status imageBuffer setStatus setBuffer].
  repeat (cbv beta iota; rewrite ?avoids_split;
          match goal with
          | |- context [match ?x with _ => _ end] =>
              lazymatch x with
              | context [match _ with _ => _ end] => fail
              | _ => destruct x eqn:?
              end
          end);
    try discriminate;
    first
      [ eexists; eexists; exists [EvPoll pollUrl];
        split; [reflexivity |]
      | eexists; eexists; eexists [EvPoll pollUrl; EvImage _];
        split; [rewrite <- app_assoc; reflexivity |] ];
    repeat split; auto; try discriminate.
Qed.

(** The loop ends without image exactly when every remaining attempt is
    [notYet]; otherwise it ends with an image at the first attempt that is
    not. *)
Lemma pollLoop_first_ready n : forall fuel st log,
  status st = PENDING -> imageBuffer st = None ->
  attempt st + n = maxAttempts -> n < fuel ->
  exists st' tr,
    pollLoop fuel P W pollUrl st log = Some (Normal st', log ++ tr)
    /\ ((imageBuffer st' = None /\ pollCount tr = n
         /\ forall j, attempt st <= j < maxAttempts -> notYet W pollUrl j = true)
        \/ (imageBuffer st' <> None
            /\ exists k, attempt st <= k < maxAttempts
                 /\ notYet W pollUrl k = false
                 /\ (forall j, attempt st <= j < k -> notYet W pollUrl j = true)
                 /\ pollCount tr = S (k - attempt st))).
Proof.
  induction n as [| n IH]; intros fuel st log Hst Hb Hn Hf.
  - destruct fuel as [| fuel]; [lia |].
    exists st, []. rewrite pollLoop_exit by lia. rewrite app_nil_r.
    split; [reflexivity |]. left. repeat split; trivial. intros j Hj. lia.
  - destruct fuel as [| fuel]; [lia |].
    destruct (iteration_classify st log Hst) as (st' & fl & tr & E & Hp & Hc).
    destruct (notYet W pollUrl (attempt st)) eqn:Hny.
    + destruct Hc as [-> ->].
      rewrite (pollLoop_next P W pollUrl fuel st st log _ ltac:(lia) E).
      destruct (IH fuel (nextAttempt st) ((log ++ tr) ++ [EvSleep 3000]))
        as (st2 & tr2 & E2 & Hd); try (simpl; lia); trivial.
      exists st2, (tr ++ [EvSleep 3000] ++ tr2).
      split; [rewrite E2; now rewrite <- !app_assoc |].
      rewrite !pollCount_app, Hp.
      change (pollCount [EvSleep 3000]) with 0.
      cbn [nextAttempt attempt] in Hd.
      destruct Hd as [(Hn2 & Hp2 & Hall) | (Hn2 & k & Hk & Hnk & Hfirst & Hp2)].
      * left. repeat split; trivial; [lia |].
        intros j Hj. destruct (Nat.eq_dec j (attempt st)) as [-> | Hne];
          [exact Hny | apply Hall; lia].
      * right. split; [exact Hn2 |]. exists k. repeat split; try lia; trivial.
        intros j Hj. destruct (Nat.eq_dec j (attempt st)) as [-> | Hne];
          [exact Hny | apply Hfirst; lia].
    + destruct Hc as (-> & Hbuf & Hst' & Hat).
      rewrite (pollLoop_break P W pollUrl fuel st st' log _ ltac:(lia) E).
      exists st', tr. split; [reflexivity |]. right. split; [exact Hbuf |].
      exists (attempt st). repeat split; try lia; trivial.
Qed.

End PollerDecision.

(** X7: a polling run times out exactly when none of the sixty attempts
    yields an image; otherwise it returns an image at the first attempt that
    does, after as many status requests, whatever was answered before:
    rejected requests, error statuses, bodies that are no JSON, payloads
    that cannot be decoded all count as "not yet". *)
Theorem timeout_iff_no_attempt_yields_image :
  forall (P : Platform) (W : World) (pollUrl message : jsstring)
         (fuel : nat) (log : list Event),
    maxAttempts < fuel ->
    ((forall j, j < 60 -> notYet W pollUrl j = true)
     <-> exists tr, pollImage fuel P W pollUrl message log
                    = Some (Throw (Error message), log ++ tr))
    /\ (forall k, k < 60 -> notYet W pollUrl k = false ->
          (forall j, j < k -> notYet W pollUrl j = true) ->
          exists b tr,
            pollImage fuel P W pollUrl message log
            = Some (Normal b, log ++ tr)
            /\ pollCount tr = S k).
Proof.
  intros P W pollUrl message fuel log Hf.
  destruct (pollLoop_first_ready P W pollUrl maxAttempts fuel initialState log
              eq_refl eq_refl eq_refl Hf) as (st' & tr & E & Hd).
  unfold pollImage, bind. rewrite E.
  cbn [initialState attempt] in Hd. unfold maxAttempts in Hd.
  split; [split |].
  - intros Hall. destruct Hd as [(Hn & _) | (_ & k & Hk & Hnk & _)].
    + rewrite Hn. exists tr. reflexivity.
    + rewrite Hall in Hnk by lia. discriminate.
  - intros (tr' & Ht). destruct Hd as [(_ & _ & Hall) | (Hn & _)].
    + intros j Hj. apply Hall. lia.
    + destruct (imageBuffer st'); [discriminate | contradiction].
  - intros k Hk Hnk Hfirst.
    destruct Hd as [(_ & _ & Hall) | (Hn & k' & Hk' & Hnk' & Hfirst' & Hp)].
    + rewrite Hall in Hnk by lia. discriminate.
    + assert (k' = k).
      { destruct (Nat.lt_trichotomy k' k) as [Hlt | [Heq | Hgt]]; trivial.
        - rewrite Hfirst in Hnk' by lia. discriminate.
        - rewrite Hfirst' in Hnk by lia. discriminate. }
      subst k'. destruct (imageBuffer st') as [b |]; [| contradiction].
      exists b, tr. split; [reflexivity |]. rewrite Hp. lia.
Qed.

Lemma timeout_iff_no_attempt_yields_image_witness :
  exists tr,
    pollImage 61 samplePlatform failedWorld duckPollUrl duckTimeout []
    = Some (Throw (Error duckTimeout), [] ++ tr).
Proof.
  apply (proj1 (proj1 (timeout_iff_no_attempt_yields_image samplePlatform
                         failedWorld duckPollUrl duckTimeout 61 []
                         ltac:(unfold maxAttempts; lia)))).
  intros j Hj. reflexivity.
Defined.

(** ** The default project of create_image *)

Section ProjectResolution.

Variable P : Platform.
Variable W : World.

Lemma resolveProject_unset project :
  truthyStr project = false ->
  resolveProject P W project
  = tryCatch (firstProject P W) (fun _ => ret (Some (JStr (lit "default")))).
Proof. destruct project as [[| c r] |]; try discriminate; reflexivity. Qed.

Ltac run_firstProject :=
  unfold firstProject, apiFetch, fetchApi;
  change (API_BASE W ++ [slash] ++ lit "account/projects")
    with (API_BASE W ++ lit "/account/projects");
  cbv [tryCatch bind emit json bodyText ret throw].

Lemma resolveProject_one_request project log :
  truthyStr project = false ->
  exists v,
    resolveProject P W project log
    = Some (Normal v, log ++ [EvApi (API_BASE W ++ lit "/account/projects")]).
Proof.
  intros Hp. rewrite (resolveProject_unset _ Hp). run_firstProject.
  repeat (cbv beta iota;
          match goal with
          | |- context [match ?x with _ => _ end] =>
              lazymatch x with
              | context [match _ with _ => _ end] => fail
              | _ => destruct x eqn:?
              end
          end);
    eexists; reflexivity.
Qed.

Lemma resolveProject_unreachable project log :
  truthyStr project = false ->
  match fetch_api W (API_BASE W ++ lit "/account/projects") with
  | FetchRejects _ => True
  | FetchResolves res =>
      res_ok res = false \/ exists m, res_json res = inl m
  end ->
  resolveProject P W project log
  = Some (Normal (Some (JStr (lit "default"))),
          log ++ [EvApi (API_BASE W ++ lit "/account/projects")]).
Proof.
  intros Hp. rewrite (resolveProject_unset _ Hp). run_firstProject.
  destruct (fetch_api W (API_BASE W ++ lit "/account/projects")) as [m | res];
    [reflexivity |].
  intros [Hok | (m & Hj)].
  - rewrite Hok. cbn [negb]. destruct (res_text res); reflexivity.
  - destruct (res_ok res); cbn [negb];
      [rewrite Hj | destruct (res_text res)]; reflexivity.
Qed.

Lemma resolveProject_listed project log res data pr :
  truthyStr project = false ->
  fetch_api W (API_BASE W ++ lit "/account/projects") = FetchResolves res ->
  res_ok res = true -> res_json res = inr data ->
  getPropOpt (Some data) (lit "projects") = pr ->
  (pr = None \/ pr = Some (JArr []) ->
   resolveProject P W project log
   = Some (Normal (Some (JStr (lit "default"))),
           log ++ [EvApi (API_BASE W ++ lit "/account/projects")]))
  /\ (forall fields items,
        pr = Some (JArr (JObj fields :: items)) ->
        resolveProject P W project log
        = Some (Normal (lookup (lit "project") fields),
                log ++ [EvApi (API_BASE W ++ lit "/account/projects")])).
Proof.
  intros Hp Hf Hok Hj Hpr. rewrite (resolveProject_unset _ Hp). run_firstProject.
  rewrite Hf, Hok, Hj. cbn [negb]. cbv beta iota. rewrite Hpr. split.
  - intros [-> | ->]; reflexivity.
  - intros fields items ->. reflexivity.
Qed.

End ProjectResolution.

(** X8: the project of create_image.  A project that is given and not
    empty is used as it is, without any request.  Otherwise exactly one
    request goes to [API_BASE/account/projects], nothing is thrown, and the
    project is the [project] field of the first entry of the [projects]
    array, or the literal [default] when the request is rejected, the
    status is not 2xx, the body is no JSON, or the array is missing or
    empty. *)
Theorem create_image_project_resolution :
  forall (P : Platform) (W : World) (project : option jsstring)
         (log : list Event),
    let url := API_BASE W ++ lit "/account/projects" in
    let fallback := Some (JStr (lit "default")) in
    (forall p, project = Some p -> p <> [] ->
       resolveProject P W project log = Some (Normal (Some (JStr p)), log))
    /\ (truthyStr project = false ->
        (exists v, resolveProject P W project log
                   = Some (Normal v, log ++ [EvApi url]))
        /\ (match fetch_api W url with
            | FetchRejects _ => True
            | FetchResolves res =>
                res_ok res = false \/ exists m, res_json res = inl m
            end ->
            resolveProject P W project log
            = Some (Normal fallback, log ++ [EvApi url]))
        /\ (forall res data,
              fetch_api W url = FetchResolves res -> res_ok res = true ->
              res_json res = inr data ->
              (getPropOpt (Some data) (lit "projects") = None
               \/ getPropOpt (Some data) (lit "projects") = Some (JArr []) ->
               resolveProject P W project log
               = Some (Normal fallback, log ++ [EvApi url]))
              /\ (forall fields items,
                    getPropOpt (Some data) (lit "projects")
                    = Some (JArr (JObj fields :: items)) ->
                    resolveProject P W project log
                    = Some (Normal (lookup (lit "project") fields),
                            log ++ [EvApi url])))).
Proof.
  intros P W project log url fallback. split.
  - intros p -> Hne. destruct p as [| c r]; [contradiction | reflexivity].
  - intros Hp. split; [| split].
    + now apply resolveProject_one_request.
    + now apply resolveProject_unreachable.
    + intros res data Hf Hok Hj.
      exact (resolveProject_listed P W project log res data _ Hp Hf Hok Hj eq_refl).
Qed.

Lemma create_image_project_resolution_witness :
  resolveProject samplePlatform failedWorld None []
  = Some (Normal (Some (JStr (lit "default"))),
          [EvApi (lit "https://api.inliner.ai/account/projects")]).
Proof.
  apply (proj1 (proj2 (proj2 (create_image_project_resolution samplePlatform
                                failedWorld None []) eq_refl))).
  exact I.
Defined.

(** ** The resolver on the names the tools build *)

Section ResolverFacts.

Variable W : World.

Lemma isSlugChar_not_dot c : isSlugChar c = true -> (c =? dot)%N = false.
Proof.
  unfold isSlugChar, isLower, isDigit, hyphen, dot. intros H.
  apply N.eqb_neq.
  repeat (apply orb_prop in H; destruct H as [H | H]);
    rewrite ?andb_true_iff, ?N.leb_le, ?N.eqb_eq in H; lia.
Qed.

Lemma charsetClosed_avoids_dot s : charsetClosed s = true -> avoids dot s = true.
Proof.
  induction s as [| c s IH]; [reflexivity |].
  unfold charsetClosed, avoids in *. cbn [forallb].
  rewrite andb_true_iff. intros [Hc Hs].
  now rewrite (isSlugChar_not_dot _ Hc), (IH Hs).
Qed.

Lemma matchFormatFrom_no_dot pre rest :
  avoids dot rest = true -> matchFormatFrom pre rest = None.
Proof.
  revert pre. induction rest as [| c rest IH]; intros pre; [reflexivity |].
  unfold avoids. cbn [forallb]. rewrite andb_true_iff, negb_true_iff.
  intros [Hc Hr]. cbn [matchFormatFrom].
  rewrite (IH _ Hr), Hc.
  destruct (isLineTerminator c); destruct pre; reflexivity.
Qed.

Lemma matchFormatFrom_last_dot pre s ext :
  existsb isLineTerminator s = false -> avoids dot ext = true ->
  matchUploadExt ext = Some ext -> rev pre ++ s <> [] ->
  matchFormatFrom pre (s ++ dot :: ext) = Some (rev pre ++ s, ext).
Proof.
  intros Hs He Hm. revert pre.
  induction s as [| c s IH]; intros pre Hne.
  - cbn [app matchFormatFrom].
    rewrite (matchFormatFrom_no_dot _ _ He), N.eqb_refl, Hm.
    rewrite app_nil_r in *.
    destruct pre as [| p pre']; [contradiction |].
    destruct (isLineTerminator dot); reflexivity.
  - cbn [existsb] in Hs. apply orb_false_iff in Hs. destruct Hs as [Hl Hs].
    change ((c :: s) ++ dot :: ext) with (c :: (s ++ dot :: ext)).
    cbn [matchFormatFrom]. rewrite Hl.
    rewrite (IH Hs (c :: pre)).
    + cbn [rev]. now rewrite <- app_assoc.
    + cbn [rev]. rewrite <- app_assoc. now destruct (rev pre).
Qed.

Lemma formatToString_ext f :
  matchUploadExt (formatToString f) = Some (formatToString f)
  /\ avoids dot (formatToString f) = true
  /\ toLowerCase (formatToString f) = formatToString f
  /\ streq (formatToString f) (lit "jpeg") = false.
Proof. destruct f; repeat split; vm_compute; reflexivity. Qed.

(** The file name of an edit: the edit segment, a dot, the format. *)
Lemma edit_name_shape e w h ow oh f :
  let name := editSegment e w h ow oh ++ [dot] ++ formatToString f in
  avoids slash name = true /\ avoids underscore name = true
  /\ existsb isLineTerminator (editSegment e w h ow oh) = false.
Proof.
  destruct (editSegment_shape e w h ow oh) as (_ & _ & _ & Hc & _).
  destruct (nameChars_avoid _ Hc) as (A1 & A2 & A3).
  destruct (formatToString_avoids f) as [F1 F2].
  cbn zeta. rewrite !avoids_app, A1, A2, F1, F2. repeat split. exact A3.
Qed.

Lemma resolveSource_generated sourcePath dir sp log :
  sanitized (spec_description sp) <> [] ->
  isInteger (spec_width sp) = true -> isInteger (spec_height sp) = true ->
  sourceFileName dir = sourceFileName (buildImagePath sp) ->
  resolveSource W sourcePath dir log
  = Some (Normal (sanitized (spec_description sp), whole (spec_width sp),
                  whole (spec_height sp), formatToString (spec_format sp)), log).
Proof.
  intros Hne Iw Ih Hname. unfold resolveSource. rewrite Hname.
  unfold buildImagePath. rewrite pathPart_fileName.
  rewrite sourceMatch_built_name;
    [| apply (sanitized_shape (spec_description sp)) | exact Hne
     | exact Iw | exact Ih].
  now rewrite !parseInt10_numberToString.
Qed.

Lemma existsb_app_false {A} (f : A -> bool) a b :
  existsb f a = false -> existsb f b = false -> existsb f (a ++ b) = false.
Proof. intros Ha Hb. now rewrite existsb_app, Ha, Hb. Qed.

(** With a width or a height that is no integer the name falls to the
    second pattern. *)
Lemma resolveSource_fraction sp log :
  isInteger (spec_width sp) && isInteger (spec_height sp) = false ->
  resolveSource W None (buildImagePath sp) log
  = Some (Normal (sanitized (spec_description sp) ++ [underscore]
                    ++ renderNumber (spec_width sp) ++ [letter_x]
                    ++ renderNumber (spec_height sp),
                  1024%N, 1024%N, formatToString (spec_format sp)), log).
Proof.
  intros Hwh. unfold resolveSource, buildImagePath.
  rewrite pathPart_fileName.
  destruct (sanitized_shape (spec_description sp)) as (Hc & _).
  rewrite (sourceMatch_built_fraction _ _ _ _ Hc Hwh).
  destruct (formatToString_ext (spec_format sp)) as (M1 & M2 & M3 & M4).
  unfold formatMatch, dimsAndFormat.
  set (slug := sanitized (spec_description sp)) in *.
  set (w := renderNumber (spec_width sp)).
  set (h := renderNumber (spec_height sp)).
  replace (slug ++ [underscore] ++ w ++ [letter_x] ++ h ++ [dot]
             ++ formatToString (spec_format sp))
    with ((slug ++ [underscore] ++ w ++ [letter_x] ++ h)
            ++ dot :: formatToString (spec_format sp))
    by (now rewrite <- !app_assoc).
  rewrite (matchFormatFrom_last_dot [] _ _); trivial.
  - cbn [rev app]. rewrite M3, M4. reflexivity.
  - destruct (charsetClosed_avoids _ Hc) as (_ & _ & L1).
    destruct (nameChars_avoid _ (renderNumber_nameChars (spec_width sp)))
      as (_ & _ & L2).
    destruct (nameChars_avoid _ (renderNumber_nameChars (spec_height sp)))
      as (_ & _ & L3).
    repeat (apply existsb_app_false; trivial).
  - cbn [rev app]. intros E. apply app_eq_nil in E. destruct E as [_ E].
    discriminate.
Qed.

Lemma streq_eq s : forall t, streq s t = true -> s = t.
Proof.
  induction s as [| a s IH]; intros [| b t] H; try discriminate;
    [reflexivity |].
  cbn [streq] in H. apply andb_true_iff in H. destruct H as [H1 H2].
  apply N.eqb_eq in H1. subst b. now rewrite (IH t H2).
Qed.

End ResolverFacts.

(** X9: round trip through the resolver of edit_image, for an image whose
    width and height are in range.  When both are integers and the slug of
    the description is not empty, the path that generate_image builds is
    resolved, without any file read or request, to the slug, the width, the
    height and the format it was built from.  When one of them is no
    integer, which the schema admits, the name is not matched by the
    pattern with dimensions: without a local file the source is resolved to
    1024 by 1024, and its description to the slug with the rendered
    dimensions behind it. *)
Theorem resolver_recovers_generated_path :
  forall (W : World) (sourcePath : option jsstring) (sp : ImageSpec)
         (log : list Event),
    specInRange sp = true ->
    (sanitized (spec_description sp) <> [] ->
     isInteger (spec_width sp) = true -> isInteger (spec_height sp) = true ->
     resolveSource W sourcePath (buildImagePath sp) log
     = Some (Normal (sanitized (spec_description sp), whole (spec_width sp),
                     whole (spec_height sp), formatToString (spec_format sp)),
             log))
    /\ (isInteger (spec_width sp) && isInteger (spec_height sp) = false ->
        resolveSource W None (buildImagePath sp) log
        = Some (Normal (sanitized (spec_description sp) ++ [underscore]
                          ++ renderNumber (spec_width sp) ++ [letter_x]
                          ++ renderNumber (spec_height sp),
                        1024%N, 1024%N, formatToString (spec_format sp)),
                log)).
Proof.
  intros W sourcePath sp log _. split.
  - intros Hne Iw Ih. now apply resolveSource_generated.
  - apply resolveSource_fraction.
Qed.

Lemma resolver_recovers_generated_path_witness :
  resolveSource failedWorld None (buildImagePath duckSpec) []
  = Some (Normal (lit "happy-duck", 800%N, 600%N, lit "png"), [])
  /\ resolveSource failedWorld None (buildImagePath halfPixelSpec) []
     = Some (Normal (lit "happy-duck_100.5x600", 1024%N, 1024%N, lit "png"), []).
Proof.
  split.
  - apply (proj1 (resolver_recovers_generated_path failedWorld None
                    duckSpec [] eq_refl)).
    + vm_compute. discriminate.
    + reflexivity.
    + reflexivity.
  - apply (proj2 (resolver_recovers_generated_path failedWorld None
                    halfPixelSpec [] eq_refl)).
    reflexivity.
Defined.

(** X10: the result of an edit cannot be resolved like a generated image.
    The file name of an edit path, [<edit segment>.<format>], holds no
    underscore, so the pattern with dimensions never matches it: when such
    a URL is edited again without a local file, the source is taken for an
    upload of 1024 by 1024 whatever dimensions its name shows, and when the
    edit segment is empty the call fails for an invalid path format. *)
Theorem edited_path_resolves_to_defaults :
  forall (W : World) (dir e : jsstring) (w h : option number) (ow oh : number)
         (f : Format) (log : list Event),
    let seg := editSegment e w h ow oh in
    let path := dir ++ [slash] ++ seg ++ [dot] ++ formatToString f in
    sourceMatch (sourceFileName path) = None
    /\ (seg <> [] ->
        resolveSource W None path log
        = Some (Normal (seg, 1024%N, 1024%N, formatToString f), log))
    /\ (seg = [] ->
        resolveSource W None path log
        = Some (Throw (Error (lit "Invalid source image path format: " ++ path)),
                log)).
Proof.
  intros W dir e w h ow oh f log seg path.
  destruct (edit_name_shape e w h ow oh f) as (A1 & A2 & A3).
  cbn zeta in A1, A2. fold seg in A1, A2, A3.
  assert (Hname : sourceFileName path = seg ++ [dot] ++ formatToString f)
    by (unfold path; now apply sourceFileName_after_slash).
  assert (Hno : sourceMatch (seg ++ [dot] ++ formatToString f) = None)
    by (unfold sourceMatch; now apply matchSourceFrom_no_underscore).
  destruct (formatToString_ext f) as (M1 & M2 & M3 & M4).
  split; [now rewrite Hname | split].
  - intros Hne. unfold resolveSource. rewrite Hname, Hno.
    unfold formatMatch.
    change (seg ++ [dot] ++ formatToString f)
      with (seg ++ dot :: formatToString f).
    rewrite (matchFormatFrom_last_dot [] seg (formatToString f)); trivial.
    cbn [rev app]. rewrite M3, M4. reflexivity.
  - intros Hempty. unfold resolveSource. rewrite Hname, Hno, Hempty.
    unfold formatMatch. cbn [app matchFormatFrom].
    rewrite (matchFormatFrom_no_dot _ _ M2).
    destruct (isLineTerminator dot); reflexivity.
Qed.

Lemma edited_path_resolves_to_defaults_witness :
  resolveSource failedWorld None
    (lit "proj/cat_800x800.png" ++ [slash]
       ++ editSegment (lit "Make it Blue") (Some (integer 900)) None 900 800
       ++ [dot] ++ formatToString png) []
  = Some (Normal (lit "make-it-blue-900x800", 1024%N, 1024%N, lit "png"), []).
Proof.
  apply (proj1 (proj2 (edited_path_resolves_to_defaults failedWorld
                         (lit "proj/cat_800x800.png") (lit "Make it Blue")
                         (Some (integer 900)) None (integer 900) (integer 800)
                         png []))).
  vm_compute. discriminate.
Defined.

(** X11: an edit of a generated image, through the whole of edit_image.
    The source URL parses, passes the host check, and its path is the path
    that generate_image built for an image with a slug that is not empty
    and integer dimensions in range.  Then nothing is uploaded, read or
    asked of the account API; every status request goes to the one URL
    [API_BASE/content/request-json/<source path>/<edit segment>.<format>]
    followed by the query string of the source, where a width, height or
    format that the call leaves out is the one of the source; a file is
    written only to the output path of the call.  The call throws the
    time-out that names the URL of the edit, or the rejection of the save,
    or returns a payload whose [url] is the URL of the edit and whose
    [dimensions] are the output dimensions. *)
Theorem edit_image_of_generated_source :
  forall (P : Platform) (W : World) (fuel : nat) (a : EditImage.Args)
         (u : jsstring) (o : URL) (sp : ImageSpec) (log : list Event),
    maxAttempts < fuel ->
    EditImage.sourceUrl a = Some u -> u <> [] ->
    URL_parse P u = Some o ->
    endsWith (hostname o) (lit "img.inliner.ai") = true ->
    pathname o = slash :: buildImagePath sp ->
    specInRange sp = true ->
    isInteger (spec_width sp) = true -> isInteger (spec_height sp) = true ->
    sanitized (spec_description sp) <> [] ->
    exists c tr,
      edit_image fuel P W a log = Some (c, log ++ tr)
      /\ (forall ev, In ev tr ->
            match ev with
            | EvPoll url => url = editedPollUrl W sp a o
            | EvImage _ | EvSleep _ => True
            | EvSave p _ => EditImage.outputPath a = Some p
            | EvApi _ | EvUpload _ | EvRead _ => False
            end)
      /\ match c with
         | Throw e =>
             e = Error (timeoutMessage (lit "Image edit") (editedUrl sp a o))
             \/ exists p b m,
                  EditImage.outputPath a = Some p /\ fs_save W p b = Some m
                  /\ e = Rejected m
         | Normal r =>
             exists fields,
               r = success P (JObj fields)
               /\ lookup (lit "url") fields = Some (JStr (editedUrl sp a o))
               /\ lookup (lit "dimensions") fields
                  = Some (JStr (renderNumber
                                  (orDimension (EditImage.width a)
                                     (whole (spec_width sp)))
                                  ++ [letter_x]
                                  ++ renderNumber
                                       (orDimension (EditImage.height a)
                                          (whole (spec_height sp)))))
         end.
Proof.
  intros P W fuel a u o sp log Hf Hu Hne Hparse Hhost Hpath _ Iw Ih Hslug.
  destruct (pollImage_trace P W (editedPollUrl W sp a o)
              (timeoutMessage (lit "Image edit") (editedUrl sp a o)) fuel log Hf)
    as (c0 & tr0 & E & Hev & Hc).
  assert (Hloop : forall ev, In ev tr0 ->
            match ev with
            | EvPoll url => url = editedPollUrl W sp a o
            | EvImage _ | EvSleep _ => True
            | EvSave p _ => EditImage.outputPath a = Some p
            | EvApi _ | EvUpload _ | EvRead _ => False
            end).
  { intros ev Hin. rewrite forallb_forall in Hev. specialize (Hev _ Hin).
    destruct ev; try discriminate; trivial.
    now apply streq_eq. }
  unfold edit_image, resolveSourceUrl. rewrite Hu.
  destruct u as [| cu ru]; [contradiction |].
  unfold bind at 1. unfold ret at 1.
  unfold bind at 1. rewrite checkSourceUrl_spec, Hparse.
  unfold hostAccepted. rewrite Hhost.
  unfold bind at 1. rewrite Hpath. cbn [removeLeadingSlash].
  rewrite N.eqb_refl.
  rewrite (resolveSource_generated W _ _ sp _ Hslug Iw Ih eq_refl).
  cbv beta iota.
  unfold editedPollUrl, editedUrl, editedPath, orDefault in E.
  unfold bind at 1.
  assert (Hfmt : match EditImage.format a with
                 | Some f => formatToString f
                 | None => formatToString (spec_format sp)
                 end
                 = formatToString
                     match EditImage.format a with
                     | Some f => f
                     | None => spec_format sp
                     end)
    by (destruct (EditImage.format a); reflexivity).
  rewrite Hfmt. rewrite E.
  destruct c0 as [b | e].
  - unfold saveImage.
    destruct (EditImage.outputPath a) as [[| cp rp] |] eqn:Eo.
    + exists (Normal (success P (JObj [
        (lit "url", JStr (editedUrl sp a o));
        (lit "html", JStr (imgTag (editedUrl sp a o)
                             (hyphensToSpaces (EditImage.editInstruction a))
                             (orDimension (EditImage.width a) (whole (spec_width sp)))
                             (orDimension (EditImage.height a) (whole (spec_height sp)))));
        (lit "saved", JBool false);
        (lit "outputPath", JNull);
        (lit "size", byteLength b);
        (lit "editInstruction", JStr (EditImage.editInstruction a));
        (lit "dimensions",
         JStr (renderNumber (orDimension (EditImage.width a) (whole (spec_width sp)))
                 ++ [letter_x]
                 ++ renderNumber (orDimension (EditImage.height a)
                                    (whole (spec_height sp)))))]))), tr0.
      split; [reflexivity |]. split; [exact Hloop |].
      eexists. split; [reflexivity |]. split; reflexivity.
    + unfold bind, emit.
      assert (Hall : forall ev, In ev (tr0 ++ [EvSave (cp :: rp) b]) ->
                match ev with
                | EvPoll url => url = editedPollUrl W sp a o
                | EvImage _ | EvSleep _ => True
                | EvSave p _ => Some (cp :: rp) = Some p
                | EvApi _ | EvUpload _ | EvRead _ => False
                end).
      { intros ev Hin. apply in_app_or in Hin.
        destruct Hin as [Hin | [<- | []]]; [| reflexivity].
        specialize (Hloop _ Hin). destruct ev; trivial. }
      destruct (fs_save W (cp :: rp) b) as [m |] eqn:Es.
      * exists (Throw (Rejected m)), (tr0 ++ [EvSave (cp :: rp) b]).
        split; [now rewrite <- app_assoc |]. split; [exact Hall |].
        right. exists (cp :: rp), b, m. auto.
      * eexists. exists (tr0 ++ [EvSave (cp :: rp) b]).
        split; [rewrite <- app_assoc; reflexivity |]. split; [exact Hall |].
        eexists. split; [reflexivity |]. split; reflexivity.
    + eexists. exists tr0.
      split; [reflexivity |]. split; [exact Hloop |].
      eexists. split; [reflexivity |]. split; reflexivity.
  - destruct Hc as (-> & _). exists (Throw (Error (timeoutMessage (lit "Image edit") (editedUrl sp a o)))), tr0.
    split; [reflexivity |]. split; [exact Hloop |]. left. reflexivity.
Qed.

Lemma edit_image_of_generated_source_witness :
  exists c tr,
    edit_image 61 samplePlatform failedWorld duckEdit [] = Some (c, [] ++ tr)
    /\ (forall ev, In ev tr ->
          match ev with
          | EvPoll url => url = editedPollUrl failedWorld duckSpec duckEdit duckSource
          | EvImage _ | EvSleep _ => True
          | EvSave p _ => EditImage.outputPath duckEdit = Some p
          | EvApi _ | EvUpload _ | EvRead _ => False
          end)
    /\ match c with
       | Throw e =>
           e = Error (timeoutMessage (lit "Image edit")
                        (editedUrl duckSpec duckEdit duckSource))
           \/ exists p b m,
                EditImage.outputPath duckEdit = Some p
                /\ fs_save failedWorld p b = Some m
                /\ e = Rejected m
       | Normal r =>
           exists fields,
             r = success samplePlatform (JObj fields)
             /\ lookup (lit "url") fields
                = Some (JStr (editedUrl duckSpec duckEdit duckSource))
             /\ lookup (lit "dimensions") fields
                = Some (JStr (renderNumber
                                (orDimension (EditImage.width duckEdit)
                                   (whole (spec_width duckSpec)))
                                ++ [letter_x]
                                ++ renderNumber
                                     (orDimension (EditImage.height duckEdit)
                                        (whole (spec_height duckSpec)))))
       end.
Proof.
  refine (edit_image_of_generated_source samplePlatform failedWorld 61
            duckEdit (lit "https://img.inliner.ai/proj/happy-duck_800x600.png?v=2")
            duckSource duckSpec [] _ _ _ _ _ _ _ _ _ _).
  - unfold maxAttempts. lia.
  - reflexivity.
  - discriminate.
  - vm_compute. reflexivity.
  - vm_compute. reflexivity.
  - vm_compute. reflexivity.
  - reflexivity.
  - reflexivity.
  - reflexivity.
  - vm_compute. discriminate.
Defined.

Example duckEdit_urls :
  editedPath duckSpec duckEdit
  = lit "proj/happy-duck_800x600.png/make-it-blue-900x600.png"
  /\ editedPollUrl failedWorld duckSpec duckEdit duckSource
     = lit "https://api.inliner.ai/content/request-json/proj/happy-duck_800x600.png/make-it-blue-900x600.png?v=2"
  /\ editedUrl duckSpec duckEdit duckSource
     = lit "https://img.inliner.ai/proj/happy-duck_800x600.png/make-it-blue-900x600.png?v=2".
Proof. repeat split; vm_compute; reflexivity. Qed.

(** ** The upload of a local file *)

Section UploadFacts.

Lemma in_two_events (e a b : Event) : In e [a; b] -> e = a \/ e = b.
Proof. intros [H | [H | []]]; auto. Qed.

End UploadFacts.

(** X12: what edit_image uploads.  An upload request is issued only after
    the local file was read, for a project that is not empty, an extension
    from the allow-list and a prompt that is a well-formed slug and not
    empty; the content type names [jpg] for a [jpeg] file; and it is the
    second and last event of resolving the source. *)
Theorem upload_only_after_validation :
  forall (P : Platform) (W : World) (a : EditImage.Args)
         (c : Completion jsstring) (log' : list Event) (form : UploadForm),
    uploadSource P W a [] = Some (c, log') ->
    In (EvUpload form) log' ->
    exists sourcePath project file,
      EditImage.sourcePath a = Some sourcePath /\ sourcePath <> []
      /\ EditImage.project a = Some project /\ project <> []
      /\ fs_readFile W sourcePath = inr file
      /\ existsb (streq (uploadExtension P sourcePath)) allowedExtensions = true
      /\ form_file form = file
      /\ form_project form = project
      /\ form_contentType form
         = lit "image/" ++ (if streq (uploadExtension P sourcePath) (lit "jpeg")
                            then lit "jpg" else uploadExtension P sourcePath)
      /\ form_prompt form
         = sanitizedPrompt
             (orString (EditImage.uploadPrompt a)
                (path_basename_ext P sourcePath (path_extname P sourcePath)))
      /\ form_prompt form <> []
      /\ wellFormedSlug (form_prompt form) = true
      /\ log' = [EvRead sourcePath; EvUpload form].
Proof.
  intros P W a c log' form Hrun Hin.
  unfold uploadSource in Hrun.
  destruct (EditImage.sourcePath a) as [[| c0 r0] |] eqn:Esp;
    try (inversion Hrun; subst; contradiction).
  destruct (EditImage.project a) as [[| c1 r1] |] eqn:Epr;
    try (inversion Hrun; subst; contradiction).
  cbv [bind readFile emit ret throw] in Hrun. cbn [app] in Hrun.
  destruct (fs_readFile W (c0 :: r0)) as [m | file] eqn:Er.
  { inversion Hrun; subst. destruct Hin as [H | []]. discriminate. }
  fold (uploadExtension P (c0 :: r0)) in Hrun.
  destruct (existsb (streq (uploadExtension P (c0 :: r0))) allowedExtensions)
    eqn:Eext; cbn [negb] in Hrun.
  2:{ inversion Hrun; subst. destruct Hin as [H | []]. discriminate. }
  destruct (sanitizedPrompt
              (orString (EditImage.uploadPrompt a)
                 (path_basename_ext P (c0 :: r0) (path_extname P (c0 :: r0)))))
    as [| pc pr] eqn:Eprompt.
  { inversion Hrun; subst. destruct Hin as [H | []]. discriminate. }
  cbv [fetchUpload bind emit ret throw json bodyText] in Hrun. cbn [app] in Hrun.
  assert (Hlog : exists f, log' = [EvRead (c0 :: r0); EvUpload f]
                 /\ f = {| form_file := file;
                           form_filename := path_basename P (c0 :: r0);
                           form_contentType :=
                             lit "image/"
                               ++ (if streq (uploadExtension P (c0 :: r0)) (lit "jpeg")
                                   then lit "jpg"
                                   else uploadExtension P (c0 :: r0));
                           form_project := c1 :: r1;
                           form_prompt := pc :: pr |}).
  { eexists. split; [| reflexivity].
    repeat match type of Hrun with
           | context [match ?x with _ => _ end] =>
               lazymatch x with
               | context [match _ with _ => _ end] => fail
               | _ => destruct x
               end
           end;
      inversion Hrun; reflexivity. }
  destruct Hlog as (f & -> & Hf).
  apply in_two_events in Hin. destruct Hin as [Hin | Hin]; [discriminate |].
  inversion Hin. subst form. clear Hin.
  exists (c0 :: r0), (c1 :: r1), file. subst f. cbn [form_file form_project
    form_contentType form_prompt].
  repeat split; try discriminate; trivial.
  - now rewrite <- Eprompt.
  - rewrite <- Eprompt. apply sanitizedPrompt_wellFormed.
Qed.

Lemma upload_only_after_validation_witness :
  uploadSource samplePlatform uploadWorld uploadEdit []
  = Some (Throw (Rejected (lit "fetch failed")),
          [EvRead (lit "/tmp/Photo One.JPEG"); EvUpload uploadForm])
  /\ exists sourcePath project file,
       EditImage.sourcePath uploadEdit = Some sourcePath /\ sourcePath <> []
       /\ EditImage.project uploadEdit = Some project /\ project <> []
       /\ fs_readFile uploadWorld sourcePath = inr file
       /\ existsb (streq (uploadExtension samplePlatform sourcePath))
            allowedExtensions = true
       /\ form_file uploadForm = file
       /\ form_project uploadForm = project
       /\ form_contentType uploadForm
          = lit "image/"
              ++ (if streq (uploadExtension samplePlatform sourcePath) (lit "jpeg")
                  then lit "jpg" else uploadExtension samplePlatform sourcePath)
       /\ form_prompt uploadForm
          = sanitizedPrompt
              (orString (EditImage.uploadPrompt uploadEdit)
                 (path_basename_ext samplePlatform sourcePath
                    (path_extname samplePlatform sourcePath)))
       /\ form_prompt uploadForm <> []
       /\ wellFormedSlug (form_prompt uploadForm) = true
       /\ [EvRead (lit "/tmp/Photo One.JPEG"); EvUpload uploadForm]
          = [EvRead sourcePath; EvUpload uploadForm].
Proof.
  assert (E : uploadSource samplePlatform uploadWorld uploadEdit []
              = Some (Throw (Rejected (lit "fetch failed")),
                      [EvRead (lit "/tmp/Photo One.JPEG"); EvUpload uploadForm]))
    by (vm_compute; reflexivity).
  split; [exact E |].
  refine (upload_only_after_validation samplePlatform uploadWorld uploadEdit
            _ _ uploadForm E _).
  right. left. reflexivity.
Defined.

(** ** The [<img>] fragment *)

Section HtmlFacts.

Lemma quoteCount_app a b : quoteCount (a ++ b) = quoteCount a + quoteCount b.
Proof. apply count_occ_app. Qed.

Lemma quoteCount_quoted s : quoteCount (quoted s) = 2 + quoteCount s.
Proof.
  unfold quoted. rewrite !quoteCount_app.
  change (quoteCount [quote]) with 1. lia.
Qed.

Lemma quoteCount_closed s : charsetClosed s = true -> quoteCount s = 0.
Proof.
  induction s as [| c s IH]; [reflexivity |].
  unfold charsetClosed. cbn [forallb]. rewrite andb_true_iff. intros [Hc Hs].
  unfold quoteCount in *. cbn [count_occ].
  destruct (N.eq_dec c quote) as [-> | _]; [discriminate | now apply IH].
Qed.

Lemma quoteCount_digits n : quoteCount (renderNumber n) = 0.
Proof.
  pose proof (renderNumber_nameChars n) as H.
  induction (renderNumber n) as [| c s IH]; [reflexivity |].
  cbn [forallb] in H. apply andb_true_iff in H. destruct H as [Hc Hs].
  unfold quoteCount in *. cbn [count_occ].
  destruct (N.eq_dec c quote) as [-> | _]; [discriminate | now apply IH].
Qed.

Lemma quoteCount_hyphensToSpaces s :
  quoteCount (hyphensToSpaces s) = quoteCount s.
Proof.
  induction s as [| c s IH]; [reflexivity |].
  unfold quoteCount, hyphensToSpaces in *. cbn [map count_occ]. rewrite IH.
  destruct (c =? hyphen)%N eqn:E.
  - apply N.eqb_eq in E. subst c.
    destruct (N.eq_dec space quote); [discriminate |].
    destruct (N.eq_dec hyphen quote); [discriminate | reflexivity].
  - reflexivity.
Qed.

Lemma quoteCount_imgTag url alt w h :
  quoteCount (imgTag url alt w h) = 10 + quoteCount url + quoteCount alt.
Proof.
  unfold imgTag.
  rewrite !quoteCount_app, !quoteCount_quoted, !quoteCount_digits.
  change (quoteCount (lit "<img src=")) with 0.
  change (quoteCount (lit " alt=")) with 0.
  change (quoteCount (lit " width=")) with 0.
  change (quoteCount (lit " height=")) with 0.
  change (quoteCount (lit " loading=")) with 0.
  change (quoteCount (lit "lazy")) with 0.
  change (quoteCount (lit " />")) with 0.
  lia.
Qed.

Lemma quoteCount_formatToString f : quoteCount (formatToString f) = 0.
Proof. destruct f; reflexivity. Qed.

Lemma quoteCount_url sp :
  quoteCount (generate_image_url_url sp) = quoteCount (spec_project sp).
Proof.
  unfold generate_image_url_url.
  pose proof (quoteCount_closed (sanitized (spec_description sp))
                (proj1 (sanitized_shape (spec_description sp)))) as Hs.
  destruct (spec_edit sp) as [[| c e] |];
    rewrite !quoteCount_app, !quoteCount_digits, quoteCount_formatToString, Hs;
    try rewrite (quoteCount_closed (sanitizedEdit_url (c :: e)))
      by apply sanitizedEdit_url_shape;
    change (quoteCount IMG_BASE) with 0;
    change (quoteCount [slash]) with 0;
    change (quoteCount [underscore]) with 0;
    change (quoteCount [letter_x]) with 0;
    change (quoteCount [dot]) with 0;
    change (quoteCount []) with 0;
    lia.
Qed.

End HtmlFacts.

(** X13: nothing is escaped in the [<img>] fragment of generate_image_url.
    Beside the ten double quotes that delimit its five attributes, the
    fragment holds every double quote of the project once (inside [src])
    and every double quote of the description once (inside [alt], where
    only hyphens are replaced): its attributes are well delimited exactly
    when neither text contains a double quote. *)
Theorem img_tag_copies_quotes_unescaped :
  forall (sp : ImageSpec),
    let html := imgTag (generate_image_url_url sp)
                  (hyphensToSpaces (spec_description sp))
                  (spec_width sp) (spec_height sp) in
    quoteCount html
    = 10 + quoteCount (spec_project sp) + quoteCount (spec_description sp)
    /\ (quoteCount html = 10 <->
        ~ In quote (spec_project sp) /\ ~ In quote (spec_description sp)).
Proof.
  intros sp html.
  assert (E : quoteCount html
              = 10 + quoteCount (spec_project sp)
                + quoteCount (spec_description sp)).
  { unfold html.
    now rewrite quoteCount_imgTag, quoteCount_url, quoteCount_hyphensToSpaces. }
  split; [exact E |]. rewrite E. unfold quoteCount.
  rewrite !(count_occ_not_In N.eq_dec). lia.
Qed.

Lemma img_tag_copies_quotes_unescaped_witness :
  quoteCount
    (imgTag (generate_image_url_url duckSpec)
       (hyphensToSpaces (spec_description duckSpec))
       (spec_width duckSpec) (spec_height duckSpec)) = 10.
Proof.
  apply (proj2 (proj2 (img_tag_copies_quotes_unescaped duckSpec))).
  split; vm_compute; intuition discriminate.
Defined.

(** ** Dimensions of an uploaded source *)

(** X14: the dimensions that edit_image takes for a source without
    dimensions in its name are never zero and reading them never fails the
    call: each is what the image library reports for the local file, and
    1024 when there is no local file, the file cannot be read, the library
    throws, or it reports nothing or zero. *)
Theorem uploaded_dimensions_default_1024 :
  forall (W : World) (sourcePath : option jsstring) (log : list Event),
    exists w h log',
      uploadedDimensions W sourcePath log = Some (Normal (w, h), log')
      /\ w <> 0%N /\ h <> 0%N
      /\ (truthyStr sourcePath = false ->
          w = 1024%N /\ h = 1024%N /\ log' = log)
      /\ (forall p, sourcePath = Some p -> p <> [] ->
          log' = log ++ [EvRead p]
          /\ match fs_readFile W p with
             | inl _ => w = 1024%N /\ h = 1024%N
             | inr file =>
                 match sharp_metadata W file with
                 | None => w = 1024%N /\ h = 1024%N
                 | Some (mw, mh) =>
                     w = orNumber mw 1024 /\ h = orNumber mh 1024
                 end
             end).
Proof.
  intros W sourcePath log. unfold uploadedDimensions.
  assert (Hor : forall o, orNumber o 1024 <> 0%N).
  { intros [n |]; simpl; [| discriminate].
    destruct (n =? 0)%N eqn:E; [discriminate |].
    now apply N.eqb_neq. }
  destruct sourcePath as [[| c r] |].
  - exists 1024%N, 1024%N, log.
    split; [reflexivity |]. split; [discriminate |]. split; [discriminate |].
    split; [auto |].
    intros p E Hne. inversion E. subst. contradiction.
  - cbv [tryCatch bind readFile emit ret throw].
    destruct (fs_readFile W (c :: r)) as [m | file] eqn:Er;
      [| destruct (sharp_metadata W file) as [[mw mh] |] eqn:Em];
      eexists; eexists; eexists;
      (split; [reflexivity |]);
      (split; [first [apply Hor | discriminate] |]);
      (split; [first [apply Hor | discriminate] |]);
      (split; [discriminate |]);
      intros p E _; inversion E; subst; rewrite Er, ?Em; auto.
  - exists 1024%N, 1024%N, log.
    split; [reflexivity |]. split; [discriminate |]. split; [discriminate |].
    split; [auto |].
    intros p E. discriminate.
Qed.

Lemma uploaded_dimensions_default_1024_witness :
  uploadedDimensions uploadWorld (Some (lit "/tmp/Photo One.JPEG")) []
  = Some (Normal (640%N, 1024%N), [EvRead (lit "/tmp/Photo One.JPEG")]).
Proof.
  destruct (uploaded_dimensions_default_1024 uploadWorld
              (Some (lit "/tmp/Photo One.JPEG")) [])
    as (w & h & log' & E & _ & _ & _ & Hp).
  destruct (Hp (lit "/tmp/Photo One.JPEG") eq_refl ltac:(discriminate))
    as [-> Hd].
  cbn in Hd. destruct Hd as [-> ->]. exact E.
Defined.

(** ** Saving the image *)

Section SaveFacts.

Lemma loopEvents_hold_no_save url tr p content :
  forallb (loopEvent url) tr = true -> ~ In (EvSave p content) tr.
Proof.
  intros H Hin. rewrite forallb_forall in H. specialize (H _ Hin).
  discriminate.
Qed.

End SaveFacts.

(** X15: generate_image writes a file only after polling has returned an
    image.  In every run, a save event is the last event of the trace, its
    path is the [outputPath] of the call, which is then not empty, and its
    content is the bytes that the poller returned; a run that times out
    writes nothing. *)
Theorem generate_image_saves_only_polled_image :
  forall (P : Platform) (W : World) (fuel : nat) (a : GenerateImage.Args),
    let path := pathPart (GenerateImage.project a) (GenerateImage.description a)
                  (GenerateImage.width a) (GenerateImage.height a)
                  (GenerateImage.format a) in
    let url := IMG_BASE ++ [slash] ++ path in
    maxAttempts < fuel ->
    exists c tr,
      generate_image fuel P W a [] = Some (c, tr)
      /\ forall p content,
           In (EvSave p content) tr ->
           GenerateImage.outputPath a = Some p /\ p <> []
           /\ exists tr0,
                pollImage fuel P W (pollUrlOf W path)
                  (timeoutMessage (lit "Image generation") url) []
                = Some (Normal content, tr0)
                /\ tr = tr0 ++ [EvSave p content].
Proof.
  intros P W fuel a path url Hf.
  destruct (pollImage_trace P W (pollUrlOf W path)
              (timeoutMessage (lit "Image generation") url) fuel [] Hf)
    as (c0 & tr0 & E & Hev & _).
  cbn [app] in E.
  unfold generate_image. fold path. fold url. unfold bind at 1. rewrite E.
  destruct c0 as [b | e].
  - unfold saveImage.
    destruct (GenerateImage.outputPath a) as [[| c r] |] eqn:Eo.
    + eexists. eexists. split; [reflexivity |].
      intros p content Hin.
      destruct (loopEvents_hold_no_save _ _ _ _ Hev Hin).
    + unfold bind, emit.
      assert (Hsave :
                forall tr, (tr = tr0 ++ [EvSave (c :: r) b]) ->
                forall p content, In (EvSave p content) tr ->
                Some (c :: r) = Some p /\ p <> []
                /\ exists tr1, Some (@Normal bytes b, tr0)
                               = Some (Normal content, tr1)
                               /\ tr = tr1 ++ [EvSave p content]).
      { intros tr -> p content Hin. apply in_app_or in Hin.
        destruct Hin as [Hin | [Hin | []]];
          [destruct (loopEvents_hold_no_save _ _ _ _ Hev Hin) |].
        inversion Hin. subst. split; [reflexivity |].
        split; [discriminate |]. exists tr0. split; reflexivity. }
      destruct (fs_save W (c :: r) b); eexists; eexists;
        (split; [reflexivity |]); apply Hsave; reflexivity.
    + eexists. eexists. split; [reflexivity |].
      intros p content Hin.
      destruct (loopEvents_hold_no_save _ _ _ _ Hev Hin).
  - eexists. eexists. split; [reflexivity |].
    intros p content Hin.
    destruct (loopEvents_hold_no_save _ _ _ _ Hev Hin).
Qed.

Lemma generate_image_saves_only_polled_image_witness :
  exists c,
    generate_image 61 samplePlatform readyWithDeadLink duckSavedArgs []
    = Some (c, [EvPoll duckPollUrl; EvImage cdnUrl;
                EvSave (lit "out/duck.png") notFoundBody])
    /\ GenerateImage.outputPath duckSavedArgs = Some (lit "out/duck.png")
    /\ pollImage 61 samplePlatform readyWithDeadLink duckPollUrl duckTimeout []
       = Some (Normal notFoundBody, [EvPoll duckPollUrl; EvImage cdnUrl]).
Proof.
  destruct (generate_image_saves_only_polled_image samplePlatform
              readyWithDeadLink 61 duckSavedArgs
              ltac:(unfold maxAttempts; lia))
    as (c & tr & E & Hsave).
  assert (Etr : tr = [EvPoll duckPollUrl; EvImage cdnUrl;
                      EvSave (lit "out/duck.png") notFoundBody]).
  { assert (E0 : exists c0,
               generate_image 61 samplePlatform readyWithDeadLink duckSavedArgs []
               = Some (c0, [EvPoll duckPollUrl; EvImage cdnUrl;
                            EvSave (lit "out/duck.png") notFoundBody]))
      by (eexists; vm_compute; reflexivity).
    destruct E0 as (c0 & E0). rewrite E0 in E. now inversion E. }
  subst tr.
  destruct (Hsave (lit "out/duck.png") notFoundBody
              ltac:(right; right; left; reflexivity))
    as (Ho & _ & tr0 & Ep & Et).
  exists c. split; [exact E |]. split; [exact Ho |].
  change [EvPoll duckPollUrl; EvImage cdnUrl;
          EvSave (lit "out/duck.png") notFoundBody]
    with ([EvPoll duckPollUrl; EvImage cdnUrl]
            ++ [EvSave (lit "out/duck.png") notFoundBody]) in Et.
  apply app_inj_tail in Et. destruct Et as [<- _]. exact Ep.
Defined.

(** ** Error propagation, step by step *)

Section PropagationSteps.

Variable P : Platform.
Variable W : World.

Lemma passesOn_first {A} (m : M A) (f : A -> M ToolResult) log :
  passesOn (bind m f) log m log.
Proof. intros e log' H. unfold bind. now rewrite H. Qed.

Lemma passesOn_next {A B} (m : M A) (f : A -> M ToolResult) (step : M B)
    log a log1 log2 :
  m log = Some (Normal a, log1) ->
  passesOn (f a) log1 step log2 ->
  passesOn (bind m f) log step log2.
Proof. intros Hm Hf e log' H. unfold bind. rewrite Hm. now apply Hf. Qed.

Lemma pollImage_notYet_timeout fuel pollUrl message log :
  maxAttempts < fuel ->
  (forall j, j < maxAttempts -> notYet W pollUrl j = true) ->
  exists tr,
    pollImage fuel P W pollUrl message log
    = Some (Throw (Error message), log ++ tr).
Proof.
  intros Hf Hall.
  destruct (pollLoop_first_ready P W pollUrl maxAttempts fuel initialState log
              eq_refl eq_refl eq_refl Hf) as (st' & tr & E & Hd).
  unfold pollImage, bind. rewrite E.
  cbn [initialState attempt] in Hd.
  destruct Hd as [(Hn & _) | (_ & k & Hk & Hnk & _)].
  - rewrite Hn. exists tr. reflexivity.
  - rewrite Hall in Hnk by lia. discriminate.
Qed.

Lemma saveImage_rejected p b m log :
  p <> [] -> fs_save W p b = Some m ->
  saveImage W (Some p) b log = Some (Throw (Rejected m), log ++ [EvSave p b]).
Proof.
  intros Hne Hs. destruct p as [| c r]; [contradiction |].
  unfold saveImage, bind, emit. now rewrite Hs.
Qed.

Lemma resolveSourceUrl_upload a log :
  truthyStr (EditImage.sourceUrl a) = false ->
  (exists u log',
      resolveSourceUrl P W a log = Some (Normal u, log')
      /\ uploadGoesThrough P W a u)
  \/ (exists e log', resolveSourceUrl P W a log = Some (Throw e, log')).
Proof.
  intros Hu.
  assert (E : resolveSourceUrl P W a = uploadSource P W a).
  { unfold resolveSourceUrl.
    destruct (EditImage.sourceUrl a) as [[| c r] |];
      [reflexivity | discriminate | reflexivity]. }
  rewrite E. clear E. unfold uploadSource.
  destruct (EditImage.sourcePath a) as [[| c0 r0] |] eqn:Esp;
    try (right; eexists; eexists; reflexivity).
  destruct (EditImage.project a) as [[| c1 r1] |] eqn:Epr;
    try (right; eexists; eexists; reflexivity).
  cbv [bind readFile emit ret throw].
  destruct (fs_readFile W (c0 :: r0)) as [m | file] eqn:Er;
    [right; eexists; eexists; reflexivity |].
  fold (uploadExtension P (c0 :: r0)).
  destruct (existsb (streq (uploadExtension P (c0 :: r0))) allowedExtensions)
    eqn:Eext; cbn [negb];
    [| right; eexists; eexists; reflexivity].
  destruct (sanitizedPrompt
              (orString (EditImage.uploadPrompt a)
                 (path_basename_ext P (c0 :: r0) (path_extname P (c0 :: r0)))))
    as [| pc pr] eqn:Eprompt;
    [right; eexists; eexists; reflexivity |].
  match goal with
  | |- context [fetchUpload W ?f] =>
      replace f with (uploadFormOf P a (c0 :: r0) (c1 :: r1) file)
        by (unfold uploadFormOf; now rewrite Eprompt)
  end.
  cbv [fetchUpload bind emit ret throw json bodyText].
  destruct (fetch_upload W (uploadFormOf P a (c0 :: r0) (c1 :: r1) file))
    as [m | res] eqn:Ef;
    [right; eexists; eexists; reflexivity |].
  destruct (res_ok res) eqn:Eok; cbn [negb];
    [| right; destruct (res_text res); eexists; eexists; reflexivity].
  destruct (res_json res) as [m | data] eqn:Ej;
    [right; eexists; eexists; reflexivity |].
  destruct (truthyOpt (getPropOpt (Some data) (lit "success"))) eqn:Es;
    cbn [negb]; [| right; eexists; eexists; reflexivity].
  destruct (truthyOpt (getPropOpt (getPropOpt (Some data) (lit "content"))
                         (lit "prompt"))) eqn:Ep;
    cbn [negb]; [| right; eexists; eexists; reflexivity].
  left. eexists. eexists. split; [reflexivity |].
  exists (c0 :: r0), (c1 :: r1), file, res, data.
  repeat split; trivial; try discriminate.
  unfold uploadFormOf. cbn [form_prompt]. rewrite Eprompt. discriminate.
Qed.

Lemma resolveSource_invalid sourcePath path log :
  sourceMatch (sourceFileName path) = None ->
  formatMatch (sourceFileName path) = None ->
  resolveSource W sourcePath path log
  = Some (Throw (Error (lit "Invalid source image path format: " ++ path)), log).
Proof. intros H1 H2. unfold resolveSource. now rewrite H1, H2. Qed.

Lemma checkSourceUrl_rejects u log :
  (forall o, URL_parse P u = Some o -> hostAccepted o = false) ->
  checkSourceUrl P u log = Some (Throw (invalidUrl u), log).
Proof.
  intros H. rewrite checkSourceUrl_spec.
  destruct (URL_parse P u) as [o |]; [| reflexivity].
  now rewrite (H o eq_refl).
Qed.

End PropagationSteps.

(** C9: the three tools that materialise bytes hand every error to their
    caller by throwing.  None of them ever returns an error payload.
    Nothing in them catches what one of their steps throws: the polling and
    the save in generate_image and in create_image, and in edit_image the
    resolution of the source URL, its check, the resolution of the source,
    the polling and the save; whatever such a step throws, the tool throws
    with the same trace.  And each error condition makes its step throw:
    sixty attempts without an image make the poller throw the time-out; a
    rejected write makes the save throw; the source URL of an upload is
    thrown for unless the file can be read, project, extension and prompt
    are accepted and the upload is answered with success and a prompt; a
    URL that does not parse or whose host is not accepted, and a path that
    no pattern matches, are thrown for.  The one error that create_image
    recovers from is that of looking up the project: that step never throws.
    The five read-only tools never throw: each returns what [apiFetch]
    returns as a result, and what [apiFetch] throws as an error payload
    with [isError] set. *)
Theorem error_propagation_policy :
  forall (P : Platform) (W : World) (fuel : nat),
    maxAttempts < fuel ->
    ((forall a, throwsOnFailure (generate_image fuel P W a))
     /\ (forall a, throwsOnFailure (create_image fuel P W a))
     /\ (forall a, throwsOnFailure (edit_image fuel P W a)))
    /\ (forall a log,
          let path :=
            pathPart (GenerateImage.project a) (GenerateImage.description a)
              (GenerateImage.width a) (GenerateImage.height a)
              (GenerateImage.format a) in
          let poll :=
            pollImage fuel P W (pollUrlOf W path)
              (timeoutMessage (lit "Image generation")
                 (IMG_BASE ++ [slash] ++ path)) in
          passesOn (generate_image fuel P W a) log poll log
          /\ (forall b log1,
                poll log = Some (Normal b, log1) ->
                passesOn (generate_image fuel P W a) log
                  (saveImage W (GenerateImage.outputPath a) b) log1)
          /\ ((forall j, j < maxAttempts ->
                         notYet W (pollUrlOf W path) j = true) ->
              exists tr,
                generate_image fuel P W a log
                = Some (Throw (Error (timeoutMessage (lit "Image generation")
                                        (IMG_BASE ++ [slash] ++ path))),
                        log ++ tr)))
    /\ (forall a log,
          exists project log0,
            resolveProject P W (CreateImage.project a) log
            = Some (Normal project, log0)
            /\ let path :=
                 pathPart (render P project) (CreateImage.description a)
                   (orDefault (CreateImage.width a) (integer 800))
                   (orDefault (CreateImage.height a) (integer 600))
                   (orDefault (CreateImage.format a) png) in
               let poll :=
                 pollImage fuel P W (pollUrlOf W path)
                   (timeoutMessage (lit "Image generation")
                      (IMG_BASE ++ [slash] ++ path)) in
               passesOn (create_image fuel P W a) log poll log0
               /\ (forall b log1,
                     poll log0 = Some (Normal b, log1) ->
                     passesOn (create_image fuel P W a) log
                       (saveImage W (CreateImage.outputPath a) b) log1)
               /\ ((forall j, j < maxAttempts ->
                              notYet W (pollUrlOf W path) j = true) ->
                   exists tr,
                     create_image fuel P W a log
                     = Some (Throw (Error (timeoutMessage
                                             (lit "Image generation")
                                             (IMG_BASE ++ [slash] ++ path))),
                             log0 ++ tr)))
    /\ (forall a log,
          passesOn (edit_image fuel P W a) log (resolveSourceUrl P W a) log
          /\ (forall u log1,
                resolveSourceUrl P W a log = Some (Normal u, log1) ->
                passesOn (edit_image fuel P W a) log (checkSourceUrl P u) log1
                /\ (forall o log2,
                      checkSourceUrl P u log1 = Some (Normal o, log2) ->
                      let sourcePathFromUrl := removeLeadingSlash (pathname o) in
                      passesOn (edit_image fuel P W a) log
                        (resolveSource W (EditImage.sourcePath a)
                           sourcePathFromUrl) log2
                      /\ (forall src log3,
                            resolveSource W (EditImage.sourcePath a)
                              sourcePathFromUrl log2
                            = Some (Normal src, log3) ->
                            let editPath := editPathOf a sourcePathFromUrl src in
                            let poll :=
                              pollImage fuel P W
                                (pollUrlOf W editPath ++ search o)
                                (timeoutMessage (lit "Image edit")
                                   (IMG_BASE ++ [slash] ++ editPath
                                      ++ search o)) in
                            passesOn (edit_image fuel P W a) log poll log3
                            /\ (forall b log4,
                                  poll log3 = Some (Normal b, log4) ->
                                  passesOn (edit_image fuel P W a) log
                                    (saveImage W (EditImage.outputPath a) b)
                                    log4)
                            /\ ((forall j, j < maxAttempts ->
                                    notYet W (pollUrlOf W editPath ++ search o) j
                                    = true) ->
                                exists tr,
                                  edit_image fuel P W a log
                                  = Some (Throw (Error (timeoutMessage
                                                          (lit "Image edit")
                                                          (IMG_BASE ++ [slash]
                                                             ++ editPath
                                                             ++ search o))),
                                          log3 ++ tr))))))
    /\ ((forall pollUrl message log,
           (forall j, j < maxAttempts -> notYet W pollUrl j = true) ->
           exists tr,
             pollImage fuel P W pollUrl message log
             = Some (Throw (Error message), log ++ tr))
        /\ (forall p b m log,
              p <> [] -> fs_save W p b = Some m ->
              saveImage W (Some p) b log
              = Some (Throw (Rejected m), log ++ [EvSave p b]))
        /\ (forall a log,
              truthyStr (EditImage.sourceUrl a) = false ->
              (exists u log',
                  resolveSourceUrl P W a log = Some (Normal u, log')
                  /\ uploadGoesThrough P W a u)
              \/ (exists e log',
                    resolveSourceUrl P W a log = Some (Throw e, log')))
        /\ (forall a log,
              truthyStr (EditImage.sourceUrl a) = false ->
              truthyStr (EditImage.sourcePath a) = false ->
              edit_image fuel P W a log
              = Some (Throw (Error (lit "Either sourceUrl or sourcePath must be provided.")),
                      log))
        /\ (forall u log,
              (forall o, URL_parse P u = Some o ->
                         endsWith (hostname o) (lit "img.inliner.ai") = false) ->
              checkSourceUrl P u log = Some (Throw (invalidUrl u), log))
        /\ (forall sourcePath path log,
              sourceMatch (sourceFileName path) = None ->
              formatMatch (sourceFileName path) = None ->
              resolveSource W sourcePath path log
              = Some (Throw (Error (lit "Invalid source image path format: "
                                      ++ path)), log)))
    /\ (catchesAtBoundary P W (lit "account/projects")
          (lit "Error fetching projects: ") (get_projects P W)
        /\ (forall projectId,
              catchesAtBoundary P W (lit "account/projects/" ++ projectId)
                (lit "Error fetching project: ")
                (get_project_details P W projectId))
        /\ catchesAtBoundary P W (lit "account/plan-usage")
             (lit "Error fetching usage: ") (get_usage P W)
        /\ catchesAtBoundary P W (lit "account/current-plan")
             (lit "Error fetching plan: ") (get_current_plan P W)
        /\ (forall projectId limit, exists path,
              catchesAtBoundary P W path (lit "Error fetching images: ")
                (list_images P W projectId limit)))
    /\ (neverThrows (get_projects P W)
        /\ (forall projectId, neverThrows (get_project_details P W projectId))
        /\ neverThrows (get_usage P W)
        /\ neverThrows (get_current_plan P W)
        /\ (forall projectId limit, neverThrows (list_images P W projectId limit)))
    /\ (forall errorPrefix e, isError (failure errorPrefix e) = true)
    /\ (forall data, isError (success P data) = false).
Proof.
  intros P W fuel Hf.
  split; [| split; [| split; [| split; [| split; [| split; [| split; [| split]]]]]]].
  - split; [| split]; intros a.
    + apply throwsOnFailure_generate_image.
    + apply throwsOnFailure_create_image.
    + apply throwsOnFailure_edit_image.
  - intros a log path poll.
    assert (H1 : passesOn (generate_image fuel P W a) log poll log)
      by apply passesOn_first.
    split; [exact H1 | split].
    + intros b log1 Hb. unfold generate_image. fold path. fold poll.
      apply (passesOn_next _ _ _ _ _ _ _ Hb). apply passesOn_first.
    + intros Hall.
      destruct (pollImage_notYet_timeout P W fuel (pollUrlOf W path)
                  (timeoutMessage (lit "Image generation")
                     (IMG_BASE ++ [slash] ++ path)) log Hf Hall) as (tr & E).
      exists tr. apply H1. exact E.
  - intros a log.
    destruct (quiet_resolveProject P W (CreateImage.project a) log)
      as (c & log0 & E & _).
    assert (Hn : exists project, c = Normal project).
    { unfold resolveProject in E.
      destruct (CreateImage.project a) as [[| c1 r1] |];
        try (inversion E; eexists; reflexivity);
        unfold tryCatch in E;
        destruct (firstProject P W log) as [[[v | e] l] |];
        inversion E; eexists; reflexivity. }
    destruct Hn as (project & ->).
    exists project, log0. split; [exact E |].
    intros path poll.
    assert (H1 : passesOn (create_image fuel P W a) log poll log0).
    { unfold create_image. cbv zeta.
      apply (passesOn_next _ _ _ _ _ _ _ E). apply passesOn_first. }
    split; [exact H1 | split].
    + intros b log1 Hb. unfold create_image. cbv zeta.
      apply (passesOn_next _ _ _ _ _ _ _ E).
      apply (passesOn_next _ _ _ _ _ _ _ Hb). apply passesOn_first.
    + intros Hall.
      destruct (pollImage_notYet_timeout P W fuel (pollUrlOf W path)
                  (timeoutMessage (lit "Image generation")
                     (IMG_BASE ++ [slash] ++ path)) log0 Hf Hall) as (tr & Et).
      exists tr. apply H1. exact Et.
  - intros a log. split; [apply passesOn_first |].
    intros u log1 Hu. split.
    + unfold edit_image. apply (passesOn_next _ _ _ _ _ _ _ Hu).
      apply passesOn_first.
    + intros o log2 Ho sourcePathFromUrl. split.
      * unfold edit_image. apply (passesOn_next _ _ _ _ _ _ _ Hu).
        apply (passesOn_next _ _ _ _ _ _ _ Ho). apply passesOn_first.
      * intros src log3 Hsrc editPath poll.
        assert (H1 : passesOn (edit_image fuel P W a) log poll log3).
        { unfold edit_image. apply (passesOn_next _ _ _ _ _ _ _ Hu).
          apply (passesOn_next _ _ _ _ _ _ _ Ho).
          apply (passesOn_next _ _ _ _ _ _ _ Hsrc).
          destruct src as [[[d sw] sh] sf]. apply passesOn_first. }
        split; [exact H1 | split].
        2:{ intros Hall.
            destruct (pollImage_notYet_timeout P W fuel
                        (pollUrlOf W editPath ++ search o)
                        (timeoutMessage (lit "Image edit")
                           (IMG_BASE ++ [slash] ++ editPath ++ search o))
                        log3 Hf Hall) as (tr & Et).
            exists tr. apply H1. exact Et. }
        -- intros b log4 Hb. unfold edit_image.
           apply (passesOn_next _ _ _ _ _ _ _ Hu).
           apply (passesOn_next _ _ _ _ _ _ _ Ho).
           apply (passesOn_next _ _ _ _ _ _ _ Hsrc).
           destruct src as [[[d sw] sh] sf].
           apply (passesOn_next _ _ _ _ _ _ _ Hb). apply passesOn_first.
  - split; [| split; [| split; [| split; [| split]]]].
    + intros pollUrl message log Hall.
      now apply pollImage_notYet_timeout.
    + intros p b m log. apply saveImage_rejected.
    + intros a log. apply resolveSourceUrl_upload.
    + intros a log. apply edit_image_without_source.
    + intros u log. apply checkSourceUrl_rejects.
    + intros sourcePath path log. apply resolveSource_invalid.
  - split; [| split; [| split; [| split]]].
    + exact (listing_catches P W _ _).
    + intros projectId. exact (listing_catches P W _ _).
    + exact (listing_catches P W _ _).
    + exact (listing_catches P W _ _).
    + intros projectId limit. eexists. exact (listing_catches P W _ _).
  - split; [| split; [| split; [| split]]]; intros;
      exact (catchesAtBoundary_neverThrows P W _ _ _ (listing_catches P W _ _)).
  - reflexivity.
  - reflexivity.
Qed.

Lemma error_propagation_policy_witness :
  exists tr,
    generate_image 61 samplePlatform failedWorld duckArgs []
    = Some (Throw (Error duckTimeout), [] ++ tr).
Proof.
  destruct (error_propagation_policy samplePlatform failedWorld 61
              ltac:(unfold maxAttempts; lia))
    as (_ & Hgen & _ & _ & (Htimeout & _) & _).
  destruct (Htimeout duckPollUrl duckTimeout []) as (tr & E).
  - intros j Hj. reflexivity.
  - exists tr. apply (proj1 (Hgen duckArgs [])). exact E.
Defined.
